(** * ML-KEM-768 reference implementation: a shallow embedding and its properties

    The development follows the Python sources file by file:
    - [hashlib]      the SHA-3 / SHAKE primitives the program imports (FIPS 202);
    - [shakestream]  src/shakestream.py, the re-squeezing stream wrapper;
    - [mlkem]        src/mlkem.py, arithmetic, NTT, codec, samplers, K-PKE, KEM;
    - [test_compress] src/test_compress.py, the rational reference rounding.

    Python integers are [Z], list indices and lengths are [nat], byte strings
    are lists of [Z] in [0, 256).  A Python list updated in place is a list
    with stdpp's [<[i:=v]>] and [!!!]; every function whose body can index out
    of range, fail an [assert] or fail to unpack returns an [outcome]. *)

From Stdlib Require Import ZArith List Lia Bool QArith Qround Morphisms Setoid.
From stdpp Require Import base list.
Import ListNotations.
Local Open Scope Z_scope.

(** ** Outcomes of a call

    [Done v]: the call returned [v].  [Raised]: the call ended with a Python
    exception (IndexError, AssertionError, ValueError, TypeError).
    [OutOfFuel]: a [while] loop was still running when the fuel given to the
    model ran out; a call that yields [OutOfFuel] for every fuel does not
    terminate. *)
Inductive outcome (A : Type) : Type :=
  | Done (a : A)
  | Raised
  | OutOfFuel.
Arguments Done {A} a.
Arguments Raised {A}.
Arguments OutOfFuel {A}.

#[global] Instance outcome_ret : MRet outcome := fun A a => Done a.
#[global] Instance outcome_bind : MBind outcome := fun A B f m =>
  match m with
  | Done a => f a
  | Raised => Raised
  | OutOfFuel => OutOfFuel
  end.

(** [[f(x) for x in l]] where [f] may raise: left to right, first failure wins. *)
Fixpoint mapO {A B : Type} (f : A -> outcome B) (l : list A) : outcome (list B) :=
  match l with
  | [] => Done []
  | x :: l' => y ← f x; ys ← mapO f l'; Done (y :: ys)
  end.

(** [assert(b)] *)
Definition assert (b : bool) : outcome unit := if b then Done tt else Raised.

(** Python slice [x[a:b]] for [0 <= a <= b], and [x[-n:]]. *)
Definition slice {A : Type} (a b : nat) (x : list A) : list A := take (b - a) (drop a x).
Definition last_n {A : Type} (n : nat) (x : list A) : list A := drop (length x - n) x.

(** [functools.reduce(f, l)] without initial value: TypeError on the empty list. *)
Definition reduce {A : Type} (f : A -> A -> A) (l : list A) : outcome A :=
  match l with
  | [] => Raised
  | x :: l' => Done (fold_left f l' x)
  end.

(** [range(start, stop, step)] for a positive step. *)
Definition range3 (start stop step : nat) : list nat :=
  map (fun i => (start + i * step)%nat) (seq 0 ((stop - start + step - 1) / step)).

(** ** hashlib: SHA3-256, SHA3-512, SHAKE128, SHAKE256

    The hash functions are not part of the repository; the program reaches
    them through [hashlib].  They are written here after FIPS 202 (Keccak-p
    [1600, 24] on 25 lanes of 64 bits, byte-aligned messages, multi-rate
    padding), and checked against published digests below. *)
Module hashlib.

Definition mask64 : Z := 2 ^ 64 - 1.

Definition rotl64 (x n : Z) : Z :=
  Z.lor (Z.land (Z.shiftl x n) mask64) (Z.shiftr x (64 - n)).

Definition RC : list Z :=
  [0x0000000000000001; 0x0000000000008082; 0x800000000000808A; 0x8000000080008000;
   0x000000000000808B; 0x0000000080000001; 0x8000000080008081; 0x8000000000008009;
   0x000000000000008A; 0x0000000000000088; 0x0000000080008009; 0x000000008000000A;
   0x000000008000808B; 0x800000000000008B; 0x8000000000008089; 0x8000000000008003;
   0x8000000000008002; 0x8000000000000080; 0x000000000000800A; 0x800000008000000A;
   0x8000000080008081; 0x8000000000008080; 0x0000000080000001; 0x8000000080008008].

(** Rotation offsets of the rho step, lane (x, y) at position x + 5 y. *)
Definition RHO : list Z :=
  [ 0;  1; 62; 28; 27;
   36; 44;  6; 55; 20;
    3; 10; 43; 25; 39;
   41; 45; 15; 21;  8;
   18;  2; 61; 56; 14].

Definition idx25 : list nat := seq 0 25.

Definition lane (st : list Z) (x y : nat) : Z :=
  nth (x mod 5 + 5 * (y mod 5))%nat st 0.

Definition theta (st : list Z) : list Z :=
  let C := map (fun x => Z.lxor (lane st x 0) (Z.lxor (lane st x 1) (Z.lxor (lane st x 2)
                 (Z.lxor (lane st x 3) (lane st x 4))))) (seq 0 5) in
  let D := map (fun x => Z.lxor (nth ((x + 4) mod 5)%nat C 0)
                                (rotl64 (nth ((x + 1) mod 5)%nat C 0) 1)) (seq 0 5) in
  map (fun i => Z.lxor (nth i st 0) (nth (i mod 5)%nat D 0)) idx25.

Definition rho_pi (st : list Z) : list Z :=
  map (fun i => let X := (i mod 5)%nat in
                let Y := (i / 5)%nat in
                let x := ((X + 3 * Y) mod 5)%nat in
                let y := X in
                rotl64 (lane st x y) (nth (x + 5 * y)%nat RHO 0)) idx25.

Definition chi (st : list Z) : list Z :=
  map (fun i => let x := (i mod 5)%nat in
                let y := (i / 5)%nat in
                Z.lxor (lane st x y)
                       (Z.land (Z.lxor (lane st (x + 1) y) mask64) (lane st (x + 2) y))) idx25.

Definition iota (rc : Z) (st : list Z) : list Z :=
  match st with
  | a :: st' => Z.lxor a rc :: st'
  | [] => []
  end.

Definition keccak_round (st : list Z) (rc : Z) : list Z :=
  iota rc (chi (rho_pi (theta st))).

Definition keccak_f (st : list Z) : list Z := fold_left keccak_round RC st.

Definition lane_bytes (w : Z) : list Z :=
  map (fun i => Z.land (Z.shiftr w (8 * Z.of_nat i)) 255) (seq 0 8).

Definition state_bytes (st : list Z) : list Z :=
  flat_map (fun i => lane_bytes (nth i st 0)) idx25.

Definition bytes_lane (bs : list Z) : Z :=
  fold_right (fun b acc => Z.lor b (Z.shiftl acc 8)) 0 bs.

Definition block_lanes (bs : list Z) : list Z :=
  map (fun i => bytes_lane (take 8 (drop (8 * i) bs))) idx25.

Definition xor_block (st blk : list Z) : list Z :=
  let l := block_lanes blk in
  map (fun i => Z.lxor (nth i st 0) (nth i l 0)) idx25.

(** pad10*1 after the domain-separation bits, for whole-byte messages. *)
Definition keccak_pad (rate : nat) (suffix : Z) (msg : list Z) : list Z :=
  match (rate - 1 - length msg mod rate)%nat with
  | O => msg ++ [Z.lor suffix 128]
  | S k => msg ++ [suffix] ++ repeat 0 k ++ [128]
  end.

Fixpoint absorb (rate nblocks : nat) (st p : list Z) : list Z :=
  match nblocks with
  | O => st
  | S n => absorb rate n (keccak_f (xor_block st (take rate p))) (drop rate p)
  end.

Fixpoint squeeze (rate nblocks : nat) (st : list Z) : list Z :=
  match nblocks with
  | O => []
  | S n => take rate (state_bytes st) ++
           match n with
           | O => []
           | S _ => squeeze rate n (keccak_f st)
           end
  end.

Definition keccak (rate : nat) (suffix : Z) (msg : list Z) (outlen : nat) : list Z :=
  let p := keccak_pad rate suffix msg in
  let st := absorb rate (length p / rate) (repeat 0 25) p in
  take outlen (squeeze rate ((outlen + rate - 1) / rate) st).

(** [hashlib.sha3_256(m).digest()] and friends; the SHAKE digests take the
    output length, as [hashlib.shake_128(m).digest] does. *)
Definition sha3_256 (m : list Z) : list Z := keccak 136 6 m 32.
Definition sha3_512 (m : list Z) : list Z := keccak 72 6 m 64.
Definition shake_128 (m : list Z) (n : nat) : list Z := keccak 168 31 m n.
Definition shake_256 (m : list Z) (n : nat) : list Z := keccak 136 31 m n.

End hashlib.

(** ** src/shakestream.py *)
Module shakestream.

(** [class ShakeStream]: the digest function given to [__init__], the buffer
    and the read offset. *)
Record ShakeStream : Type := mkShakeStream {
  digest : nat -> list Z;
  buf : list Z;
  offset : nat
}.

(** [ShakeStream.__init__] *)
Definition init (digestfn : nat -> list Z) : ShakeStream :=
  {| digest := digestfn; buf := digestfn 32%nat; offset := 0 |}.

(** The [while] loop of [read]: double the buffer until it holds
    [offset + n] bytes.  One unit of fuel per iteration. *)
Fixpoint grow (fuel : nat) (n : nat) (s : ShakeStream) : outcome ShakeStream :=
  if (length (buf s) <? offset s + n)%nat then
    match fuel with
    | O => OutOfFuel
    | S fuel' =>
        grow fuel' n {| digest := digest s;
                        buf := digest s (length (buf s) * 2)%nat;
                        offset := offset s |}
    end
  else Done s.

(** [ShakeStream.read]: the bytes read and the stream after the call. *)
Definition read (fuel : nat) (n : nat) (s : ShakeStream) : outcome (list Z * ShakeStream) :=
  s' ← grow fuel n s;
  Done (slice (offset s') (offset s' + n) (buf s'),
        {| digest := digest s'; buf := buf s'; offset := (offset s' + n)%nat |}).

End shakestream.

(** ** src/mlkem.py *)
Module mlkem.
Import shakestream.

(** ML-KEM-768 params *)
Definition N : nat := 256.
Definition Q : Z := 3329.
Definition K : nat := 3.
Definition ETA1 : nat := 2.
Definition ETA2 : nat := 2.
Definition DU : nat := 10.
Definition DV : nat := 4.

(** [f"{n:07b}"]: the binary digits of [n], most significant first, padded
    with zeros to at least seven digits. *)
Definition format_07b (n : nat) : list Z :=
  let w := Nat.max 7 (Z.to_nat (Z.log2 (Z.of_nat n) + 1)) in
  map (fun i => Z.b2z (Z.testbit (Z.of_nat n) (Z.of_nat (w - 1 - i)))) (seq 0 w).

(** [int(s, 2)] *)
Definition int_base2 (s : list Z) : Z := fold_left (fun acc b => 2 * acc + b) s 0.

Definition bitrev7 (n : nat) : Z := int_base2 (rev (format_07b n)).

(** [pow(17, bitrev7(k), Q)] for [k in range(128)], used in ntt and ntt_inv *)
Definition ZETA : list Z :=
  Eval vm_compute in map (fun k => 17 ^ bitrev7 k mod Q) (seq 0 128).

(** [pow(17, 2*bitrev7(k)+1, Q)], used in ntt_mul *)
Definition GAMMA : list Z :=
  Eval vm_compute in map (fun k => 17 ^ (2 * bitrev7 k + 1) mod Q) (seq 0 128).

Definition poly256_add (a b : list Z) : list Z :=
  zip_with (fun x y => (x + y) mod Q) a b.

Definition poly256_sub (a b : list Z) : list Z :=
  zip_with (fun x y => (x - y) mod Q) a b.

(** One pass of the body [c[i+j] = (c[i+j] + a[j] * b[i]) % Q]. *)
Definition slow_mul_step (a b : list Z) (i j : nat) (c : list Z) : list Z :=
  <[(i + j)%nat := (c !!! (i + j)%nat + a !!! j * b !!! i) mod Q]> c.

(** One pass of the body [c[i] = (c[i] - c[i+256]) % Q]. *)
Definition slow_mul_reduce_step (i : nat) (c : list Z) : list Z :=
  <[i := (c !!! i - c !!! (i + 256)%nat) mod Q]> c.

(** [poly256_slow_mul]: [a[j]] and [b[i]] are read for every [i, j < 256],
    so a shorter operand raises IndexError. *)
Definition poly256_slow_mul (a b : list Z) : outcome (list Z) :=
  if ((length a <? 256) || (length b <? 256))%nat then Raised
  else
    let c := replicate 511 0 in
    let c := fold_left (fun c i =>
               fold_left (fun c j => slow_mul_step a b i j c) (seq 0 256) c)
               (seq 0 256) c in
    let c := fold_left (fun c i => slow_mul_reduce_step i c) (seq 0 255) c in
    Done (take 256 c).

(** The local variables of [ntt] and [ntt_inv] that the loops change.
    [zeta_reads] is a ghost field: the indices at which [ZETA] was read, in
    order.  It does not influence [f_out] or [k]. *)
Record ntt_state : Type := mkNtt {
  f_out : list Z;
  k : nat;
  zeta_reads : list nat
}.

(** Body of the innermost loop of [ntt], at a given [zeta], [length], [j]. *)
Definition ntt_butterfly (zeta : Z) (len j : nat) (f : list Z) : list Z :=
  let t := (zeta * f !!! (j + len)%nat) mod Q in
  let f := <[(j + len)%nat := (f !!! j - t) mod Q]> f in
  <[j := (f !!! j + t) mod Q]> f.

(** Body of the loop over [start] in [ntt]. *)
Definition ntt_block (len : nat) (s : ntt_state) (start : nat) : ntt_state :=
  let zeta := ZETA !!! k s in
  {| f_out := fold_left (fun f j => ntt_butterfly zeta len j f) (seq start len) (f_out s);
     k := (k s + 1)%nat;
     zeta_reads := zeta_reads s ++ [k s] |}.

(** Body of the loop over [log2len] in [ntt]. *)
Definition ntt_layer (s : ntt_state) (log2len : nat) : ntt_state :=
  let len := (2 ^ log2len)%nat in
  fold_left (ntt_block len) (range3 0 256 (2 * len)) s.

(** The loops of [ntt], started on a copy of the input with [k = 1]. *)
Definition ntt_loops (f_in : list Z) : ntt_state :=
  fold_left ntt_layer [7; 6; 5; 4; 3; 2; 1]%nat
            {| f_out := f_in; k := 1; zeta_reads := [] |}.

(** [ntt]: the first butterfly layer reads [f_out[j + 128]] for every
    [j < 128], so an input shorter than 256 raises IndexError; all indices
    used are below 256. *)
Definition ntt (f_in : list Z) : outcome (list Z) :=
  if (length f_in <? 256)%nat then Raised else Done (f_out (ntt_loops f_in)).

Definition ntt_inv_butterfly (zeta : Z) (len j : nat) (f : list Z) : list Z :=
  let t := f !!! j in
  let f := <[j := (t + f !!! (j + len)%nat) mod Q]> f in
  <[(j + len)%nat := (zeta * (f !!! (j + len)%nat - t)) mod Q]> f.

Definition ntt_inv_block (len : nat) (s : ntt_state) (start : nat) : ntt_state :=
  let zeta := ZETA !!! k s in
  {| f_out := fold_left (fun f j => ntt_inv_butterfly zeta len j f) (seq start len) (f_out s);
     k := (k s - 1)%nat;
     zeta_reads := zeta_reads s ++ [k s] |}.

Definition ntt_inv_layer (s : ntt_state) (log2len : nat) : ntt_state :=
  let len := (2 ^ log2len)%nat in
  fold_left (ntt_inv_block len) (range3 0 256 (2 * len)) s.

(** The body [f_out[i] = (f_out[i] * 3303) % Q] of the final loop. *)
Definition ntt_inv_scale_step (f : list Z) (i : nat) : list Z :=
  <[i := (f !!! i * 3303) mod Q]> f.

Definition ntt_inv_loops (f_in : list Z) : list Z :=
  let s := fold_left ntt_inv_layer (seq 1 7)
             {| f_out := f_in; k := 127; zeta_reads := [] |} in
  fold_left ntt_inv_scale_step (seq 0 256) (f_out s).

(** [ntt_inv]: the last layer reads index 255, the first layers raise
    earlier on shorter inputs. *)
Definition ntt_inv (f_in : list Z) : outcome (list Z) :=
  if (length f_in <? 256)%nat then Raised else Done (ntt_inv_loops f_in).

Definition ntt_add := poly256_add.

(** Body of the loop of [ntt_mul]: the two values appended at index [i]. *)
Definition ntt_mul_step (a b : list Z) (c : list Z) (i : nat) : list Z :=
  let a0 := a !!! (2 * i)%nat in
  let a1 := a !!! (2 * i + 1)%nat in
  let b0 := b !!! (2 * i)%nat in
  let b1 := b !!! (2 * i + 1)%nat in
  (c ++ [(a0 * b0 + a1 * b1 * GAMMA !!! i) mod Q]) ++ [(a0 * b1 + a1 * b0) mod Q].

(** [ntt_mul]: unpacking [a[2*i : 2*i+2]] into two names needs both
    elements, for [i] up to 127, so a shorter operand raises ValueError. *)
Definition ntt_mul (a b : list Z) : outcome (list Z) :=
  if ((length a <? 256) || (length b <? 256))%nat then Raised
  else Done (fold_left (ntt_mul_step a b) (seq 0 128) []).

(** *** crypto functions *)

(** [bytes([b])] for the indices used by the callers, all below 256. *)
Definition byte_of_nat (b : nat) : Z := Z.of_nat b.

Definition mlkem_prf (eta : nat) (data : list Z) (b : nat) : list Z :=
  hashlib.shake_256 (data ++ [byte_of_nat b]) (64 * eta)%nat.

Definition mlkem_xof (data : list Z) (i j : nat) : ShakeStream :=
  init (hashlib.shake_128 (data ++ [byte_of_nat i; byte_of_nat j])).

Definition mlkem_hash_H (data : list Z) : list Z := hashlib.sha3_256 data.
Definition mlkem_hash_J (data : list Z) : list Z := hashlib.shake_256 data 32%nat.
Definition mlkem_hash_G (data : list Z) : list Z := hashlib.sha3_512 data.

(** *** encode/decode logic *)

(** [sum(v[i + j] << j for j in range(d))] *)
Definition sum_shifted (v : list Z) (i d : nat) : Z :=
  fold_left Z.add (map (fun j => Z.shiftl (v !!! (i + j)%nat) (Z.of_nat j)) (seq 0 d)) 0.

(** [bits_to_bytes]: [bytes(...)] raises ValueError on a value outside
    [0, 256). *)
Definition bits_to_bytes (bits : list Z) : outcome (list Z) :=
  _ ← assert (length bits mod 8 =? 0)%nat;
  let vals := map (fun i => sum_shifted bits i 8) (range3 0 (length bits) 8) in
  if forallb (fun v => (0 <=? v) && (v <? 256)) vals then Done vals else Raised.

Definition bytes_to_bits (data : list Z) : list Z :=
  flat_map (fun word => map (fun i => Z.land (Z.shiftr word (Z.of_nat i)) 1) (seq 0 8)) data.

Definition byte_encode (d : nat) (f : list Z) : outcome (list Z) :=
  _ ← assert (length f =? 256)%nat;
  bits_to_bytes
    (flat_map (fun a => map (fun i => Z.land (Z.shiftr a (Z.of_nat i)) 1) (seq 0 d)) f).

(** [byte_decode]: the comprehension reads [bits[i*d + j]] for all
    [i < 256], [j < d]: IndexError when there are fewer than [256 d] bits. *)
Definition byte_decode (d : nat) (data : list Z) : outcome (list Z) :=
  let bits := bytes_to_bits data in
  if (length bits <? 256 * d)%nat then Raised
  else Done (map (fun i => sum_shifted bits (i * d) d) (seq 0 256)).

Definition compress (d : nat) (x : list Z) : list Z :=
  map (fun n => ((n * 2 ^ Z.of_nat d + Q / 2) / Q) mod 2 ^ Z.of_nat d) x.

(** [decompress], for [d >= 1] as at every call site (1, 4 and 10). *)
Definition decompress (d : nat) (x : list Z) : list Z :=
  map (fun n => ((n * Q + 2 ^ (Z.of_nat d - 1)) / 2 ^ Z.of_nat d) mod Q) x.

(** *** sampling *)

(** One pass of the body of the [while] loop of [sample_ntt], after the
    three bytes were read. *)
Definition sample_ntt_step (res : list Z) (a b c : Z) : list Z :=
  let d1 := Z.lor (Z.shiftl (Z.land b 15) 8) a in
  let d2 := Z.lor (Z.shiftl c 4) (Z.shiftr b 4) in
  let res := if d1 <? Q then res ++ [d1] else res in
  if (d2 <? Q) && (length res <? 256)%nat then res ++ [d2] else res.

(** The [while len(res) < 256] loop, one unit of fuel per iteration; each
    [read] gets the fuel [rfuel] for its own loop. *)
Fixpoint sample_ntt_loop (rfuel fuel : nat) (xof : ShakeStream) (res : list Z)
  : outcome (list Z) :=
  if (length res <? 256)%nat then
    match fuel with
    | O => OutOfFuel
    | S fuel' =>
        '(chunk, xof') ← read rfuel 3 xof;
        match chunk with
        | [a; b; c] => sample_ntt_loop rfuel fuel' xof' (sample_ntt_step res a b c)
        | _ => Raised
        end
    end
  else Done res.

Definition sample_ntt (fuel : nat) (xof : ShakeStream) : outcome (list Z) :=
  sample_ntt_loop fuel fuel xof [].

(** [sum(bits[i + j] for j in range(eta))] *)
Definition sum_bits (bits : list Z) (i eta : nat) : Z :=
  fold_left Z.add (map (fun j => bits !!! (i + j)%nat) (seq 0 eta)) 0.

Definition sample_poly_cbd (eta : nat) (data : list Z) : outcome (list Z) :=
  _ ← assert (length data =? 64 * eta)%nat;
  let bits := bytes_to_bits data in
  Done (map (fun i => (sum_bits bits (2 * i * eta) eta
                       - sum_bits bits (2 * i * eta + eta) eta) mod Q) (seq 0 256)).

(** *** K-PKE *)

(** [os.urandom]: the operating system's random bytes are a tape that each
    call consumes from the front. *)
Definition entropy : Type := nat -> Z.

Definition os_urandom (n : nat) (w : entropy) : list Z * entropy :=
  (map (fun i => w i mod 256) (seq 0 n), fun i => w (n + i)%nat).

(** [os.urandom(32) if seed is None else seed] *)
Definition seed_or_urandom (seed : option (list Z)) (w : entropy) : list Z * entropy :=
  match seed with
  | None => os_urandom 32 w
  | Some s => (s, w)
  end.

(** The nested loop that fills [ahat], textually the same in [kpke_keygen]
    and [kpke_encrypt]: [ahat[i][j] = sample_ntt(mlkem_xof(rho, i, j))]. *)
Definition sample_ahat (fuel : nat) (rho : list Z) : outcome (list (list (list Z))) :=
  mapO (fun i => mapO (fun j => sample_ntt fuel (mlkem_xof rho i j)) (seq 0 K)) (seq 0 K).

(** [kpke_keygen] once the seed [d] is fixed. *)
Definition kpke_keygen_from (fuel : nat) (d : list Z) : outcome (list Z * list Z) :=
  let ghash := mlkem_hash_G d in
  let rho := take 32 ghash in
  let sigma := drop 32 ghash in
  ahat ← sample_ahat fuel rho;
  shat ← mapO (fun i => f ← sample_poly_cbd ETA1 (mlkem_prf ETA1 sigma i); ntt f) (seq 0 K);
  ehat ← mapO (fun i => f ← sample_poly_cbd ETA1 (mlkem_prf ETA1 sigma (i + K)); ntt f)
              (seq 0 K);
  that ← mapO (fun i =>
                 prods ← mapO (fun j => ntt_mul ((ahat !!! j) !!! i) (shat !!! j)) (seq 0 K);
                 reduce ntt_add (prods ++ [ehat !!! i]))
              (seq 0 K);
  t_enc ← mapO (byte_encode 12) that;
  s_enc ← mapO (byte_encode 12) shat;
  Done (concat t_enc ++ rho, concat s_enc).

Definition kpke_keygen (fuel : nat) (seed : option (list Z)) (w : entropy)
  : outcome (list Z * list Z) * entropy :=
  let '(d, w) := seed_or_urandom seed w in
  (kpke_keygen_from fuel d, w).

Definition kpke_encrypt (fuel : nat) (ek_pke m r : list Z) : outcome (list Z) :=
  that ← mapO (fun i => byte_decode 12 (slice (i * 128 * K) ((i + 1) * 128 * K) ek_pke))
              (seq 0 K);
  let rho := last_n 32 ek_pke in
  ahat ← sample_ahat fuel rho;
  rhat ← mapO (fun i => f ← sample_poly_cbd ETA1 (mlkem_prf ETA1 r i); ntt f) (seq 0 K);
  e1 ← mapO (fun i => sample_poly_cbd ETA2 (mlkem_prf ETA2 r (i + K))) (seq 0 K);
  e2 ← sample_poly_cbd ETA2 (mlkem_prf ETA2 r (2 * K));
  u ← mapO (fun i =>
              prods ← mapO (fun j => ntt_mul ((ahat !!! i) !!! j) (rhat !!! j)) (seq 0 K);
              acc ← reduce ntt_add prods;
              w ← ntt_inv acc;
              Done (poly256_add w (e1 !!! i)))
           (seq 0 K);
  mbits ← byte_decode 1 m;
  let mu := decompress 1 mbits in
  prods ← mapO (fun i => ntt_mul (that !!! i) (rhat !!! i)) (seq 0 K);
  acc ← reduce ntt_add prods;
  w ← ntt_inv acc;
  let v := poly256_add w (poly256_add e2 mu) in
  c1 ← mapO (fun i => byte_encode DU (compress DU (u !!! i))) (seq 0 K);
  c2 ← byte_encode DV (compress DV v);
  Done (concat c1 ++ c2).

Definition kpke_decrypt (dk_pke c : list Z) : outcome (list Z) :=
  let c1 := take (32 * DU * K) c in
  let c2 := drop (32 * DU * K) c in
  u ← mapO (fun i => x ← byte_decode DU (slice (i * 32 * DU) ((i + 1) * 32 * DU) c1);
                     Done (decompress DU x))
           (seq 0 K);
  vbits ← byte_decode DV c2;
  let v := decompress DV vbits in
  shat ← mapO (fun i => byte_decode 12 (slice (i * 384) ((i + 1) * 384) dk_pke)) (seq 0 K);
  prods ← mapO (fun i => uh ← ntt (u !!! i); ntt_mul (shat !!! i) uh) (seq 0 K);
  acc ← reduce ntt_add prods;
  p ← ntt_inv acc;
  let w := poly256_sub v p in
  byte_encode 1 (compress 1 w).

(** *** KEM time *)

Definition mlkem_keygen (fuel : nat) (seed1 seed2 : option (list Z)) (w : entropy)
  : outcome (list Z * list Z) * entropy :=
  let '(z, w) := seed_or_urandom seed1 w in
  let '(keys, w) := kpke_keygen fuel seed2 w in
  ('(ek_pke, dk_pke) ← keys;
   let ek := ek_pke in
   let dk := dk_pke ++ ek ++ mlkem_hash_H ek ++ z in
   Done (ek, dk), w).

Definition mlkem_encaps (fuel : nat) (ek : list Z) (seed : option (list Z)) (w : entropy)
  : outcome (list Z * list Z) * entropy :=
  let '(m, w) := seed_or_urandom seed w in
  let ghash := mlkem_hash_G (m ++ mlkem_hash_H ek) in
  let k := take 32 ghash in
  let r := drop 32 ghash in
  (c ← kpke_encrypt fuel ek m r; Done (k, c), w).

Definition mlkem_decaps (fuel : nat) (c dk : list Z) : outcome (list Z) :=
  let dk_pke := take (384 * K) dk in
  let ek_pke := slice (384 * K) (768 * K + 32) dk in
  let h := slice (768 * K + 32) (768 * K + 64) dk in
  let z := slice (768 * K + 64) (768 * K + 96) dk in
  mdash ← kpke_decrypt dk_pke c;
  let ghash := mlkem_hash_G (mdash ++ h) in
  let kdash := take 32 ghash in
  let rdash := drop 32 ghash in
  let kbar := mlkem_hash_J (z ++ c) in
  cdash ← kpke_encrypt fuel ek_pke mdash rdash;
  if bool_decide (cdash = c) then Done kdash else Done kbar.

End mlkem.

(** ** src/test_compress.py *)
Module test_compress.

(** [round_half_up(n) = floor(n + 1/2)] on exact fractions *)
Definition round_half_up (n : QArith_base.Q) : Z := Qfloor (n + (1 # 2))%Q.

(** [compress_proper(d, x) = round_half_up(Fraction(2**d * x, Q)) % 2**d] *)
Definition compress_proper (d : nat) (x : Z) : Z :=
  round_half_up (Qmake (2 ^ Z.of_nat d * x) 3329) mod 2 ^ Z.of_nat d.

(** [decompress_proper(d, y) = round_half_up(Fraction(Q * y, 2**d)) % Q] *)
Definition decompress_proper (d : nat) (y : Z) : Z :=
  round_half_up (Qmake (3329 * y) (Z.to_pos (2 ^ Z.of_nat d))) mod 3329.

(** The compression routines of the Kyber reference code, as the test
    transcribes them. *)
Definition compress_kyber_ref_poly_tomsg (t : Z) : Z :=
  let t := Z.shiftl t 1 in
  let t := t + 1665 in
  let t := t * 80635 in
  let t := Z.shiftr t 28 in
  Z.land t 1.

Definition compress_kyber_ref_poly_128 (t : Z) : Z :=
  let t := Z.shiftl t 4 in
  let t := t + 1665 in
  let t := t * 80635 in
  let t := Z.shiftr t 28 in
  Z.land t 15.

Definition compress_kyber_ref_poly_160 (t : Z) : Z :=
  let t := Z.shiftl t 5 in
  let t := t + 1664 in
  let t := t * 40318 in
  let t := Z.shiftr t 27 in
  Z.land t 31.

Definition compress_kyber_ref_polyvec_128 (t : Z) : Z :=
  let t := Z.shiftl t 11 in
  let t := t + 1664 in
  let t := t * 645084 in
  let t := Z.shiftr t 31 in
  Z.land t 2047.

Definition compress_kyber_ref_polyvec_160 (t : Z) : Z :=
  let t := Z.shiftl t 10 in
  let t := t + 1665 in
  let t := t * 1290167 in
  let t := Z.shiftr t 32 in
  Z.land t 1023.

End test_compress.

Import shakestream mlkem.

(** ** Reference definitions for the rejection sampler

    The candidates of a chunk and the accepted candidates of a byte string,
    written after the description of the sampler rather than after its loop. *)
Definition cand1 (a b : Z) : Z := Z.lor (Z.shiftl (Z.land b 15) 8) a.
Definition cand2 (b c : Z) : Z := Z.lor (Z.shiftl c 4) (Z.shiftr b 4).

Definition accepted_chunk (a b c : Z) : list Z :=
  (if cand1 a b <? Q then [cand1 a b] else []) ++
  (if cand2 b c <? Q then [cand2 b c] else []).

(** All accepted candidates of the whole 3-byte chunks of [bs], in order. *)
Fixpoint accepted (bs : list Z) : list Z :=
  match bs with
  | a :: b :: c :: rest => accepted_chunk a b c ++ accepted rest
  | _ => []
  end.

(** The sampler's loop run on a finite byte string. *)
Fixpoint feed (res : list Z) (bs : list Z) : list Z :=
  if (length res <? 256)%nat then
    match bs with
    | a :: b :: c :: rest => feed (sample_ntt_step res a b c) rest
    | _ => res
    end
  else res.

(** A stream over an extendable-output function: the digest function returns
    as many bytes as it is asked for, shorter digests are prefixes of longer
    ones, and the buffer holds a digest. *)
Record xof_stream (s : ShakeStream) : Prop := {
  xof_length : forall n, length (digest s n) = n;
  xof_prefix : forall n m, (n <= m)%nat -> digest s n = take n (digest s m);
  xof_bytes : forall n, Forall (fun b => 0 <= b < 256) (digest s n);
  xof_buf : buf s = digest s (length (buf s));
  xof_nonempty : (0 < length (buf s))%nat
}.

(** The weaker condition [read] needs to terminate. *)
Definition sized (s : ShakeStream) : Prop :=
  (forall n, length (digest s n) = n) /\ (0 < length (buf s))%nat.

(** The next [n] bytes of a stream. *)
Definition upcoming (s : ShakeStream) (n : nat) : list Z :=
  drop (offset s) (digest s (offset s + n)).

(** A digest function that only ever returns the byte 0xff. *)
Definition ff_stream : ShakeStream := init (fun n => replicate n 255).

(** Seeds of the demonstration at the end of src/mlkem.py:
    [b"SEED"*8], [b"RAND"*8] and [b"This is a demonstration message."]. *)
Definition demo_seed : list Z := concat (repeat [83; 69; 69; 68] 8).
Definition demo_rand : list Z := concat (repeat [82; 65; 78; 68] 8).
Definition demo_msg : list Z :=
  [84; 104; 105; 115; 32; 105; 115; 32; 97; 32; 100; 101; 109; 111; 110; 115;
   116; 114; 97; 116; 105; 111; 110; 32; 109; 101; 115; 115; 97; 103; 101; 46].

(** A stream whose first chunk yields one candidate and every later chunk
    two: slot 256 is filled by the first candidate of chunk 129. *)
Definition odd_stream : ShakeStream :=
  init (fun n => take n ([0; 240; 255] ++ concat (replicate n [1; 0; 0]))).

(** ** Vocabulary for the transform proofs *)

(** Congruence modulo q. *)
Definition eqQ (a b : Z) : Prop := a mod Q = b mod Q.

(** [x] is, entry by entry and modulo q, the combination [al * u + be * v]
    of two vectors of the same length [n]. *)
Definition lin3 (n : nat) (al be : Z) (x u v : list Z) : Prop :=
  length x = n /\ length u = n /\ length v = n /\
  forall i, (i < n)%nat -> eqQ (x !!! i) (al * u !!! i + be * v !!! i).

(** Entrywise congruence of two vectors of length [n]. *)
Definition eqv (n : nat) (x y : list Z) : Prop :=
  length x = n /\ length y = n /\ forall i, (i < n)%nat -> eqQ (x !!! i) (y !!! i).

(** A polynomial with every coefficient in [0, q). *)
Definition reduced (x : list Z) : Prop := Forall (fun c => 0 <= c < Q) x.

(** The monomial X^i as a coefficient vector of length [n], and its
    negation modulo q. *)
Definition basis (n i : nat) : list Z := <[i := 1]> (replicate n 0).
Definition neg_basis (n i : nat) : list Z := <[i := Q - 1]> (replicate n 0).

(** X^n reduced modulo X^256 + 1, for n < 512. *)
Definition monomial (n : nat) : list Z :=
  if (n <? 256)%nat then basis 256 n else neg_basis 256 (n - 256).

(** Powers modulo q, reduced at every step. *)
Fixpoint powQ (g : Z) (e : nat) : Z :=
  match e with
  | O => 1
  | S e' => (g * powQ g e') mod Q
  end.

(** The transform of X^n in closed form: modulo X^2 - GAMMA[i] the monomial
    X^n is GAMMA[i]^(n/2) for even n and GAMMA[i]^(n/2) X for odd n. *)
Definition mono_even (n i : nat) : Z := if Nat.even n then powQ (GAMMA !!! i) (n / 2) else 0.
Definition mono_odd (n i : nat) : Z := if Nat.even n then 0 else powQ (GAMMA !!! i) (n / 2).
Definition ntt_monomial (n : nat) : list Z :=
  flat_map (fun i => [mono_even n i; mono_odd n i]) (seq 0 128).

(** Multiplication by X in the transformed domain. *)
Definition mulX (y : list Z) : list Z :=
  flat_map (fun i => [(GAMMA !!! i * y !!! (2 * i + 1)%nat) mod Q; y !!! (2 * i)%nat])
           (seq 0 128).

(** Equality test on coefficient lists. *)
Definition list_eqb (a b : list Z) : bool := bool_decide (a = b).

(** [check_from P n count y]: [P (n + d)] holds of the d-th multiple of [y]
    by X, for every [d < count]. *)
Fixpoint check_from (P : nat -> list Z -> bool) (n count : nat) (y : list Z) : bool :=
  match count with
  | O => true
  | S c => P n y && check_from P (S n) c (mulX y)
  end.

(** The loops of the functions, past their length checks. *)
Definition ntt_mul_loop (a b : list Z) : list Z := fold_left (ntt_mul_step a b) (seq 0 128) [].

Definition slow_mul_loops (a b : list Z) : list Z :=
  let c := replicate 511 0 in
  let c := fold_left (fun c i =>
             fold_left (fun c j => slow_mul_step a b i j c) (seq 0 256) c)
             (seq 0 256) c in
  let c := fold_left (fun c i => slow_mul_reduce_step i c) (seq 0 255) c in
  take 256 c.

(** Every block of a layer lies inside the 256 coefficients. *)
Definition layer_ok (log2len : nat) : bool :=
  forallb (fun start => (start + 2 * 2 ^ log2len <=? 256)%nat)
          (range3 0 256 (2 * 2 ^ log2len)).

(** The loops of [ntt], as a function on coefficient lists. *)
Definition ntt_fun (f : list Z) : list Z := f_out (ntt_loops f).

(** The operands of the self-test at the end of src/mlkem.py:
    [list(range(256))] and [list(range(1024, 1024+256))]. *)
Definition demo_a : list Z := map Z.of_nat (seq 0 256).
Definition demo_b : list Z := map Z.of_nat (seq 1024 256).

(** ** The transforms, block by block

    What the loops of [ntt] and [ntt_inv] compute, written on the halves of
    each block instead of on indices; the proofs show that the loops
    compute these functions, and evaluate the transforms through them. *)

(** A block of a layer of [ntt], from its lower and upper half. *)
Definition ntt_block_halves (zeta : Z) (lo hi : list Z) : list Z :=
  zip_with (fun a b => (a + (zeta * b) mod Q) mod Q) lo hi
  ++ zip_with (fun a b => (a - (zeta * b) mod Q) mod Q) lo hi.

(** [n] consecutive blocks of a layer with half-length [len], the first
    one with [ZETA[k]]. *)
Fixpoint ntt_layer_blocks (len n k : nat) (f : list Z) : list Z :=
  match n with
  | O => f
  | S n' =>
      ntt_block_halves (ZETA !!! k) (take len f) (take len (drop len f))
      ++ ntt_layer_blocks len n' (S k) (drop (2 * len) f)
  end.

Definition ntt_blocks (f : list Z) : list Z :=
  fold_left (fun f l => ntt_layer_blocks (2 ^ l) (2 ^ (7 - l)) (2 ^ (7 - l)) f)
            [7; 6; 5; 4; 3; 2; 1]%nat f.

(** A block of a layer of [ntt_inv]. *)
Definition ntt_inv_block_halves (zeta : Z) (lo hi : list Z) : list Z :=
  zip_with (fun a b => (a + b) mod Q) lo hi
  ++ zip_with (fun a b => (zeta * (b - a)) mod Q) lo hi.

Fixpoint ntt_inv_layer_blocks (len n k : nat) (f : list Z) : list Z :=
  match n with
  | O => f
  | S n' =>
      ntt_inv_block_halves (ZETA !!! k) (take len f) (take len (drop len f))
      ++ ntt_inv_layer_blocks len n' (k - 1) (drop (2 * len) f)
  end.

Definition ntt_inv_blocks (f : list Z) : list Z :=
  map (fun x => (x * 3303) mod Q)
      (fold_left (fun f l => ntt_inv_layer_blocks (2 ^ l) (2 ^ (7 - l)) (2 ^ (8 - l) - 1) f)
                 (seq 1 7) f).

(** ** A worked key pair

    [mlkem_keygen(seed1=b"RAND"*8, seed2=b"SEED"*8)], then two
    encapsulations under the resulting key, with the seeds
    [b"This is a demonstration message."] and [b"SEED"*8]. *)

(** An entropy tape; the worked examples pass every seed explicitly and
    never read it. *)
Definition demo_tape : entropy := fun _ => 0.

(** The loops of the worked examples get this much fuel. *)
Definition demo_fuel : nat := 1000.

Definition demo_keys :=
  Eval vm_compute in
    match fst (mlkem_keygen demo_fuel (Some demo_rand) (Some demo_seed) demo_tape) with
    | Done keys => keys
    | _ => ([], [])
    end.

Definition demo_ek : list Z := Eval vm_compute in fst demo_keys.
Definition demo_dk : list Z := Eval vm_compute in snd demo_keys.

Definition demo_encaps1 :=
  Eval vm_compute in
    match fst (mlkem_encaps demo_fuel demo_ek (Some demo_msg) demo_tape) with
    | Done kc => kc
    | _ => ([], [])
    end.

Definition demo_k1 : list Z := Eval vm_compute in fst demo_encaps1.
Definition demo_c1 : list Z := Eval vm_compute in snd demo_encaps1.

Definition demo_encaps2 :=
  Eval vm_compute in
    match fst (mlkem_encaps demo_fuel demo_ek (Some demo_seed) demo_tape) with
    | Done kc => kc
    | _ => ([], [])
    end.

Definition demo_k2 : list Z := Eval vm_compute in fst demo_encaps2.
Definition demo_c2 : list Z := Eval vm_compute in snd demo_encaps2.

(** The seed [rho] of the worked key pair and the grid [ahat] built from it. *)
Definition demo_rho : list Z := Eval vm_compute in take 32 (mlkem_hash_G demo_seed).

Definition demo_ahat :=
  Eval vm_compute in
    match sample_ahat demo_fuel demo_rho with
    | Done A => A
    | _ => []
    end.

(** A ciphertext nobody encapsulated. *)
Definition zero_ct : list Z := replicate 1088 0.

(** ** Vocabulary for the byte codec *)

(** The low [d] bits of [w], least significant first:
    [(w >> i) & 1 for i in range(d)], the inner loop of [byte_encode] and
    of [bytes_to_bits]. *)
Definition bits_of (d : nat) (w : Z) : list Z :=
  map (fun i => Z.land (Z.shiftr w (Z.of_nat i)) 1) (seq 0 d).

(** The number a list of bits spells, least significant first. *)
Fixpoint bits_val (l : list Z) : Z :=
  match l with
  | [] => 0
  | b :: l' => b + 2 * bits_val l'
  end.

(** ** Successive reads

    [a.read(n1) + a.read(n2) + ...] as in the self-test of
    src/shakestream.py: the reads are made left to right on the same
    stream and their results are concatenated. *)
Fixpoint reads (fuel : nat) (ns : list nat) (s : ShakeStream)
  : outcome (list Z * ShakeStream) :=
  match ns with
  | [] => Done ([], s)
  | n :: ns' =>
      '(bs, s') ← read fuel n s;
      '(rest, s'') ← reads fuel ns' s';
      Done (bs ++ rest, s'')
  end.

(** [b"hello"] *)
Definition hello : list Z := [104; 101; 108; 108; 111].

(** ** The centred coefficients

    [x mod Q] for an integer [x] with [|x| <= eta]: what a coefficient of
    [sample_poly_cbd] can be. *)
Definition small_mod_q (eta : nat) (c : Z) : Prop :=
  0 <= c <= Z.of_nat eta \/ Q - Z.of_nat eta <= c < Q.

(** Distance of two residues modulo q, the shorter way round. *)
Definition dist_q (x y : Z) : Z := Z.min ((x - y) mod Q) ((y - x) mod Q).

(** [n] consecutive runs of [size] entries. *)
Fixpoint chunks {B : Type} (size n : nat) (l : list B) : list (list B) :=
  match n with
  | O => []
  | S n' => take size l :: chunks size n' (drop size l)
  end.

(** ** What the codec, the samplers and K-PKE return

    The functions below give, without indices and without failure, the
    values that the functions of src/mlkem.py return on inputs of the right
    sizes; the proofs show that the code returns these values, and evaluate
    the worked examples through them. *)

(** The bytes of [byte_encode(d, f)]. *)
Definition encode_bytes (d : nat) (f : list Z) : list Z :=
  map bits_val (chunks 8 (32 * d) (flat_map (bits_of d) f)).

(** The coefficients of [byte_decode(d, data)]. *)
Definition decode_poly (d : nat) (data : list Z) : list Z :=
  map bits_val (chunks d 256 (bytes_to_bits data)).

(** The coefficients of [sample_poly_cbd(eta, data)]. *)
Definition cbd_poly (eta : nat) (data : list Z) : list Z :=
  let bits := bytes_to_bits data in
  map (fun i => (sum_bits bits (2 * i * eta) eta
                 - sum_bits bits (2 * i * eta + eta) eta) mod Q) (seq 0 256).

(** The coefficients [sample_ntt] returns on a stream whose first [n]
    bytes are [bytes], when these hold 256 candidates below q. *)
Definition sample_of_bytes (bytes : list Z) : option (list Z) :=
  let a := accepted bytes in
  if (256 <=? length a)%nat then Some (take 256 a) else None.

(** The grid [ahat] from the first [n] bytes of each of the nine streams. *)
Definition ahat_of_bytes (n : nat) (rho : list Z) : option (list (list (list Z))) :=
  mapM (fun i => mapM (fun j => sample_of_bytes
                                 (hashlib.shake_128 (rho ++ [byte_of_nat i; byte_of_nat j]) n))
                      (seq 0 K))
       (seq 0 K).

(** [reduce(ntt_add, l)] on a list that is not empty. *)
Definition reduce_add (l : list (list Z)) : list Z :=
  match l with
  | [] => []
  | x :: l' => fold_left ntt_add l' x
  end.

Definition kpke_keygen_value (ahat : list (list (list Z))) (d : list Z) : list Z * list Z :=
  let ghash := mlkem_hash_G d in
  let rho := take 32 ghash in
  let sigma := drop 32 ghash in
  let shat := map (fun i => ntt_blocks (cbd_poly ETA1 (mlkem_prf ETA1 sigma i))) (seq 0 K) in
  let ehat := map (fun i => ntt_blocks (cbd_poly ETA1 (mlkem_prf ETA1 sigma (i + K))))
                  (seq 0 K) in
  let that := map (fun i =>
                     reduce_add (map (fun j => ntt_mul_loop ((ahat !!! j) !!! i) (shat !!! j))
                                     (seq 0 K) ++ [ehat !!! i]))
                  (seq 0 K) in
  (concat (map (encode_bytes 12) that) ++ rho, concat (map (encode_bytes 12) shat)).

Definition kpke_encrypt_value (ahat : list (list (list Z))) (ek_pke m r : list Z) : list Z :=
  let that := map (fun i => decode_poly 12 (slice (i * 128 * K) ((i + 1) * 128 * K) ek_pke))
                  (seq 0 K) in
  let rhat := map (fun i => ntt_blocks (cbd_poly ETA1 (mlkem_prf ETA1 r i))) (seq 0 K) in
  let e1 := map (fun i => cbd_poly ETA2 (mlkem_prf ETA2 r (i + K))) (seq 0 K) in
  let e2 := cbd_poly ETA2 (mlkem_prf ETA2 r (2 * K)) in
  let u := map (fun i =>
                  poly256_add
                    (ntt_inv_blocks
                       (reduce_add (map (fun j => ntt_mul_loop ((ahat !!! i) !!! j) (rhat !!! j))
                                        (seq 0 K))))
                    (e1 !!! i))
               (seq 0 K) in
  let mu := decompress 1 (decode_poly 1 m) in
  let v := poly256_add
             (ntt_inv_blocks
                (reduce_add (map (fun i => ntt_mul_loop (that !!! i) (rhat !!! i)) (seq 0 K))))
             (poly256_add e2 mu) in
  concat (map (fun i => encode_bytes DU (compress DU (u !!! i))) (seq 0 K))
  ++ encode_bytes DV (compress DV v).

Definition kpke_decrypt_value (dk_pke c : list Z) : list Z :=
  let c1 := take (32 * DU * K) c in
  let c2 := drop (32 * DU * K) c in
  let u := map (fun i => decompress DU
                           (decode_poly DU (slice (i * 32 * DU) ((i + 1) * 32 * DU) c1)))
               (seq 0 K) in
  let v := decompress DV (decode_poly DV c2) in
  let shat := map (fun i => decode_poly 12 (slice (i * 384) ((i + 1) * 384) dk_pke))
                  (seq 0 K) in
  let w := poly256_sub v
             (ntt_inv_blocks
                (reduce_add (map (fun i => ntt_mul_loop (shat !!! i) (ntt_blocks (u !!! i)))
                                 (seq 0 K)))) in
  encode_bytes 1 (compress 1 w).

(** ** Auxiliary definitions of the proofs *)

Definition ctl (s : ntt_state) : nat * list nat := (k s, zeta_reads s).

Definition st_lin3 (al be : Z) (sx su sv : ntt_state) : Prop :=
  k su = k sx /\ k sv = k sx /\ lin3 256 al be (f_out sx) (f_out su) (f_out sv).

Definition ntt_mul_even (a b : list Z) (i : nat) : Z :=
  (a !!! (2 * i)%nat * b !!! (2 * i)%nat
   + a !!! (2 * i + 1)%nat * b !!! (2 * i + 1)%nat * GAMMA !!! i) mod Q.

Definition ntt_mul_odd (a b : list Z) (i : nat) : Z :=
  (a !!! (2 * i)%nat * b !!! (2 * i + 1)%nat
   + a !!! (2 * i + 1)%nat * b !!! (2 * i)%nat) mod Q.

Definition tailz (k : nat) (x : list Z) : list Z := replicate k 0 ++ drop k x.

Definition ntt_product (a b : list Z) : list Z :=
  ntt_inv_loops (ntt_mul_loop (ntt_fun a) (ntt_fun b)).

(** [P] holds of [z], [z + 1], ..., [z + n - 1]. *)
Fixpoint all_from (n : nat) (z : Z) (P : Z -> bool) : bool :=
  match n with
  | O => true
  | S n' => P z && all_from n' (z + 1) P
  end.

Definition all_below (n : nat) (P : Z -> bool) : bool := all_from n 0 P.

(** * Properties *)

(** * Compression *)

Lemma round_half_up_frac (a : Z) (p : positive) :
  test_compress.round_half_up (Qmake a p) = (a * 2 + Z.pos p) / (Z.pos p * 2).
Proof.
  unfold test_compress.round_half_up, Qplus, Qfloor. simpl Qnum. simpl Qden.
  rewrite Z.mul_1_l. reflexivity.
Qed.

Lemma compress_formula_eq (a : Z) : (a + 1664) / 3329 = (a * 2 + 3329) / 6658.
Proof.
  pose proof (Z.div_mod (a + 1664) 3329 ltac:(lia)) as H1.
  pose proof (Z.mod_pos_bound (a + 1664) 3329 ltac:(lia)) as H2.
  apply (Z.div_unique _ _ _ (2 * ((a + 1664) mod 3329) + 1)); lia.
Qed.

(** C6.  For every d in [1, 12] and every x in [0, 3329), what [compress]
    computes for the coefficient x, ((x * 2^d + 1664) // 3329) mod 2^d, is
    the round-half-up of the exact fraction 2^d * x / 3329, taken mod 2^d,
    as [compress_proper] of src/test_compress.py computes it. *)
Theorem compress_closed_form (d : nat) (x : Z) :
  (1 <= d <= 12)%nat -> 0 <= x < 3329 ->
  compress d [x] = [test_compress.compress_proper d x]
  /\ compress d [x] = [((x * 2 ^ Z.of_nat d + 1664) / 3329) mod 2 ^ Z.of_nat d].
Proof.
  intros _ _. unfold compress, test_compress.compress_proper. simpl map.
  rewrite round_half_up_frac. change (Q / 2) with 1664. change Q with 3329.
  change (Z.pos 3329 * 2) with 6658.
  rewrite (Z.mul_comm (2 ^ Z.of_nat d) x), <- compress_formula_eq. split; reflexivity.
Qed.

Lemma compress_closed_form_witness :
  compress 1 [1664] = [test_compress.compress_proper 1 1664]
  /\ compress 1 [1664] = [((1664 * 2 ^ Z.of_nat 1 + 1664) / 3329) mod 2 ^ Z.of_nat 1].
Proof. apply (compress_closed_form 1 1664); lia. Defined.

(** * The ZETA counter of the forward transform *)

Lemma ntt_block_ctl len s start :
  ctl (ntt_block len s start) = ((k s + 1)%nat, zeta_reads s ++ [k s]).
Proof. reflexivity. Qed.

Lemma ntt_blocks_ctl len starts s :
  ctl (fold_left (ntt_block len) starts s)
  = ((k s + length starts)%nat, zeta_reads s ++ seq (k s) (length starts)).
Proof.
  revert s. induction starts as [|st starts IH]; intros s; simpl.
  - unfold ctl. rewrite Nat.add_0_r, app_nil_r. reflexivity.
  - rewrite IH. simpl. rewrite <- app_assoc. simpl.
    f_equal; [lia|]. do 2 f_equal. f_equal. lia.
Qed.

Lemma ntt_layer_ctl s1 s2 l :
  ctl s1 = ctl s2 -> ctl (ntt_layer s1 l) = ctl (ntt_layer s2 l).
Proof.
  intros H. unfold ntt_layer. rewrite !ntt_blocks_ctl.
  unfold ctl in H. injection H as -> ->. reflexivity.
Qed.

Lemma ntt_layers_ctl layers s1 s2 :
  ctl s1 = ctl s2 ->
  ctl (fold_left ntt_layer layers s1) = ctl (fold_left ntt_layer layers s2).
Proof.
  revert s1 s2. induction layers as [|l layers IH]; intros s1 s2 H; simpl; [exact H|].
  apply IH, ntt_layer_ctl, H.
Qed.

(** C8, amended.  The counter k of the forward transform starts at 1; over
    the seven layers the loops read the 127 table entries ZETA[1], ...,
    ZETA[127], one per block, and the counter ends at 128. *)
Theorem ntt_zeta_counter (f : list Z) :
  hd_error (zeta_reads (ntt_loops f)) = Some 1%nat
  /\ zeta_reads (ntt_loops f) = seq 1 127
  /\ length (zeta_reads (ntt_loops f)) = 127%nat
  /\ k (ntt_loops f) = 128%nat.
Proof.
  assert (H : ctl (ntt_loops f) = (128%nat, seq 1 127)).
  { unfold ntt_loops.
    rewrite (ntt_layers_ctl _ {| f_out := f; k := 1; zeta_reads := [] |}
               {| f_out := []; k := 1; zeta_reads := [] |} eq_refl).
    vm_compute. reflexivity. }
  revert H. generalize (ntt_loops f). intros [fo ko zr] H.
  unfold ctl in H. cbn [k zeta_reads] in *. injection H as -> ->. repeat split.
Qed.

(** The transform does not read 128 table entries: on the zero polynomial
    the number of reads is not 128. *)
Lemma ntt_zeta_counter_not_128 :
  ~ (length (zeta_reads (ntt_loops (repeat 0 256))) = 128%nat
     /\ k (ntt_loops (repeat 0 256)) = 128%nat).
Proof. vm_compute. intros [H _]. discriminate H. Qed.

(** * Digest lengths and the prefix property of the sponge *)
Section hashlib_facts.
Import hashlib.

Lemma length_flat_map_const {A B : Type} (f : A -> list B) (n : nat) (l : list A) :
  (forall x, length (f x) = n) -> length (flat_map f l) = (length l * n)%nat.
Proof.
  intros Hf. induction l as [|x l IH]; simpl; [reflexivity|].
  rewrite length_app, Hf, IH. reflexivity.
Qed.

Lemma length_state_bytes st : length (state_bytes st) = 200%nat.
Proof.
  unfold state_bytes. rewrite (length_flat_map_const _ 8%nat); [reflexivity|].
  intros x. reflexivity.
Qed.

Lemma squeeze_S rate n st :
  squeeze rate (S n) st = take rate (state_bytes st) ++ squeeze rate n (keccak_f st).
Proof. destruct n; reflexivity. Qed.

Lemma length_squeeze rate n st :
  (rate <= 200)%nat -> length (squeeze rate n st) = (n * rate)%nat.
Proof.
  intros Hr. revert st. induction n as [|n IH]; intros st; [reflexivity|].
  rewrite squeeze_S, length_app, IH, length_take, length_state_bytes. lia.
Qed.

Lemma squeeze_app rate n m st :
  exists tl, squeeze rate (n + m) st = squeeze rate n st ++ tl.
Proof.
  revert st. induction n as [|n IH]; intros st.
  - exists (squeeze rate m st). reflexivity.
  - destruct (IH (keccak_f st)) as [tl Htl]. exists tl.
    change (S n + m)%nat with (S (n + m)). rewrite !squeeze_S, Htl, app_assoc. reflexivity.
Qed.

Lemma ceil_div_ge n rate : (0 < rate)%nat -> (n <= (n + rate - 1) / rate * rate)%nat.
Proof.
  intros Hr. pose proof (Nat.div_mod_eq (n + rate - 1) rate) as H.
  pose proof (Nat.mod_upper_bound (n + rate - 1) rate ltac:(lia)) as H'. nia.
Qed.

Lemma ceil_div_mono n m rate :
  (0 < rate)%nat -> (n <= m)%nat -> ((n + rate - 1) / rate <= (m + rate - 1) / rate)%nat.
Proof. intros Hr H. apply Nat.Div0.div_le_mono. lia. Qed.

Lemma length_keccak rate suffix msg n :
  (0 < rate <= 200)%nat -> length (keccak rate suffix msg n) = n.
Proof.
  intros Hr. unfold keccak. rewrite length_take, length_squeeze by lia.
  pose proof (ceil_div_ge n rate ltac:(lia)). lia.
Qed.

Lemma keccak_prefix rate suffix msg n m :
  (0 < rate <= 200)%nat -> (n <= m)%nat ->
  keccak rate suffix msg n = take n (keccak rate suffix msg m).
Proof.
  intros Hr Hnm. unfold keccak.
  set (st := absorb rate _ _ _).
  pose proof (ceil_div_mono n m rate ltac:(lia) Hnm) as Hc.
  pose proof (ceil_div_ge n rate ltac:(lia)) as Hn.
  destruct (squeeze_app rate ((n + rate - 1) / rate)
              ((m + rate - 1) / rate - (n + rate - 1) / rate) st) as [tl Htl].
  replace ((n + rate - 1) / rate + ((m + rate - 1) / rate - (n + rate - 1) / rate))%nat
    with ((m + rate - 1) / rate)%nat in Htl by lia.
  rewrite Htl, take_take, Nat.min_l by lia.
  rewrite take_app_le; [reflexivity|]. rewrite length_squeeze by lia. exact Hn.
Qed.

Lemma length_sha3_256 m : length (sha3_256 m) = 32%nat.
Proof. apply length_keccak. lia. Qed.

Lemma length_sha3_512 m : length (sha3_512 m) = 64%nat.
Proof. apply length_keccak. lia. Qed.

Lemma length_shake_128 m n : length (shake_128 m n) = n.
Proof. apply length_keccak. lia. Qed.

Lemma length_shake_256 m n : length (shake_256 m n) = n.
Proof. apply length_keccak. lia. Qed.

Lemma shake_128_prefix msg n m :
  (n <= m)%nat -> shake_128 msg n = take n (shake_128 msg m).
Proof. apply keccak_prefix. lia. Qed.

(** The digests FIPS 202 and its example values publish. *)

(** SHA3-256 of the empty message. *)
Example sha3_256_empty :
  sha3_256 [] =
    [167; 255; 198; 248; 191; 30; 215; 102; 81; 193; 71; 86; 160; 97; 214; 98; 245; 128;
     255; 77; 228; 59; 73; 250; 130; 216; 10; 75; 128; 248; 67; 74].
Proof. vm_compute. reflexivity. Qed.

(** SHA3-256 of [b"abc"]. *)
Example sha3_256_abc :
  sha3_256 [97; 98; 99] =
    [58; 152; 93; 167; 79; 226; 37; 178; 4; 92; 23; 45; 107; 211; 144; 189; 133; 95; 8;
     110; 62; 157; 82; 91; 70; 191; 226; 69; 17; 67; 21; 50].
Proof. vm_compute. reflexivity. Qed.

(** SHA3-512 of the empty message. *)
Example sha3_512_empty :
  sha3_512 [] =
    [166; 159; 115; 204; 162; 58; 154; 197; 200; 181; 103; 220; 24; 90; 117; 110; 151; 201;
     130; 22; 79; 226; 88; 89; 224; 209; 220; 193; 71; 92; 128; 166; 21; 178; 18; 58; 241;
     245; 249; 76; 17; 227; 233; 64; 44; 58; 197; 88; 245; 0; 25; 157; 149; 182; 211; 227;
     1; 117; 133; 134; 40; 29; 205; 38].
Proof. vm_compute. reflexivity. Qed.

(** SHAKE128 of the empty message, 32 bytes. *)
Example shake_128_empty :
  shake_128 [] 32 =
    [127; 156; 43; 164; 232; 143; 130; 125; 97; 96; 69; 80; 118; 5; 133; 62; 215; 59; 128;
     147; 246; 239; 188; 136; 235; 26; 110; 172; 250; 102; 239; 38].
Proof. vm_compute. reflexivity. Qed.

(** SHAKE256 of the empty message, 32 bytes. *)
Example shake_256_empty :
  shake_256 [] 32 =
    [70; 185; 221; 43; 11; 168; 141; 19; 35; 59; 63; 235; 116; 62; 235; 36; 63; 205; 82;
     234; 98; 184; 27; 130; 181; 12; 39; 100; 110; 213; 118; 47].
Proof. vm_compute. reflexivity. Qed.

End hashlib_facts.

(** * ShakeStream.read *)

Lemma grow_spec fuel n s :
  sized s ->
  match grow fuel n s with
  | Done s' =>
      digest s' = digest s /\ offset s' = offset s
      /\ (offset s + n <= length (buf s'))%nat
      /\ (buf s' = buf s \/ buf s' = digest s (length (buf s')))
      /\ sized s'
  | Raised => False
  | OutOfFuel => (length (buf s) + fuel < offset s + n)%nat
  end.
Proof.
  revert s. induction fuel as [|fuel IH]; intros s [Hlen Hne]; simpl.
  - destruct (Nat.ltb_spec (length (buf s)) (offset s + n)); [lia|].
    repeat split; auto.
  - destruct (Nat.ltb_spec (length (buf s)) (offset s + n)).
    + set (s1 := {| digest := digest s; buf := digest s (length (buf s) * 2);
                    offset := offset s |}).
      assert (Hs1 : sized s1).
      { split; simpl; [exact Hlen|]. rewrite Hlen. lia. }
      specialize (IH s1 Hs1). destruct (grow fuel n s1) as [s'| |]; [|exact IH|].
      * destruct IH as (Hd & Ho & Hl & Hb & Hs). simpl in *. repeat split; auto; try apply Hs.
        destruct Hb as [Hb|Hb]; right; [|exact Hb]. rewrite Hb, Hlen. reflexivity.
      * simpl in IH. rewrite Hlen in IH. lia.
    + repeat split; auto.
Qed.

Lemma read_spec fuel n s :
  sized s ->
  match read fuel n s with
  | Done (bs, s') =>
      length bs = n
      /\ digest s' = digest s /\ offset s' = (offset s + n)%nat
      /\ bs = slice (offset s) (offset s + n) (buf s')
      /\ (buf s' = buf s \/ buf s' = digest s (length (buf s')))
      /\ (offset s + n <= length (buf s'))%nat
      /\ sized s'
  | Raised => False
  | OutOfFuel => (length (buf s) + fuel < offset s + n)%nat
  end.
Proof.
  intros Hs. pose proof (grow_spec fuel n s Hs) as Hg. unfold read.
  destruct (grow fuel n s) as [s'| |]; simpl; [|exact Hg|exact Hg].
  destruct Hg as (Hd & Ho & Hl & Hb & Hs'). rewrite Ho.
  repeat split; auto; try apply Hs'.
  unfold slice. rewrite length_take, length_drop. lia.
Qed.

Lemma xof_stream_sized s : xof_stream s -> sized s.
Proof. intros H. split; [apply (xof_length s H)|apply (xof_nonempty s H)]. Qed.

Lemma read_xof_spec fuel n s :
  xof_stream s ->
  match read fuel n s with
  | Done (bs, s') =>
      bs = upcoming s n /\ xof_stream s'
      /\ digest s' = digest s /\ offset s' = (offset s + n)%nat
  | Raised => False
  | OutOfFuel => (length (buf s) + fuel < offset s + n)%nat
  end.
Proof.
  intros Hx. pose proof (read_spec fuel n s (xof_stream_sized s Hx)) as Hr.
  destruct (read fuel n s) as [[bs s']| |]; [|exact Hr|exact Hr].
  destruct Hr as (Hlen & Hd & Ho & Hbs & Hb & Hl & Hs').
  assert (Hbuf : buf s' = digest s (length (buf s'))).
  { destruct Hb as [Hb|Hb]; [|exact Hb]. rewrite Hb. apply (xof_buf s Hx). }
  split; [|split; [|auto]].
  - rewrite Hbs. unfold slice, upcoming.
    replace (offset s + n - offset s)%nat with n by lia.
    rewrite Hbuf, (xof_prefix s Hx (offset s + n) (length (buf s'))) by exact Hl.
    rewrite take_drop_commute. reflexivity.
  - destruct Hx as [H1 H2 H3 H4 H5]. destruct Hs' as [H6 H7].
    split; rewrite ?Hd; auto.
Qed.

Lemma length_upcoming s n : xof_stream s -> length (upcoming s n) = n.
Proof. intros Hx. unfold upcoming. rewrite length_drop, (xof_length s Hx). lia. Qed.

Lemma upcoming_app s s' n m :
  xof_stream s -> digest s' = digest s -> offset s' = (offset s + n)%nat ->
  upcoming s (n + m) = upcoming s n ++ upcoming s' m.
Proof.
  intros Hx Hd Ho. unfold upcoming. rewrite Hd, Ho.
  rewrite (xof_prefix s Hx (offset s + n) (offset s + n + m)) by lia.
  replace (offset s + (n + m))%nat with (offset s + n + m)%nat by lia.
  set (X := digest s (offset s + n + m)).
  rewrite <- (take_drop (offset s + n) X) at 1.
  rewrite drop_app_le; [reflexivity|].
  rewrite length_take. unfold X. rewrite (xof_length s Hx). lia.
Qed.

(** * The rejection sampler *)

Lemma sample_ntt_loop_eq rfuel fuel xof res :
  sample_ntt_loop rfuel fuel xof res =
  if (length res <? 256)%nat then
    match fuel with
    | O => OutOfFuel
    | S fuel' =>
        '(chunk, xof') ← read rfuel 3 xof;
        match chunk with
        | [a; b; c] => sample_ntt_loop rfuel fuel' xof' (sample_ntt_step res a b c)
        | _ => Raised
        end
    end
  else Done res.
Proof. destruct fuel; reflexivity. Qed.

Lemma sample_ntt_step_take res a b c :
  (length res < 256)%nat ->
  sample_ntt_step res a b c = take 256 (res ++ accepted_chunk a b c).
Proof.
  intros Hl. unfold sample_ntt_step, accepted_chunk.
  fold (cand1 a b). fold (cand2 b c).
  destruct (cand1 a b <? Q); destruct (cand2 b c <? Q); cbn [andb app];
    rewrite ?app_nil_r.
  - rewrite length_app. cbn [length].
    destruct (Nat.ltb_spec (length res + 1) 256) as [H|H].
    + rewrite <- app_assoc. symmetry. apply take_ge. rewrite !length_app. simpl. lia.
    + change [cand1 a b; cand2 b c] with ([cand1 a b] ++ [cand2 b c]).
      rewrite app_assoc, take_app_le by (rewrite length_app; simpl; lia).
      symmetry. apply take_ge. rewrite length_app. simpl. lia.
  - symmetry. apply take_ge. rewrite length_app. simpl. lia.
  - destruct (Nat.ltb_spec (length res) 256) as [H|H]; [|lia].
    symmetry. apply take_ge. rewrite length_app. simpl. lia.
  - symmetry. apply take_ge. lia.
Qed.

Lemma length_sample_ntt_step res a b c :
  (length res < 256)%nat -> (length (sample_ntt_step res a b c) <= 256)%nat.
Proof. intros H. rewrite sample_ntt_step_take by exact H. rewrite length_take. lia. Qed.

Lemma feed_eq res bs :
  feed res bs =
  if (length res <? 256)%nat then
    match bs with
    | a :: b :: c :: rest => feed (sample_ntt_step res a b c) rest
    | _ => res
    end
  else res.
Proof. destruct bs; reflexivity. Qed.

Lemma feed_accepted_aux n : forall bs res,
  (length bs <= n)%nat -> (length res <= 256)%nat ->
  feed res bs = take 256 (res ++ accepted bs).
Proof.
  induction n as [|n IH]; intros bs res Hn Hres; rewrite feed_eq.
  - destruct bs; [|simpl in Hn; lia]. simpl. rewrite app_nil_r.
    destruct (_ <? _)%nat; symmetry; apply take_ge; lia.
  - destruct (Nat.ltb_spec (length res) 256) as [Hlt|Hge].
    + destruct bs as [|a [|b [|c rest]]]; simpl accepted; rewrite ?app_nil_r;
        try (symmetry; apply take_ge; lia).
      rewrite IH; [|simpl in Hn; lia|apply length_sample_ntt_step, Hlt].
      rewrite sample_ntt_step_take by exact Hlt.
      rewrite app_assoc. generalize dependent (res ++ accepted_chunk a b c). intros X.
      rewrite <- (take_drop 256 X) at 2.
      rewrite <- app_assoc.
      destruct (Nat.le_gt_cases 256 (length X)) as [Hc|Hc].
      * rewrite !take_app_le by (rewrite ?length_take; lia).
        rewrite take_take. reflexivity.
      * rewrite (drop_ge X) by lia. reflexivity.
    + rewrite take_app_le by lia. symmetry. apply take_ge. lia.
Qed.

Lemma feed_accepted bs : feed [] bs = take 256 (accepted bs).
Proof. apply (feed_accepted_aux (length bs)); simpl; lia. Qed.

Lemma upcoming_0 s : xof_stream s -> upcoming s 0 = [].
Proof.
  intros Hx. apply nil_length_inv. rewrite length_upcoming by exact Hx. reflexivity.
Qed.

Lemma upcoming_chunk s :
  xof_stream s -> exists a b c, upcoming s 3 = [a; b; c].
Proof.
  intros Hx. pose proof (length_upcoming s 3 Hx) as H.
  destruct (upcoming s 3) as [|a [|b [|c [|]]]]; try discriminate H. eauto.
Qed.

(** With enough fuel the sampler's loop on a stream is [feed] on the
    stream's upcoming bytes. *)
Lemma sample_ntt_loop_feed m : forall s res rfuel fuel,
  xof_stream s -> (offset s + 3 * m <= rfuel)%nat -> (m <= fuel)%nat ->
  (length res <= 256)%nat ->
  (256 <= length (feed res (upcoming s (3 * m))))%nat ->
  sample_ntt_loop rfuel fuel s res = Done (feed res (upcoming s (3 * m))).
Proof.
  induction m as [|m IH]; intros s res rfuel fuel Hx Hrf Hf Hres Hfull;
    rewrite sample_ntt_loop_eq; rewrite feed_eq in Hfull |- *;
    destruct (Nat.ltb_spec (length res) 256) as [Hlt|Hge]; try reflexivity.
  - change (3 * 0)%nat with 0%nat in *. rewrite upcoming_0 in Hfull by exact Hx. lia.
  - destruct fuel as [|fuel]; [lia|].
    pose proof (read_xof_spec rfuel 3 s Hx) as Hr.
    destruct (read rfuel 3 s) as [[bs s']| |]; [|destruct Hr|].
    2:{ pose proof (xof_nonempty s Hx). lia. }
    destruct Hr as (-> & Hx' & Hd & Ho).
    replace (3 * S m)%nat with (3 + 3 * m)%nat in * by lia.
    rewrite (upcoming_app s s' 3 (3 * m) Hx Hd Ho) in Hfull |- *.
    destruct (upcoming_chunk s Hx) as (a & b & c & Hc). rewrite Hc in Hfull |- *.
    cbn [mbind outcome_bind app] in Hfull |- *.
    apply IH.
    + exact Hx'.
    + lia.
    + lia.
    + apply length_sample_ntt_step, Hlt.
    + exact Hfull.
Qed.

(** Without 256 accepted candidates ahead, the loop uses up any fuel. *)
Lemma sample_ntt_loop_starved fuel : forall s res rfuel,
  xof_stream s ->
  (forall m, (length (feed res (upcoming s (3 * m))) < 256)%nat) ->
  sample_ntt_loop rfuel fuel s res = OutOfFuel.
Proof.
  induction fuel as [|fuel IH]; intros s res rfuel Hx Hst; rewrite sample_ntt_loop_eq.
  - specialize (Hst 0%nat). rewrite feed_eq in Hst.
    destruct (Nat.ltb_spec (length res) 256); [reflexivity|].
    destruct (upcoming s (3 * 0)) as [|? [|? [|]]]; lia.
  - assert (Hlt : (length res < 256)%nat).
    { specialize (Hst 0%nat). rewrite feed_eq in Hst.
      destruct (Nat.ltb_spec (length res) 256); [assumption|].
      destruct (upcoming s (3 * 0)) as [|? [|? [|]]]; lia. }
    destruct (Nat.ltb_spec (length res) 256); [|lia].
    pose proof (read_xof_spec rfuel 3 s Hx) as Hr.
    destruct (read rfuel 3 s) as [[bs s']| |]; [|destruct Hr|reflexivity].
    destruct Hr as (-> & Hx' & Hd & Ho).
    destruct (upcoming_chunk s Hx) as (a & b & c & Hc). rewrite Hc.
    cbn [mbind outcome_bind].
    apply IH; [exact Hx'|]. intros m. specialize (Hst (S m)).
    replace (3 * S m)%nat with (3 + 3 * m)%nat in Hst by lia.
    rewrite (upcoming_app s s' 3 (3 * m) Hx Hd Ho), Hc in Hst.
    cbn [app] in Hst. rewrite feed_eq in Hst.
    destruct (Nat.ltb_spec (length res) 256); [exact Hst|lia].
Qed.

Lemma cand1_range a b : 0 <= a -> 0 <= cand1 a b.
Proof.
  intros Ha. unfold cand1. apply Z.lor_nonneg. split; [|exact Ha].
  apply Z.shiftl_nonneg, Z.land_nonneg. right. lia.
Qed.

Lemma cand2_range b c : 0 <= b -> 0 <= c -> 0 <= cand2 b c.
Proof.
  intros Hb Hc. unfold cand2. apply Z.lor_nonneg. split.
  - apply Z.shiftl_nonneg, Hc.
  - apply Z.shiftr_nonneg, Hb.
Qed.

Lemma accepted_chunk_range a b c :
  0 <= a -> 0 <= b -> 0 <= c -> Forall (fun x => 0 <= x < Q) (accepted_chunk a b c).
Proof.
  intros Ha Hb Hc. unfold accepted_chunk. apply Forall_app. split.
  - destruct (Z.ltb_spec (cand1 a b) Q); constructor; [|constructor].
    split; [apply cand1_range, Ha|assumption].
  - destruct (Z.ltb_spec (cand2 b c) Q); constructor; [|constructor].
    split; [apply cand2_range; assumption|assumption].
Qed.

Lemma accepted_range_aux n : forall bs,
  (length bs <= n)%nat -> Forall (fun b => 0 <= b < 256) bs ->
  Forall (fun x => 0 <= x < Q) (accepted bs).
Proof.
  induction n as [|n IH]; intros bs Hn Hb.
  - destruct bs; [constructor|simpl in Hn; lia].
  - destruct bs as [|a [|b [|c rest]]]; try constructor.
    simpl. inversion Hb as [|? ? Ha Hb1]; subst.
    inversion Hb1 as [|? ? Hb' Hb2]; subst. inversion Hb2 as [|? ? Hc Hb3]; subst.
    apply Forall_app. split.
    + apply accepted_chunk_range; lia.
    + apply IH; [simpl in Hn; lia|exact Hb3].
Qed.

Lemma accepted_range bs :
  Forall (fun b => 0 <= b < 256) bs -> Forall (fun x => 0 <= x < Q) (accepted bs).
Proof. apply (accepted_range_aux (length bs)). lia. Qed.

Lemma upcoming_bytes s n : xof_stream s -> Forall (fun b => 0 <= b < 256) (upcoming s n).
Proof. intros Hx. unfold upcoming. apply Forall_drop, (xof_bytes s Hx). Qed.

Lemma accepted_app_chunks pre post :
  (length pre mod 3 = 0)%nat -> accepted (pre ++ post) = accepted pre ++ accepted post.
Proof.
  remember (length pre) as n eqn:Hn. revert pre Hn.
  induction n as [n IH] using lt_wf_ind. intros pre Hn Hmod.
  destruct pre as [|a [|b [|c rest]]]; simpl in Hn; subst n; try reflexivity;
    try (cbn in Hmod; discriminate Hmod).
  cbn [app accepted]. rewrite <- app_assoc. f_equal.
  apply (IH (length rest)); [lia|reflexivity|].
  replace (S (S (S (length rest)))) with (length rest + 1 * 3)%nat in Hmod by lia.
  rewrite Nat.Div0.mod_add in Hmod. exact Hmod.
Qed.

(** * Streams that are XOF streams *)

Lemma keccak_bytes rate suffix msg n :
  Forall (fun b => 0 <= b < 256) (hashlib.keccak rate suffix msg n).
Proof.
  unfold hashlib.keccak. apply Forall_take.
  generalize (hashlib.absorb rate (length (hashlib.keccak_pad rate suffix msg) / rate)
                (repeat 0 25) (hashlib.keccak_pad rate suffix msg)).
  generalize ((n + rate - 1) / rate)%nat. intros k.
  induction k as [|k IH]; intros st; [constructor|].
  rewrite squeeze_S. apply Forall_app. split; [|apply IH].
  apply Forall_take. unfold hashlib.state_bytes. apply Forall_flat_map.
  apply Forall_forall. intros i _. unfold hashlib.lane_bytes.
  apply Forall_map, Forall_forall. intros j _.
  change 255 with (Z.ones 8). rewrite Z.land_ones by lia.
  apply Z.mod_pos_bound. lia.
Qed.

Lemma mlkem_xof_stream data i j : xof_stream (mlkem_xof data i j).
Proof.
  unfold mlkem_xof, init. split; cbn [digest buf offset].
  - intros n. apply length_shake_128.
  - intros n m H. apply shake_128_prefix, H.
  - intros n. apply keccak_bytes.
  - rewrite length_shake_128. reflexivity.
  - rewrite length_shake_128. lia.
Qed.

Lemma ff_stream_xof : xof_stream ff_stream.
Proof.
  unfold ff_stream, init. split; cbn [digest buf offset].
  - intros n. apply length_replicate.
  - intros n m H. rewrite take_replicate, Nat.min_l by exact H. reflexivity.
  - intros n. apply Forall_replicate. lia.
  - rewrite length_replicate. reflexivity.
  - rewrite length_replicate. lia.
Qed.

Lemma accepted_ff m : accepted (replicate (3 * m) 255) = [].
Proof.
  induction m as [|m IH]; [reflexivity|].
  replace (3 * S m)%nat with (S (S (S (3 * m)))) by lia. cbn [replicate accepted].
  rewrite IH. reflexivity.
Qed.

Lemma ff_stream_starved fuel : sample_ntt fuel ff_stream = OutOfFuel.
Proof.
  apply sample_ntt_loop_starved; [apply ff_stream_xof|].
  intros m. rewrite feed_accepted. unfold upcoming, ff_stream, init.
  cbn [digest offset]. rewrite drop_0, Nat.add_0_l, accepted_ff. simpl. lia.
Qed.

(** Whatever the digest function, a returned list has 256 entries. *)
Lemma sample_ntt_loop_length fuel : forall rfuel xof res out,
  (length res <= 256)%nat ->
  sample_ntt_loop rfuel fuel xof res = Done out -> length out = 256%nat.
Proof.
  induction fuel as [|fuel IH]; intros rfuel xof res out Hres; rewrite sample_ntt_loop_eq;
    destruct (Nat.ltb_spec (length res) 256) as [Hlt|Hge];
    try discriminate; try (intros [= <-]; lia).
  destruct (read rfuel 3 xof) as [[bs xof']| |]; try discriminate.
  cbn [mbind outcome_bind]. destruct bs as [|a [|b [|c [|]]]]; try discriminate.
  apply IH, length_sample_ntt_step, Hlt.
Qed.

(** C7 (as amended).  On a stream over an extendable-output function whose
    next 3m bytes hold at least 256 candidates below 3329, sample_ntt returns
    (with any fuel from offset + 3m on) exactly 256 coefficients, each in
    [0, 3329): the first 256 accepted candidates d1 = ((b & 0x0f) << 8) | a,
    d2 = (c << 4) | (b >> 4) of the 3-byte chunks (a, b, c), in order; when
    the first candidate of a chunk fills slot 256, the second candidate of
    that chunk is left out whatever its value. *)
Theorem sample_ntt_spec (xof : ShakeStream) (m : nat) :
  xof_stream xof ->
  (256 <= length (accepted (upcoming xof (3 * m))))%nat ->
  exists res,
    (forall fuel, (offset xof + 3 * m <= fuel)%nat -> sample_ntt fuel xof = Done res)
    /\ res = take 256 (accepted (upcoming xof (3 * m)))
    /\ length res = 256%nat
    /\ Forall (fun x => 0 <= x < 3329) res
    /\ (forall pre a b c post,
          upcoming xof (3 * m) = pre ++ [a; b; c] ++ post ->
          (length pre mod 3 = 0)%nat ->
          length (accepted pre) = 255%nat ->
          cand1 a b < 3329 ->
          res = accepted pre ++ [cand1 a b]).
Proof.
  intros Hx Hfull. exists (take 256 (accepted (upcoming xof (3 * m)))).
  split; [|split; [reflexivity|split; [|split]]].
  - intros fuel Hf. unfold sample_ntt. rewrite <- feed_accepted.
    apply sample_ntt_loop_feed;
      [exact Hx|lia|lia|simpl; lia|rewrite feed_accepted, length_take; lia].
  - rewrite length_take. lia.
  - apply Forall_take, accepted_range, upcoming_bytes, Hx.
  - intros pre a b c post Hup Hmod Hlen Hc1. rewrite Hup.
    rewrite accepted_app_chunks by exact Hmod. cbn [app accepted].
    unfold accepted_chunk at 1. change Q with 3329.
    destruct (Z.ltb_spec (cand1 a b) 3329) as [_|]; [|lia].
    cbn [app].
    change (cand1 a b :: ?l) with ([cand1 a b] ++ l).
    rewrite app_assoc. apply take_app_length'. rewrite length_app, Hlen. reflexivity.
Qed.

Lemma sample_ntt_spec_witness :
  exists res,
    (forall fuel, (offset (mlkem_xof demo_seed 0 1) + 3 * 200 <= fuel)%nat ->
                  sample_ntt fuel (mlkem_xof demo_seed 0 1) = Done res)
    /\ res = take 256 (accepted (upcoming (mlkem_xof demo_seed 0 1) (3 * 200)))
    /\ length res = 256%nat
    /\ Forall (fun x => 0 <= x < 3329) res
    /\ (forall pre a b c post,
          upcoming (mlkem_xof demo_seed 0 1) (3 * 200) = pre ++ [a; b; c] ++ post ->
          (length pre mod 3 = 0)%nat ->
          length (accepted pre) = 255%nat ->
          cand1 a b < 3329 ->
          res = accepted pre ++ [cand1 a b]).
Proof.
  apply (sample_ntt_spec (mlkem_xof demo_seed 0 1) 200).
  - apply mlkem_xof_stream.
  - apply Nat.leb_le. vm_compute. reflexivity.
Defined.

(** The claim without the condition on the stream fails: on the stream of
    0xff bytes sample_ntt returns nothing, whatever the fuel. *)
Lemma sample_ntt_ff_returns_nothing :
  ~ (exists fuel res, sample_ntt fuel ff_stream = Done res /\ length res = 256%nat).
Proof. intros (fuel & res & H & _). rewrite ff_stream_starved in H. discriminate H. Qed.

(** The second candidate of chunk 129 of [odd_stream] is 0, below 3329, and
    is left out. *)
Example sample_ntt_odd_stream :
  sample_ntt 400 odd_stream = Done ([0] ++ concat (replicate 127 [1; 0]) ++ [1]).
Proof. vm_compute. reflexivity. Qed.

(** C9 (as amended).  On a stream whose digest function returns as many bytes
    as it is asked for, the buffer-doubling loop of ShakeStream.read
    terminates for every requested length n; on a stream over an
    extendable-output function, the loop of sample_ntt terminates when the
    stream supplies 256 candidates below 3329 and runs forever when it never
    does. *)
Theorem loops_terminate (s : ShakeStream) (n : nat) :
  sized s ->
  (exists fuel, forall fuel', (fuel <= fuel')%nat ->
     exists bs s', read fuel' n s = Done (bs, s') /\ length bs = n)
  /\ (xof_stream s ->
      forall m, (256 <= length (accepted (upcoming s (3 * m))))%nat ->
      exists fuel, forall fuel', (fuel <= fuel')%nat ->
        exists res, sample_ntt fuel' s = Done res)
  /\ (xof_stream s ->
      (forall m, (length (accepted (upcoming s (3 * m))) < 256)%nat) ->
      forall fuel, sample_ntt fuel s = OutOfFuel).
Proof.
  intros Hs. split; [|split].
  - exists (offset s + n)%nat. intros fuel' Hf.
    pose proof (read_spec fuel' n s Hs) as Hr.
    destruct (read fuel' n s) as [[bs s']| |]; [|destruct Hr|lia].
    exists bs, s'. split; [reflexivity|apply Hr].
  - intros Hx m Hfull. exists (offset s + 3 * m)%nat. intros fuel' Hf.
    destruct (sample_ntt_spec s m Hx Hfull) as (res & Hres & _).
    exists res. apply Hres, Hf.
  - intros Hx Hst fuel. apply sample_ntt_loop_starved; [exact Hx|].
    intros m. rewrite feed_accepted, length_take. specialize (Hst m). lia.
Qed.

Lemma loops_terminate_witness :
  (exists fuel, forall fuel', (fuel <= fuel')%nat ->
     exists bs s', read fuel' 1432 (mlkem_xof demo_seed 0 1) = Done (bs, s')
                   /\ length bs = 1432%nat)
  /\ (xof_stream (mlkem_xof demo_seed 0 1) ->
      forall m, (256 <= length (accepted (upcoming (mlkem_xof demo_seed 0 1) (3 * m))))%nat ->
      exists fuel, forall fuel', (fuel <= fuel')%nat ->
        exists res, sample_ntt fuel' (mlkem_xof demo_seed 0 1) = Done res)
  /\ (xof_stream (mlkem_xof demo_seed 0 1) ->
      (forall m, (length (accepted (upcoming (mlkem_xof demo_seed 0 1) (3 * m))) < 256)%nat) ->
      forall fuel, sample_ntt fuel (mlkem_xof demo_seed 0 1) = OutOfFuel).
Proof.
  apply (loops_terminate (mlkem_xof demo_seed 0 1) 1432).
  apply xof_stream_sized, mlkem_xof_stream.
Defined.

(** The loop of sample_ntt does not terminate on the stream of 0xff bytes:
    no fuel is enough. *)
Lemma sample_ntt_ff_never_returns :
  ~ (exists fuel res, sample_ntt fuel ff_stream = Done res).
Proof. intros (fuel & res & H). rewrite ff_stream_starved in H. discriminate H. Qed.

(** * Congruences modulo q *)

#[global] Instance eqQ_equiv : Equivalence eqQ.
Proof.
  split; unfold eqQ; [intros x|intros x y H|intros x y z H1 H2]; congruence.
Qed.

#[global] Instance eqQ_add : Proper (eqQ ==> eqQ ==> eqQ) Z.add.
Proof.
  unfold eqQ. intros a b H c d H'.
  rewrite (Z.add_mod a c), (Z.add_mod b d), H, H' by (unfold Q; lia). reflexivity.
Qed.

#[global] Instance eqQ_sub : Proper (eqQ ==> eqQ ==> eqQ) Z.sub.
Proof.
  unfold eqQ. intros a b H c d H'.
  rewrite (Zminus_mod a c), (Zminus_mod b d), H, H'. reflexivity.
Qed.

#[global] Instance eqQ_mul : Proper (eqQ ==> eqQ ==> eqQ) Z.mul.
Proof.
  unfold eqQ. intros a b H c d H'.
  rewrite (Z.mul_mod a c), (Z.mul_mod b d), H, H' by (unfold Q; lia). reflexivity.
Qed.

Lemma eqQ_mod a : eqQ (a mod Q) a.
Proof. unfold eqQ. apply Z.mod_mod. unfold Q. lia. Qed.

Lemma eqQ_ring a b : a = b -> eqQ a b.
Proof. intros ->. reflexivity. Qed.

Lemma eqQ_reduced a b : 0 <= a < Q -> 0 <= b < Q -> eqQ a b -> a = b.
Proof. unfold eqQ. intros Ha Hb H. rewrite !Z.mod_small in H by assumption. exact H. Qed.

(** Closes a congruence whose two sides agree as polynomials once the
    inner reductions are dropped and the hypotheses are used. *)
Ltac eqQ_simpl := rewrite ?eqQ_mod.
Ltac eqQ_close := eqQ_simpl; apply eqQ_ring; ring.

(** * Folding a step that preserves a relation *)

Lemma fold_left_rel3' {S A : Type} (R : S -> S -> S -> Prop) (step1 step2 step3 : S -> A -> S)
      (P : A -> Prop) (l : list A) :
  (forall a s1 s2 s3, P a -> R s1 s2 s3 -> R (step1 s1 a) (step2 s2 a) (step3 s3 a)) ->
  Forall P l ->
  forall s1 s2 s3, R s1 s2 s3 ->
    R (fold_left step1 l s1) (fold_left step2 l s2) (fold_left step3 l s3).
Proof.
  intros Hstep HP. induction HP as [|a l Ha _ IH]; intros s1 s2 s3 HR; simpl; auto.
Qed.

Lemma fold_left_rel3 {S A : Type} (R : S -> S -> S -> Prop) (step : S -> A -> S)
      (P : A -> Prop) (l : list A) :
  (forall a s1 s2 s3, P a -> R s1 s2 s3 -> R (step s1 a) (step s2 a) (step s3 a)) ->
  Forall P l ->
  forall s1 s2 s3, R s1 s2 s3 ->
    R (fold_left step l s1) (fold_left step l s2) (fold_left step l s3).
Proof. apply fold_left_rel3'. Qed.

Lemma fold_left_inv {S A : Type} (I : S -> Prop) (step : S -> A -> S)
      (P : A -> Prop) (l : list A) :
  (forall a s, P a -> I s -> I (step s a)) ->
  Forall P l -> forall s, I s -> I (fold_left step l s).
Proof.
  intros Hstep HP. induction HP as [|a l Ha _ IH]; intros s HI; simpl; auto.
Qed.

Lemma Forall_seq_bounds start len :
  Forall (fun j => (start <= j < start + len)%nat) (seq start len).
Proof. apply Forall_forall. intros j Hj. apply elem_of_seq in Hj. exact Hj. Qed.

(** * Linearity of the butterflies *)

Lemma lin3_lookup n al be x u v i :
  lin3 n al be x u v -> (i < n)%nat -> eqQ (x !!! i) (al * u !!! i + be * v !!! i).
Proof. intros (_ & _ & _ & H). apply H. Qed.

Lemma ntt_butterfly_length zeta len j f :
  length (ntt_butterfly zeta len j f) = length f.
Proof. unfold ntt_butterfly. rewrite !length_insert. reflexivity. Qed.

Lemma ntt_inv_butterfly_length zeta len j f :
  length (ntt_inv_butterfly zeta len j f) = length f.
Proof. unfold ntt_inv_butterfly. rewrite !length_insert. reflexivity. Qed.

Ltac lin3_lookups n :=
  rewrite ?list_lookup_total_insert, ?length_insert;
  repeat match goal with
  | H : length ?l = n |- context [length ?l] => rewrite H
  end.

Lemma ntt_butterfly_lin3 n zeta len j al be x u v :
  (j + len < n)%nat ->
  lin3 n al be x u v ->
  lin3 n al be (ntt_butterfly zeta len j x) (ntt_butterfly zeta len j u)
       (ntt_butterfly zeta len j v).
Proof.
  intros Hj (Hx & Hu & Hv & H).
  repeat split; rewrite ?ntt_butterfly_length; auto.
  intros i Hi. unfold ntt_butterfly.
  pose proof (H i Hi) as Hi'. pose proof (H j ltac:(lia)) as Hj'.
  pose proof (H (j + len)%nat Hj) as Hjl.
  lin3_lookups n.
  repeat case_decide; eqQ_simpl; rewrite ?Hi', ?Hj', ?Hjl; try (apply eqQ_ring; ring);
    try lia.
Qed.

Lemma ntt_inv_butterfly_lin3 n zeta len j al be x u v :
  (j + len < n)%nat ->
  lin3 n al be x u v ->
  lin3 n al be (ntt_inv_butterfly zeta len j x) (ntt_inv_butterfly zeta len j u)
       (ntt_inv_butterfly zeta len j v).
Proof.
  intros Hj (Hx & Hu & Hv & H).
  repeat split; rewrite ?ntt_inv_butterfly_length; auto.
  intros i Hi. unfold ntt_inv_butterfly.
  pose proof (H i Hi) as Hi'. pose proof (H j ltac:(lia)) as Hj'.
  pose proof (H (j + len)%nat Hj) as Hjl.
  lin3_lookups n.
  repeat case_decide; eqQ_simpl; rewrite ?Hi', ?Hj', ?Hjl; try (apply eqQ_ring; ring);
    try lia.
Qed.

(** * Linearity of the transforms *)

Lemma ntt_block_lin3 len al be start sx su sv :
  (start + 2 * len <= 256)%nat ->
  st_lin3 al be sx su sv ->
  st_lin3 al be (ntt_block len sx start) (ntt_block len su start) (ntt_block len sv start).
Proof.
  intros Hb (Hku & Hkv & H). unfold ntt_block, st_lin3. cbn [k f_out].
  rewrite Hku, Hkv. split; [reflexivity|split; [reflexivity|]].
  apply (fold_left_rel3 (lin3 256 al be) _ (fun j => (start <= j < start + len)%nat));
    [|apply Forall_seq_bounds|exact H].
  intros j s1 s2 s3 Hj Hs. apply ntt_butterfly_lin3; [lia|exact Hs].
Qed.

Lemma ntt_inv_block_lin3 len al be start sx su sv :
  (start + 2 * len <= 256)%nat ->
  st_lin3 al be sx su sv ->
  st_lin3 al be (ntt_inv_block len sx start) (ntt_inv_block len su start)
          (ntt_inv_block len sv start).
Proof.
  intros Hb (Hku & Hkv & H). unfold ntt_inv_block, st_lin3. cbn [k f_out].
  rewrite Hku, Hkv. split; [reflexivity|split; [reflexivity|]].
  apply (fold_left_rel3 (lin3 256 al be) _ (fun j => (start <= j < start + len)%nat));
    [|apply Forall_seq_bounds|exact H].
  intros j s1 s2 s3 Hj Hs. apply ntt_inv_butterfly_lin3; [lia|exact Hs].
Qed.

Lemma layer_ok_bounds l :
  layer_ok l = true ->
  Forall (fun start => (start + 2 * 2 ^ l <= 256)%nat) (range3 0 256 (2 * 2 ^ l)).
Proof.
  unfold layer_ok. intros H. apply Forall_forall. intros start Hs.
  rewrite forallb_forall in H. apply Nat.leb_le, H, list_elem_of_In, Hs.
Qed.

Lemma ntt_layer_lin3 l al be sx su sv :
  layer_ok l = true ->
  st_lin3 al be sx su sv ->
  st_lin3 al be (ntt_layer sx l) (ntt_layer su l) (ntt_layer sv l).
Proof.
  intros Hl H. unfold ntt_layer.
  apply (fold_left_rel3 (st_lin3 al be) _ (fun start => (start + 2 * 2 ^ l <= 256)%nat));
    [|apply layer_ok_bounds, Hl|exact H].
  intros start s1 s2 s3 Hs Hst. apply ntt_block_lin3; assumption.
Qed.

Lemma ntt_inv_layer_lin3 l al be sx su sv :
  layer_ok l = true ->
  st_lin3 al be sx su sv ->
  st_lin3 al be (ntt_inv_layer sx l) (ntt_inv_layer su l) (ntt_inv_layer sv l).
Proof.
  intros Hl H. unfold ntt_inv_layer.
  apply (fold_left_rel3 (st_lin3 al be) _ (fun start => (start + 2 * 2 ^ l <= 256)%nat));
    [|apply layer_ok_bounds, Hl|exact H].
  intros start s1 s2 s3 Hs Hst. apply ntt_inv_block_lin3; assumption.
Qed.

Lemma layers_ok_down : Forall (fun l => layer_ok l = true) [7; 6; 5; 4; 3; 2; 1]%nat.
Proof. repeat constructor. Qed.

Lemma layers_ok_up : Forall (fun l => layer_ok l = true) (seq 1 7).
Proof. repeat constructor. Qed.

Lemma ntt_loops_lin3 al be x u v :
  lin3 256 al be x u v ->
  lin3 256 al be (f_out (ntt_loops x)) (f_out (ntt_loops u)) (f_out (ntt_loops v)).
Proof.
  intros H. unfold ntt_loops.
  apply (fold_left_rel3 (st_lin3 al be) ntt_layer (fun l => layer_ok l = true));
    [|apply layers_ok_down|split; [reflexivity|split; [reflexivity|exact H]]].
  intros l s1 s2 s3 Hl Hs. apply ntt_layer_lin3; assumption.
Qed.

Lemma ntt_inv_scale_step_lin3 al be i x u v :
  lin3 256 al be x u v ->
  lin3 256 al be (ntt_inv_scale_step x i) (ntt_inv_scale_step u i) (ntt_inv_scale_step v i).
Proof.
  intros (Hx & Hu & Hv & H). unfold ntt_inv_scale_step.
  repeat split; rewrite ?length_insert; auto.
  intros j Hj. pose proof (H j Hj) as Hj'.
  lin3_lookups 256%nat.
  case_decide as Hd; [destruct Hd as [-> _]|]; eqQ_simpl; rewrite ?Hj';
    apply eqQ_ring; ring.
Qed.

Lemma ntt_inv_loops_lin3 al be x u v :
  lin3 256 al be x u v ->
  lin3 256 al be (ntt_inv_loops x) (ntt_inv_loops u) (ntt_inv_loops v).
Proof.
  intros H. unfold ntt_inv_loops.
  apply (fold_left_rel3 (lin3 256 al be) ntt_inv_scale_step (fun _ => True));
    [intros; apply ntt_inv_scale_step_lin3; assumption|apply Forall_forall; auto|].
  apply (fold_left_rel3 (st_lin3 al be) ntt_inv_layer (fun l => layer_ok l = true));
    [|apply layers_ok_up|split; [reflexivity|split; [reflexivity|exact H]]].
  intros l s1 s2 s3 Hl Hs. apply ntt_inv_layer_lin3; assumption.
Qed.

(** * The loop of ntt_mul as a list of pairs *)

Lemma fold_left_append_pairs {A B : Type} (g h : A -> B) (l : list A) (c : list B) :
  fold_left (fun c i => (c ++ [g i]) ++ [h i]) l c = c ++ flat_map (fun i => [g i; h i]) l.
Proof.
  revert c. induction l as [|a l IH]; intros c; simpl; [rewrite app_nil_r; reflexivity|].
  rewrite IH, <- !app_assoc. reflexivity.
Qed.

Lemma length_pairs {B : Type} (g h : nat -> B) (n : nat) :
  length (flat_map (fun i => [g i; h i]) (seq 0 n)) = (2 * n)%nat.
Proof.
  induction n as [|n IH]; [reflexivity|].
  rewrite seq_S, flat_map_app, length_app, IH. simpl. lia.
Qed.

Lemma lookup_pairs `{!Inhabited B} (g h : nat -> B) (n i : nat) :
  (i < n)%nat ->
  flat_map (fun i => [g i; h i]) (seq 0 n) !!! (2 * i)%nat = g i
  /\ flat_map (fun i => [g i; h i]) (seq 0 n) !!! (2 * i + 1)%nat = h i.
Proof.
  induction n as [|n IH]; [lia|]. intros Hi.
  rewrite seq_S, flat_map_app. cbn [flat_map app Nat.add].
  destruct (Nat.eq_dec i n) as [->|Hne].
  - rewrite !lookup_total_app_r by (rewrite length_pairs; lia).
    rewrite length_pairs.
    replace (2 * n - 2 * n)%nat with 0%nat by lia.
    replace (2 * n + 1 - 2 * n)%nat with 1%nat by lia. split; reflexivity.
  - rewrite !lookup_total_app_l by (rewrite length_pairs; lia). apply IH. lia.
Qed.

Lemma ntt_mul_loop_pairs a b :
  ntt_mul_loop a b = flat_map (fun i => [ntt_mul_even a b i; ntt_mul_odd a b i]) (seq 0 128).
Proof.
  unfold ntt_mul_loop, ntt_mul_step.
  rewrite (fold_left_append_pairs (ntt_mul_even a b) (ntt_mul_odd a b)). reflexivity.
Qed.

Lemma length_ntt_mul_loop a b : length (ntt_mul_loop a b) = 256%nat.
Proof. rewrite ntt_mul_loop_pairs, length_pairs. reflexivity. Qed.

Lemma index_pair (i : nat) : i = (2 * (i / 2))%nat \/ i = (2 * (i / 2) + 1)%nat.
Proof.
  pose proof (Nat.div_mod_eq i 2). pose proof (Nat.mod_upper_bound i 2). lia.
Qed.

Lemma ntt_mul_loop_lin3_l al be b x u v :
  lin3 256 al be x u v ->
  lin3 256 al be (ntt_mul_loop x b) (ntt_mul_loop u b) (ntt_mul_loop v b).
Proof.
  intros (Hx & Hu & Hv & H). repeat split; rewrite ?length_ntt_mul_loop; auto.
  intros i Hi. rewrite !ntt_mul_loop_pairs.
  assert (Hh : (i / 2 < 128)%nat) by (apply Nat.Div0.div_lt_upper_bound; lia).
  pose proof (H (2 * (i / 2))%nat ltac:(lia)) as H0.
  pose proof (H (2 * (i / 2) + 1)%nat ltac:(lia)) as H1.
  destruct (index_pair i) as [Hp|Hp]; rewrite Hp.
  - rewrite !(proj1 (lookup_pairs _ _ 128 (i / 2) Hh)). unfold ntt_mul_even.
    eqQ_simpl. rewrite H0, H1. apply eqQ_ring. ring.
  - rewrite !(proj2 (lookup_pairs _ _ 128 (i / 2) Hh)). unfold ntt_mul_odd.
    eqQ_simpl. rewrite H0, H1. apply eqQ_ring. ring.
Qed.

Lemma ntt_mul_loop_lin3_r al be a x u v :
  lin3 256 al be x u v ->
  lin3 256 al be (ntt_mul_loop a x) (ntt_mul_loop a u) (ntt_mul_loop a v).
Proof.
  intros (Hx & Hu & Hv & H). repeat split; rewrite ?length_ntt_mul_loop; auto.
  intros i Hi. rewrite !ntt_mul_loop_pairs.
  assert (Hh : (i / 2 < 128)%nat) by (apply Nat.Div0.div_lt_upper_bound; lia).
  pose proof (H (2 * (i / 2))%nat ltac:(lia)) as H0.
  pose proof (H (2 * (i / 2) + 1)%nat ltac:(lia)) as H1.
  destruct (index_pair i) as [Hp|Hp]; rewrite Hp.
  - rewrite !(proj1 (lookup_pairs _ _ 128 (i / 2) Hh)). unfold ntt_mul_even.
    eqQ_simpl. rewrite H0, H1. apply eqQ_ring. ring.
  - rewrite !(proj2 (lookup_pairs _ _ 128 (i / 2) Hh)). unfold ntt_mul_odd.
    eqQ_simpl. rewrite H0, H1. apply eqQ_ring. ring.
Qed.

(** * Linearity of the textbook multiplication *)

Lemma slow_mul_step_lin3_l al be b i j x u v cx cu cv :
  (i + j < 511)%nat -> (j < 256)%nat ->
  lin3 256 al be x u v -> lin3 511 al be cx cu cv ->
  lin3 511 al be (slow_mul_step x b i j cx) (slow_mul_step u b i j cu)
       (slow_mul_step v b i j cv).
Proof.
  intros Hij Hj (_ & _ & _ & Ha) (Hx & Hu & Hv & H). unfold slow_mul_step.
  repeat split; rewrite ?length_insert; auto.
  intros n Hn. pose proof (H n Hn) as Hn'. pose proof (H (i + j)%nat Hij) as Hc.
  pose proof (Ha j Hj) as Haj.
  lin3_lookups 511%nat.
  case_decide; eqQ_simpl; rewrite ?Hn', ?Hc, ?Haj; apply eqQ_ring; ring.
Qed.

Lemma slow_mul_step_lin3_r al be a i j x u v cx cu cv :
  (i + j < 511)%nat -> (i < 256)%nat ->
  lin3 256 al be x u v -> lin3 511 al be cx cu cv ->
  lin3 511 al be (slow_mul_step a x i j cx) (slow_mul_step a u i j cu)
       (slow_mul_step a v i j cv).
Proof.
  intros Hij Hi (_ & _ & _ & Ha) (Hx & Hu & Hv & H). unfold slow_mul_step.
  repeat split; rewrite ?length_insert; auto.
  intros n Hn. pose proof (H n Hn) as Hn'. pose proof (H (i + j)%nat Hij) as Hc.
  pose proof (Ha i Hi) as Hai.
  lin3_lookups 511%nat.
  case_decide; eqQ_simpl; rewrite ?Hn', ?Hc, ?Hai; apply eqQ_ring; ring.
Qed.

Lemma slow_mul_reduce_step_lin3 al be i cx cu cv :
  (i + 256 < 511)%nat ->
  lin3 511 al be cx cu cv ->
  lin3 511 al be (slow_mul_reduce_step i cx) (slow_mul_reduce_step i cu)
       (slow_mul_reduce_step i cv).
Proof.
  intros Hi (Hx & Hu & Hv & H). unfold slow_mul_reduce_step.
  repeat split; rewrite ?length_insert; auto.
  intros n Hn. pose proof (H n Hn) as Hn'. pose proof (H i ltac:(lia)) as Hc.
  pose proof (H (i + 256)%nat Hi) as Hc'.
  lin3_lookups 511%nat.
  case_decide; eqQ_simpl; rewrite ?Hn', ?Hc, ?Hc'; apply eqQ_ring; ring.
Qed.

Lemma lin3_zero n al be : lin3 n al be (replicate n 0) (replicate n 0) (replicate n 0).
Proof.
  repeat split; rewrite ?length_replicate; auto.
  intros i Hi. rewrite !lookup_total_replicate_2 by exact Hi. apply eqQ_ring. ring.
Qed.

Lemma lin3_take al be cx cu cv :
  lin3 511 al be cx cu cv -> lin3 256 al be (take 256 cx) (take 256 cu) (take 256 cv).
Proof.
  intros (Hx & Hu & Hv & H). repeat split; rewrite ?length_take; try lia.
  intros i Hi. rewrite !lookup_total_take_lt by exact Hi. apply H. lia.
Qed.

Lemma slow_mul_loops_lin3_l al be b x u v :
  lin3 256 al be x u v ->
  lin3 256 al be (slow_mul_loops x b) (slow_mul_loops u b) (slow_mul_loops v b).
Proof.
  intros H. unfold slow_mul_loops. apply lin3_take.
  apply (fold_left_rel3 (lin3 511 al be) _ (fun i => (0 <= i < 0 + 255)%nat));
    [intros i c1 c2 c3 Hi Hc; apply slow_mul_reduce_step_lin3; [lia|exact Hc]
    |apply Forall_seq_bounds|].
  apply (fold_left_rel3' (lin3 511 al be) _ _ _ (fun i => (0 <= i < 0 + 256)%nat));
    [|apply Forall_seq_bounds|apply lin3_zero].
  intros i c1 c2 c3 Hi Hc.
  apply (fold_left_rel3' (lin3 511 al be) _ _ _ (fun j => (0 <= j < 0 + 256)%nat));
    [|apply Forall_seq_bounds|exact Hc].
  intros j d1 d2 d3 Hj Hd. apply slow_mul_step_lin3_l; [lia|lia|exact H|exact Hd].
Qed.

Lemma slow_mul_loops_lin3_r al be a x u v :
  lin3 256 al be x u v ->
  lin3 256 al be (slow_mul_loops a x) (slow_mul_loops a u) (slow_mul_loops a v).
Proof.
  intros H. unfold slow_mul_loops. apply lin3_take.
  apply (fold_left_rel3 (lin3 511 al be) _ (fun i => (0 <= i < 0 + 255)%nat));
    [intros i c1 c2 c3 Hi Hc; apply slow_mul_reduce_step_lin3; [lia|exact Hc]
    |apply Forall_seq_bounds|].
  apply (fold_left_rel3' (lin3 511 al be) _ _ _ (fun i => (0 <= i < 0 + 256)%nat));
    [|apply Forall_seq_bounds|apply lin3_zero].
  intros i c1 c2 c3 Hi Hc.
  apply (fold_left_rel3' (lin3 511 al be) _ _ _ (fun j => (0 <= j < 0 + 256)%nat));
    [|apply Forall_seq_bounds|exact Hc].
  intros j d1 d2 d3 Hj Hd. apply slow_mul_step_lin3_r; [lia|lia|exact H|exact Hd].
Qed.

(** * A linear map is determined by its values on the monomials *)

Lemma tailz_lookup k x i :
  (k <= 256)%nat -> length x = 256%nat -> (i < 256)%nat ->
  tailz k x !!! i = if (i <? k)%nat then 0 else x !!! i.
Proof.
  intros Hk Hx Hi. unfold tailz. destruct (Nat.ltb_spec i k).
  - rewrite lookup_total_app_l by (rewrite length_replicate; lia).
    apply lookup_total_replicate_2. lia.
  - rewrite lookup_total_app_r by (rewrite length_replicate; lia).
    rewrite length_replicate, lookup_total_drop. f_equal. lia.
Qed.

Lemma length_tailz k x : (k <= 256)%nat -> length x = 256%nat -> length (tailz k x) = 256%nat.
Proof. intros Hk Hx. unfold tailz. rewrite length_app, length_replicate, length_drop. lia. Qed.

Lemma length_basis n i : length (basis n i) = n.
Proof. unfold basis. rewrite length_insert, length_replicate. reflexivity. Qed.

Lemma basis_lookup n i j :
  (i < n)%nat -> (j < n)%nat -> basis n i !!! j = if decide (i = j) then 1 else 0.
Proof.
  intros Hi Hj. unfold basis. rewrite list_lookup_total_insert, length_replicate.
  rewrite lookup_total_replicate_2 by exact Hj.
  repeat case_decide; try reflexivity; lia.
Qed.

Lemma tailz_step k x :
  (k < 256)%nat -> length x = 256%nat ->
  lin3 256 (x !!! k) 1 (tailz k x) (basis 256 k) (tailz (S k) x).
Proof.
  intros Hk Hx. repeat split; rewrite ?length_tailz, ?length_basis by lia; auto.
  intros i Hi. rewrite !tailz_lookup, basis_lookup by lia.
  apply eqQ_ring.
  case_decide; destruct (Nat.ltb_spec i k); destruct (Nat.ltb_spec i (S k));
    subst; try lia; ring.
Qed.

Lemma tailz_0 x : tailz 0 x = x.
Proof. reflexivity. Qed.

Lemma tailz_256 x : length x = 256%nat -> tailz 256 x = replicate 256 0.
Proof. intros Hx. unfold tailz. rewrite drop_ge by lia. apply app_nil_r. Qed.

Section lin_ext.
Variables F G : list Z -> list Z.
Hypothesis F_lin : forall al be x u v,
  lin3 256 al be x u v -> lin3 256 al be (F x) (F u) (F v).
Hypothesis G_lin : forall al be x u v,
  lin3 256 al be x u v -> lin3 256 al be (G x) (G u) (G v).
Hypothesis FG_basis : forall i, (i < 256)%nat -> eqv 256 (F (basis 256 i)) (G (basis 256 i)).

Lemma lin_ext_tail x d : forall k,
  (k + d = 256)%nat -> length x = 256%nat -> eqv 256 (F (tailz k x)) (G (tailz k x)).
Proof.
  induction d as [|d IH]; intros k Hk Hx.
  - replace k with 256%nat by lia. rewrite tailz_256 by exact Hx.
    destruct (F_lin 0 0 _ _ _ (lin3_zero 256 0 0)) as (HF & _ & _ & HF').
    destruct (G_lin 0 0 _ _ _ (lin3_zero 256 0 0)) as (HG & _ & _ & HG').
    repeat split; auto. intros i Hi. rewrite (HF' i Hi), (HG' i Hi). apply eqQ_ring. ring.
  - destruct (F_lin _ _ _ _ _ (tailz_step k x ltac:(lia) Hx)) as (HF & _ & _ & HF').
    destruct (G_lin _ _ _ _ _ (tailz_step k x ltac:(lia) Hx)) as (HG & _ & _ & HG').
    destruct (IH (S k) ltac:(lia) Hx) as (_ & _ & Ht).
    destruct (FG_basis k ltac:(lia)) as (_ & _ & Hb).
    repeat split; auto. intros i Hi.
    rewrite (HF' i Hi), (HG' i Hi), (Ht i Hi), (Hb i Hi). reflexivity.
Qed.

Lemma lin_ext x : length x = 256%nat -> eqv 256 (F x) (G x).
Proof. intros Hx. rewrite <- (tailz_0 x). apply (lin_ext_tail x 256 0); auto. Qed.
End lin_ext.

Lemma eqv_reduced_eq x y : eqv 256 x y -> reduced x -> reduced y -> x = y.
Proof.
  intros (Hx & Hy & H) Rx Ry. apply (list_eq_same_length _ _ 256%nat); auto.
  intros i a b Hi Ha Hb. specialize (H i Hi).
  rewrite (list_lookup_total_correct _ _ _ Ha), (list_lookup_total_correct _ _ _ Hb) in H.
  apply eqQ_reduced; [| |exact H].
  - apply (proj1 (Forall_lookup _ _) Rx i a Ha).
  - apply (proj1 (Forall_lookup _ _) Ry i b Hb).
Qed.

(** * The loops of the transforms, block by block *)

Lemma insert_middle {B : Type} (X Y : list B) (a v : B) :
  <[length X := v]> (X ++ a :: Y) = X ++ v :: Y.
Proof.
  rewrite <- (Nat.add_0_r (length X)) at 1. rewrite insert_app_r. reflexivity.
Qed.

Lemma lookup_total_middle2 (X Y Z0 : list Z) (a b : Z) :
  (X ++ a :: Y ++ b :: Z0) !!! (length X + S (length Y))%nat = b.
Proof.
  rewrite lookup_total_app_r by lia.
  replace (length X + S (length Y) - length X)%nat with (S (length Y)) by lia.
  cbn [lookup_total list_lookup_total]. apply list_lookup_total_middle. reflexivity.
Qed.

Lemma insert_middle2 (X Y Z0 : list Z) (a b v : Z) :
  <[(length X + S (length Y))%nat := v]> (X ++ a :: Y ++ b :: Z0) = X ++ a :: Y ++ v :: Z0.
Proof.
  rewrite insert_app_r. cbn [insert list_insert]. do 2 f_equal. apply insert_middle.
Qed.

(** One butterfly of [ntt] on the two entries it touches. *)
Lemma ntt_butterfly_two zeta X a Y b Z0 :
  ntt_butterfly zeta (S (length Y)) (length X) (X ++ a :: Y ++ b :: Z0)
  = X ++ ((a + (zeta * b) mod Q) mod Q) :: Y ++ ((a - (zeta * b) mod Q) mod Q) :: Z0.
Proof.
  unfold ntt_butterfly. rewrite lookup_total_middle2, insert_middle2.
  rewrite !(list_lookup_total_middle X) by reflexivity. rewrite insert_middle. reflexivity.
Qed.

Lemma ntt_inv_butterfly_two zeta X a Y b Z0 :
  ntt_inv_butterfly zeta (S (length Y)) (length X) (X ++ a :: Y ++ b :: Z0)
  = X ++ ((a + b) mod Q) :: Y ++ ((zeta * (b - a)) mod Q) :: Z0.
Proof.
  unfold ntt_inv_butterfly.
  rewrite !(list_lookup_total_middle X) by reflexivity. rewrite lookup_total_middle2.
  rewrite insert_middle, lookup_total_middle2, insert_middle2. reflexivity.
Qed.

(** The inner loop over [j] on one block: the processed parts [P] and [M]
    of the two halves grow while [lo] and [hi] shrink. *)
Lemma ntt_block_fold zeta len : forall lo hi P M tail,
  length lo = length hi -> length P = length M -> len = (length P + length lo)%nat ->
  fold_left (fun f j => ntt_butterfly zeta len j f) (seq (length P) (length lo))
            (P ++ lo ++ M ++ hi ++ tail)
  = P ++ zip_with (fun a b => (a + (zeta * b) mod Q) mod Q) lo hi
      ++ M ++ zip_with (fun a b => (a - (zeta * b) mod Q) mod Q) lo hi ++ tail.
Proof.
  induction lo as [|a lo IH]; intros hi P M tail Hl HP Hlen.
  - destruct hi; [reflexivity|discriminate Hl].
  - destruct hi as [|b hi]; [discriminate Hl|]. cbn [length seq fold_left zip_with].
    replace ((a :: lo) ++ M ++ (b :: hi) ++ tail) with (a :: (lo ++ M) ++ b :: (hi ++ tail))
      by (cbn [app]; rewrite <- app_assoc; reflexivity).
    replace len with (S (length (lo ++ M))) at 1
      by (rewrite length_app; cbn [length] in Hlen; lia).
    rewrite ntt_butterfly_two.
    specialize (IH hi (P ++ [(a + (zeta * b) mod Q) mod Q])
                   (M ++ [(a - (zeta * b) mod Q) mod Q]) tail).
    rewrite !length_app in IH. cbn [length] in IH, Hl, Hlen.
    replace (length P + 1)%nat with (S (length P)) in IH by lia.
    rewrite <- !app_assoc in IH. cbn [app] in IH.
    rewrite <- !app_assoc. cbn [app]. apply IH; lia.
Qed.

Lemma ntt_inv_block_fold zeta len : forall lo hi P M tail,
  length lo = length hi -> length P = length M -> len = (length P + length lo)%nat ->
  fold_left (fun f j => ntt_inv_butterfly zeta len j f) (seq (length P) (length lo))
            (P ++ lo ++ M ++ hi ++ tail)
  = P ++ zip_with (fun a b => (a + b) mod Q) lo hi
      ++ M ++ zip_with (fun a b => (zeta * (b - a)) mod Q) lo hi ++ tail.
Proof.
  induction lo as [|a lo IH]; intros hi P M tail Hl HP Hlen.
  - destruct hi; [reflexivity|discriminate Hl].
  - destruct hi as [|b hi]; [discriminate Hl|]. cbn [length seq fold_left zip_with].
    replace ((a :: lo) ++ M ++ (b :: hi) ++ tail) with (a :: (lo ++ M) ++ b :: (hi ++ tail))
      by (cbn [app]; rewrite <- app_assoc; reflexivity).
    replace len with (S (length (lo ++ M))) at 1
      by (rewrite length_app; cbn [length] in Hlen; lia).
    rewrite ntt_inv_butterfly_two.
    specialize (IH hi (P ++ [(a + b) mod Q]) (M ++ [(zeta * (b - a)) mod Q]) tail).
    rewrite !length_app in IH. cbn [length] in IH, Hl, Hlen.
    replace (length P + 1)%nat with (S (length P)) in IH by lia.
    rewrite <- !app_assoc in IH. cbn [app] in IH.
    rewrite <- !app_assoc. cbn [app]. apply IH; lia.
Qed.

Lemma lookup_total_app_add (l1 l2 : list Z) (i : nat) :
  (l1 ++ l2) !!! (length l1 + i)%nat = l2 !!! i.
Proof. rewrite lookup_total_app_r by lia. f_equal. lia. Qed.

(** A loop that only touches indices from [length pre] on leaves [pre]
    alone. *)
Lemma ntt_butterfly_frame zeta len pre g j :
  ntt_butterfly zeta len (length pre + j) (pre ++ g) = pre ++ ntt_butterfly zeta len j g.
Proof.
  unfold ntt_butterfly.
  replace (length pre + j + len)%nat with (length pre + (j + len))%nat by lia.
  rewrite insert_app_r, !lookup_total_app_add, insert_app_r. reflexivity.
Qed.

Lemma ntt_inv_butterfly_frame zeta len pre g j :
  ntt_inv_butterfly zeta len (length pre + j) (pre ++ g)
  = pre ++ ntt_inv_butterfly zeta len j g.
Proof.
  unfold ntt_inv_butterfly.
  replace (length pre + j + len)%nat with (length pre + (j + len))%nat by lia.
  rewrite insert_app_r, !lookup_total_app_add, insert_app_r. reflexivity.
Qed.

Lemma fold_left_frame (step : nat -> list Z -> list Z) (pre : list Z) :
  (forall j g, step (length pre + j)%nat (pre ++ g) = pre ++ step j g) ->
  forall n s g,
    fold_left (fun f j => step j f) (seq (length pre + s) n) (pre ++ g)
    = pre ++ fold_left (fun f j => step j f) (seq s n) g.
Proof.
  intros Hstep. induction n as [|n IH]; intros s g; [reflexivity|].
  cbn [seq fold_left]. rewrite Hstep.
  replace (S (length pre + s)) with (length pre + S s)%nat by lia. apply IH.
Qed.

(** The loop over [j] for the block at [length pre]. *)
Lemma ntt_block_loop zeta len pre g :
  (2 * len <= length g)%nat ->
  fold_left (fun f j => ntt_butterfly zeta len j f) (seq (length pre) len) (pre ++ g)
  = pre ++ ntt_block_halves zeta (take len g) (take len (drop len g)) ++ drop (2 * len) g.
Proof.
  intros Hg. rewrite <- (Nat.add_0_r (length pre)).
  rewrite (fold_left_frame (ntt_butterfly zeta len) pre)
    by (intros; apply ntt_butterfly_frame).
  f_equal.
  pose proof (ntt_block_fold zeta len (take len g) (take len (drop len g)) [] []
                (drop (2 * len) g)) as H.
  rewrite !length_take, length_drop in H. cbn [app length] in H.
  replace (len `min` length g)%nat with len in H by lia.
  replace (take len g ++ take len (drop len g) ++ drop (2 * len) g) with g in H.
  - unfold ntt_block_halves. rewrite <- app_assoc. apply H; lia.
  - rewrite <- (take_drop len g) at 1. f_equal.
    rewrite <- (take_drop len (drop len g)) at 1. f_equal.
    rewrite drop_drop. f_equal. lia.
Qed.

Lemma ntt_inv_block_loop zeta len pre g :
  (2 * len <= length g)%nat ->
  fold_left (fun f j => ntt_inv_butterfly zeta len j f) (seq (length pre) len) (pre ++ g)
  = pre ++ ntt_inv_block_halves zeta (take len g) (take len (drop len g))
        ++ drop (2 * len) g.
Proof.
  intros Hg. rewrite <- (Nat.add_0_r (length pre)).
  rewrite (fold_left_frame (ntt_inv_butterfly zeta len) pre)
    by (intros; apply ntt_inv_butterfly_frame).
  f_equal.
  pose proof (ntt_inv_block_fold zeta len (take len g) (take len (drop len g)) [] []
                (drop (2 * len) g)) as H.
  rewrite !length_take, length_drop in H. cbn [app length] in H.
  replace (len `min` length g)%nat with len in H by lia.
  replace (take len g ++ take len (drop len g) ++ drop (2 * len) g) with g in H.
  - unfold ntt_inv_block_halves. rewrite <- app_assoc. apply H; lia.
  - rewrite <- (take_drop len g) at 1. f_equal.
    rewrite <- (take_drop len (drop len g)) at 1. f_equal.
    rewrite drop_drop. f_equal. lia.
Qed.

Lemma length_ntt_block_halves zeta lo hi :
  length lo = length hi -> length (ntt_block_halves zeta lo hi) = (2 * length lo)%nat.
Proof. intros H. unfold ntt_block_halves. rewrite length_app, !length_zip_with. lia. Qed.

Lemma length_ntt_inv_block_halves zeta lo hi :
  length lo = length hi -> length (ntt_inv_block_halves zeta lo hi) = (2 * length lo)%nat.
Proof. intros H. unfold ntt_inv_block_halves. rewrite length_app, !length_zip_with. lia. Qed.

Lemma length_ntt_layer_blocks len : forall n k f,
  (n * (2 * len) <= length f)%nat -> length (ntt_layer_blocks len n k f) = length f.
Proof.
  induction n as [|n IH]; intros k f Hf; [reflexivity|].
  cbn [ntt_layer_blocks]. rewrite length_app, length_ntt_block_halves, IH;
    rewrite ?length_take, ?length_drop; lia.
Qed.

Lemma length_ntt_inv_layer_blocks len : forall n k f,
  (n * (2 * len) <= length f)%nat -> length (ntt_inv_layer_blocks len n k f) = length f.
Proof.
  induction n as [|n IH]; intros k f Hf; [reflexivity|].
  cbn [ntt_inv_layer_blocks]. rewrite length_app, length_ntt_inv_block_halves, IH;
    rewrite ?length_take, ?length_drop; lia.
Qed.

(** The loop over [start] of one layer. *)
Lemma ntt_layer_fold len : forall n pre g k0 r,
  (n * (2 * len) <= length g)%nat ->
  fold_left (ntt_block len) (map (fun b => (length pre + b * (2 * len))%nat) (seq 0 n))
            {| f_out := pre ++ g; k := k0; zeta_reads := r |}
  = {| f_out := pre ++ ntt_layer_blocks len n k0 g;
       k := (k0 + n)%nat;
       zeta_reads := r ++ seq k0 n |}.
Proof.
  induction n as [|n IH]; intros pre g k0 r Hg.
  - cbn [seq map fold_left ntt_layer_blocks]. rewrite Nat.add_0_r, app_nil_r. reflexivity.
  - rewrite <- cons_seq. cbn [map fold_left]. unfold ntt_block at 2. cbn [f_out k zeta_reads].
    rewrite Nat.mul_0_l, Nat.add_0_r, ntt_block_loop by lia.
    set (B := ntt_block_halves (ZETA !!! k0) (take len g) (take len (drop len g))).
    assert (HB : length B = (2 * len)%nat).
    { unfold B. rewrite length_ntt_block_halves; rewrite ?length_take, ?length_drop; lia. }
    rewrite <- seq_shift, map_map.
    rewrite (map_ext _ (fun b => (length (pre ++ B) + b * (2 * len))%nat))
      by (intros b; rewrite length_app, HB; lia).
    rewrite app_assoc, IH by (rewrite length_drop; lia).
    cbn [ntt_layer_blocks]. fold B. rewrite <- !app_assoc. cbn [app seq].
    replace (k0 + 1)%nat with (S k0) by lia. f_equal. lia.
Qed.

Lemma ntt_inv_layer_fold len : forall n pre g k0 r,
  (n * (2 * len) <= length g)%nat ->
  fold_left (ntt_inv_block len) (map (fun b => (length pre + b * (2 * len))%nat) (seq 0 n))
            {| f_out := pre ++ g; k := k0; zeta_reads := r |}
  = {| f_out := pre ++ ntt_inv_layer_blocks len n k0 g;
       k := (k0 - n)%nat;
       zeta_reads := r ++ map (fun i => (k0 - i)%nat) (seq 0 n) |}.
Proof.
  induction n as [|n IH]; intros pre g k0 r Hg.
  - cbn [seq map fold_left ntt_inv_layer_blocks]. rewrite Nat.sub_0_r, app_nil_r. reflexivity.
  - rewrite <- cons_seq. cbn [map fold_left]. unfold ntt_inv_block at 2.
    cbn [f_out k zeta_reads].
    rewrite Nat.mul_0_l, Nat.add_0_r, ntt_inv_block_loop by lia.
    set (B := ntt_inv_block_halves (ZETA !!! k0) (take len g) (take len (drop len g))).
    assert (HB : length B = (2 * len)%nat).
    { unfold B. rewrite length_ntt_inv_block_halves; rewrite ?length_take, ?length_drop; lia. }
    rewrite <- seq_shift, !map_map.
    rewrite (map_ext _ (fun b => (length (pre ++ B) + b * (2 * len))%nat))
      by (intros b; rewrite length_app, HB; lia).
    rewrite app_assoc, IH by (rewrite length_drop; lia).
    cbn [ntt_inv_layer_blocks]. fold B. rewrite <- !app_assoc. cbn [app].
    rewrite Nat.sub_0_r. f_equal; [lia|]. do 2 f_equal.
    apply map_ext. intros i. lia.
Qed.

Lemma range3_blocks l :
  (1 <= l <= 7)%nat ->
  range3 0 256 (2 * 2 ^ l)
  = map (fun b => (length (@nil Z) + b * (2 * 2 ^ l))%nat) (seq 0 (2 ^ (7 - l)))
  /\ (2 ^ (7 - l) * (2 * 2 ^ l) = 256)%nat.
Proof.
  intros Hl.
  assert (Hc : l = 1%nat \/ l = 2%nat \/ l = 3%nat \/ l = 4%nat \/ l = 5%nat
               \/ l = 6%nat \/ l = 7%nat) by lia.
  destruct Hc as [->|[->|[->|[->|[->|[->| ->]]]]]]; split; reflexivity.
Qed.

(** A layer of [ntt], for the seven values of [log2len]. *)
Lemma ntt_layer_blocks_eq l f k0 r :
  (1 <= l <= 7)%nat -> length f = 256%nat ->
  ntt_layer {| f_out := f; k := k0; zeta_reads := r |} l
  = {| f_out := ntt_layer_blocks (2 ^ l) (2 ^ (7 - l)) k0 f;
       k := (k0 + 2 ^ (7 - l))%nat;
       zeta_reads := r ++ seq k0 (2 ^ (7 - l)) |}.
Proof.
  intros Hl Hf. unfold ntt_layer. destruct (range3_blocks l Hl) as [-> Hn].
  change f with ([] ++ f) at 1. rewrite ntt_layer_fold by lia. reflexivity.
Qed.

Lemma ntt_inv_layer_blocks_eq l f k0 r :
  (1 <= l <= 7)%nat -> length f = 256%nat ->
  ntt_inv_layer {| f_out := f; k := k0; zeta_reads := r |} l
  = {| f_out := ntt_inv_layer_blocks (2 ^ l) (2 ^ (7 - l)) k0 f;
       k := (k0 - 2 ^ (7 - l))%nat;
       zeta_reads := r ++ map (fun i => (k0 - i)%nat) (seq 0 (2 ^ (7 - l))) |}.
Proof.
  intros Hl Hf. unfold ntt_inv_layer. destruct (range3_blocks l Hl) as [-> Hn].
  change f with ([] ++ f) at 1. rewrite ntt_inv_layer_fold by lia. reflexivity.
Qed.

Lemma length_ntt_layer_256 l k0 f :
  (1 <= l <= 7)%nat -> length f = 256%nat ->
  length (ntt_layer_blocks (2 ^ l) (2 ^ (7 - l)) k0 f) = 256%nat.
Proof.
  intros Hl Hf. destruct (range3_blocks l Hl) as [_ Hn].
  rewrite length_ntt_layer_blocks; lia.
Qed.

Lemma length_ntt_inv_layer_256 l k0 f :
  (1 <= l <= 7)%nat -> length f = 256%nat ->
  length (ntt_inv_layer_blocks (2 ^ l) (2 ^ (7 - l)) k0 f) = 256%nat.
Proof.
  intros Hl Hf. destruct (range3_blocks l Hl) as [_ Hn].
  rewrite length_ntt_inv_layer_blocks; lia.
Qed.

(** The loops of [ntt] compute the transform block by block. *)
Lemma ntt_fun_blocks f : length f = 256%nat -> ntt_fun f = ntt_blocks f.
Proof.
  intros Hf. unfold ntt_fun, ntt_loops, ntt_blocks. cbn [fold_left].
  rewrite (ntt_layer_blocks_eq 7) by (lia || exact Hf).
  rewrite (ntt_layer_blocks_eq 6) by (lia || (apply length_ntt_layer_256; [lia|exact Hf])).
  rewrite (ntt_layer_blocks_eq 5)
    by (lia || (repeat (apply length_ntt_layer_256; [lia|]); exact Hf)).
  rewrite (ntt_layer_blocks_eq 4)
    by (lia || (repeat (apply length_ntt_layer_256; [lia|]); exact Hf)).
  rewrite (ntt_layer_blocks_eq 3)
    by (lia || (repeat (apply length_ntt_layer_256; [lia|]); exact Hf)).
  rewrite (ntt_layer_blocks_eq 2)
    by (lia || (repeat (apply length_ntt_layer_256; [lia|]); exact Hf)).
  rewrite (ntt_layer_blocks_eq 1)
    by (lia || (repeat (apply length_ntt_layer_256; [lia|]); exact Hf)).
  reflexivity.
Qed.

(** The scaling loop of [ntt_inv]. *)
Lemma ntt_inv_scale_fold : forall g P,
  fold_left ntt_inv_scale_step (seq (length P) (length g)) (P ++ g)
  = P ++ map (fun x => (x * 3303) mod Q) g.
Proof.
  induction g as [|a g IH]; intros P; [reflexivity|].
  cbn [length seq fold_left map]. unfold ntt_inv_scale_step at 2.
  rewrite (list_lookup_total_middle P g a (length P) eq_refl), insert_middle.
  specialize (IH (P ++ [(a * 3303) mod Q])).
  rewrite length_app in IH. cbn [length] in IH.
  replace (length P + 1)%nat with (S (length P)) in IH by lia.
  rewrite <- !app_assoc in IH. exact IH.
Qed.

Lemma ntt_inv_scale_fold_256 g :
  length g = 256%nat ->
  fold_left ntt_inv_scale_step (seq 0 256) g = map (fun x => (x * 3303) mod Q) g.
Proof. intros Hg. rewrite <- Hg. exact (ntt_inv_scale_fold g []). Qed.

(** The loops of [ntt_inv] compute the inverse transform block by block. *)
Lemma ntt_inv_loops_blocks f : length f = 256%nat -> ntt_inv_loops f = ntt_inv_blocks f.
Proof.
  intros Hf. unfold ntt_inv_loops, ntt_inv_blocks.
  change (seq 1 7) with [1; 2; 3; 4; 5; 6; 7]%nat. cbn [fold_left].
  rewrite (ntt_inv_layer_blocks_eq 1) by (lia || exact Hf).
  rewrite (ntt_inv_layer_blocks_eq 2)
    by (lia || (apply length_ntt_inv_layer_256; [lia|exact Hf])).
  rewrite (ntt_inv_layer_blocks_eq 3)
    by (lia || (repeat (apply length_ntt_inv_layer_256; [lia|]); exact Hf)).
  rewrite (ntt_inv_layer_blocks_eq 4)
    by (lia || (repeat (apply length_ntt_inv_layer_256; [lia|]); exact Hf)).
  rewrite (ntt_inv_layer_blocks_eq 5)
    by (lia || (repeat (apply length_ntt_inv_layer_256; [lia|]); exact Hf)).
  rewrite (ntt_inv_layer_blocks_eq 6)
    by (lia || (repeat (apply length_ntt_inv_layer_256; [lia|]); exact Hf)).
  rewrite (ntt_inv_layer_blocks_eq 7)
    by (lia || (repeat (apply length_ntt_inv_layer_256; [lia|]); exact Hf)).
  cbn [f_out]. apply ntt_inv_scale_fold_256.
  repeat (apply length_ntt_inv_layer_256; [lia|]). exact Hf.
Qed.

(** * The transforms of the monomials *)

Lemma powQ_range g e : 0 <= powQ g e < Q.
Proof. destruct e; simpl; [unfold Q; lia|apply Z.mod_pos_bound; unfold Q; lia]. Qed.

Lemma powQ_add g p q : (powQ g p * powQ g q) mod Q = powQ g (p + q).
Proof.
  induction p as [|p IH]; simpl.
  - rewrite Z.mul_1_l. apply Z.mod_small, powQ_range.
  - rewrite <- IH. apply (eqQ_reduced); try (apply Z.mod_pos_bound; unfold Q; lia).
    rewrite !eqQ_mod. apply eqQ_ring. ring.
Qed.

Lemma powQ_add_S g p q : (powQ g p * powQ g q * g) mod Q = powQ g (S (p + q)).
Proof.
  simpl. rewrite <- powQ_add.
  apply (eqQ_reduced); try (apply Z.mod_pos_bound; unfold Q; lia).
  rewrite !eqQ_mod. apply eqQ_ring. ring.
Qed.

Lemma half_parity n : n = (2 * (n / 2) + (if Nat.even n then 0 else 1))%nat.
Proof.
  induction n as [n IH] using lt_wf_ind. destruct n as [|[|n]]; [reflexivity|reflexivity|].
  change (Nat.even (S (S n))) with (Nat.even n).
  replace (S (S n) / 2)%nat with (S (n / 2)).
  - pose proof (IH n ltac:(lia)). destruct (Nat.even n); lia.
  - replace (S (S n)) with (n + 1 * 2)%nat by lia. rewrite Nat.div_add by lia. lia.
Qed.

Lemma parity_succ n :
  Nat.even (S n) = negb (Nat.even n)
  /\ (S n / 2 = n / 2 + (if Nat.even n then 0 else 1))%nat.
Proof.
  assert (He : Nat.even (S n) = negb (Nat.even n)).
  { rewrite Nat.even_succ, <- Nat.negb_even. reflexivity. }
  split; [exact He|].
  pose proof (half_parity n) as Hn. pose proof (half_parity (S n)) as Hs.
  rewrite He in Hs. destruct (Nat.even n); simpl in *; lia.
Qed.

Lemma parity_add n m :
  Nat.even (n + m) = Bool.eqb (Nat.even n) (Nat.even m)
  /\ ((n + m) / 2 = n / 2 + m / 2 + (if Nat.even n || Nat.even m then 0 else 1))%nat.
Proof.
  assert (He : Nat.even (n + m) = Bool.eqb (Nat.even n) (Nat.even m)) by apply Nat.even_add.
  split; [exact He|].
  pose proof (half_parity n) as Hn. pose proof (half_parity m) as Hm.
  pose proof (half_parity (n + m)) as Hs. rewrite He in Hs.
  destruct (Nat.even n), (Nat.even m); simpl in *; lia.
Qed.

Lemma flat_map_seq_ext {B : Type} (f g : nat -> list B) (n : nat) :
  (forall i, (i < n)%nat -> f i = g i) -> flat_map f (seq 0 n) = flat_map g (seq 0 n).
Proof.
  intros H. induction n as [|n IH]; [reflexivity|].
  rewrite seq_S, !flat_map_app, IH by (intros; apply H; lia).
  simpl. rewrite H by lia. reflexivity.
Qed.

Lemma ntt_monomial_lookup n i :
  (i < 128)%nat ->
  ntt_monomial n !!! (2 * i)%nat = mono_even n i
  /\ ntt_monomial n !!! (2 * i + 1)%nat = mono_odd n i.
Proof. intros Hi. apply (lookup_pairs (mono_even n) (mono_odd n) 128 i Hi). Qed.

Lemma mulX_monomial n : mulX (ntt_monomial n) = ntt_monomial (S n).
Proof.
  unfold mulX. unfold ntt_monomial at 3. apply flat_map_seq_ext. intros i Hi.
  destruct (ntt_monomial_lookup n i Hi) as [-> ->].
  unfold mono_even, mono_odd. destruct (parity_succ n) as [-> ->].
  destruct (Nat.even n); cbn [negb].
  - rewrite Nat.add_0_r, Z.mul_0_r. reflexivity.
  - replace (n / 2 + 1)%nat with (S (n / 2)) by lia. reflexivity.
Qed.

Lemma iter_mulX_monomial d n : Nat.iter d mulX (ntt_monomial n) = ntt_monomial (d + n).
Proof.
  induction d as [|d IH]; [reflexivity|]. simpl. rewrite IH. apply mulX_monomial.
Qed.

Lemma check_from_spec P count : forall n y,
  check_from P n count y = true ->
  forall d, (d < count)%nat -> P (n + d)%nat (Nat.iter d mulX y) = true.
Proof.
  induction count as [|c IH]; intros n y H d Hd; [lia|].
  simpl in H. apply andb_true_iff in H as [H0 H1]. destruct d as [|d].
  - rewrite Nat.add_0_r. exact H0.
  - replace (n + S d)%nat with (S n + d)%nat by lia.
    rewrite Nat.iter_succ_r. apply IH; [exact H1|lia].
Qed.

Lemma check_monomials P count :
  check_from P 0 count (ntt_monomial 0) = true ->
  forall n, (n < count)%nat -> P n (ntt_monomial n) = true.
Proof.
  intros H n Hn. pose proof (check_from_spec P count 0 _ H n Hn) as H'.
  rewrite iter_mulX_monomial, Nat.add_0_r in H'. exact H'.
Qed.

Lemma list_eqb_true a b : list_eqb a b = true -> a = b.
Proof. apply bool_decide_eq_true_1. Qed.

Lemma length_ntt_monomial n : length (ntt_monomial n) = 256%nat.
Proof. unfold ntt_monomial. apply length_pairs. Qed.

(** The forward transform of X^n is the closed form, for every n < 256:
    256 runs of the transform, block by block. *)
Lemma ntt_fun_basis n : (n < 256)%nat -> ntt_fun (basis 256 n) = ntt_monomial n.
Proof.
  intros Hn. rewrite ntt_fun_blocks by apply length_basis.
  apply list_eqb_true.
  apply (check_monomials (fun n y => list_eqb (ntt_blocks (basis 256 n)) y) 256);
    [|exact Hn].
  vm_cast_no_check (eq_refl true).
Qed.

(** The inverse transform of the closed form of X^n is X^n modulo
    X^256 + 1, for every n < 511: 511 runs of the inverse transform. *)
Lemma ntt_inv_loops_monomial n : (n < 511)%nat -> ntt_inv_loops (ntt_monomial n) = monomial n.
Proof.
  intros Hn. rewrite ntt_inv_loops_blocks by apply length_ntt_monomial.
  apply list_eqb_true.
  apply (check_monomials (fun n y => list_eqb (ntt_inv_blocks y) (monomial n)) 511);
    [|exact Hn].
  vm_cast_no_check (eq_refl true).
Qed.

(** The pointwise product of the closed forms of X^n and X^m is the closed
    form of X^(n+m). *)
Lemma ntt_mul_loop_monomial n m :
  ntt_mul_loop (ntt_monomial n) (ntt_monomial m) = ntt_monomial (n + m).
Proof.
  rewrite ntt_mul_loop_pairs. unfold ntt_monomial at 5. apply flat_map_seq_ext.
  intros i Hi. unfold ntt_mul_even, ntt_mul_odd.
  destruct (ntt_monomial_lookup n i Hi) as [-> ->].
  destruct (ntt_monomial_lookup m i Hi) as [-> ->].
  unfold mono_even, mono_odd. destruct (parity_add n m) as [-> ->].
  destruct (Nat.even n), (Nat.even m); cbn [Bool.eqb orb];
    rewrite ?Nat.add_0_r, ?Z.mul_0_l, ?Z.mul_0_r, ?Z.add_0_l, ?Z.add_0_r;
    change (0 mod Q) with 0; rewrite ?powQ_add; try reflexivity.
  rewrite powQ_add_S. replace (n / 2 + m / 2 + 1)%nat with (S (n / 2 + m / 2)) by lia.
  reflexivity.
Qed.

(** * The textbook product of two monomials *)

Lemma fold_left_noop {S A : Type} (step : S -> A -> S) (l : list A) (c : S) :
  Forall (fun x => step c x = c) l -> fold_left step l c = c.
Proof. induction 1 as [|x l Hx _ IH]; simpl; [reflexivity|]. rewrite Hx. exact IH. Qed.

Lemma seq_split_at (n i : nat) :
  (i < n)%nat -> seq 0 n = seq 0 i ++ i :: seq (S i) (n - S i).
Proof.
  intros Hi. replace n with (i + S (n - S i))%nat at 1 by lia.
  rewrite seq_app. reflexivity.
Qed.

Lemma reduced_lookup c i : reduced c -> (i < length c)%nat -> 0 <= c !!! i < Q.
Proof.
  intros Hc Hi. destruct (lookup_lt_is_Some_2 c i Hi) as [x Hx].
  rewrite (list_lookup_total_correct _ _ _ Hx).
  apply (proj1 (Forall_lookup _ _) Hc i x Hx).
Qed.

Lemma insert_same (c : list Z) i : <[i := c !!! i]> c = c.
Proof.
  destruct (Nat.lt_ge_cases i (length c)) as [Hi|Hi].
  - apply list_insert_id. apply list_lookup_lookup_total_lt, Hi.
  - apply list_insert_ge, Hi.
Qed.

Lemma slow_mul_step_noop a b i j c :
  a !!! j * b !!! i = 0 -> reduced c -> slow_mul_step a b i j c = c.
Proof.
  intros H0 Hc. unfold slow_mul_step. rewrite H0, Z.add_0_r.
  destruct (Nat.lt_ge_cases (i + j) (length c)) as [Hi|Hi].
  - rewrite Z.mod_small by (apply reduced_lookup; assumption). apply insert_same.
  - apply list_insert_ge, Hi.
Qed.

Lemma reduced_replicate n : reduced (replicate n 0).
Proof. apply Forall_replicate. unfold Q. lia. Qed.

Lemma reduced_basis n i : reduced (basis n i).
Proof. apply Forall_insert; [apply reduced_replicate|unfold Q; lia]. Qed.

Lemma reduced_neg_basis n i : reduced (neg_basis n i).
Proof. apply Forall_insert; [apply reduced_replicate|unfold Q; lia]. Qed.

Lemma basis_lookup_ne n i j : i <> j -> (j < n)%nat -> basis n i !!! j = 0.
Proof.
  intros Hne Hj. unfold basis. rewrite list_lookup_total_insert_ne by exact Hne.
  apply lookup_total_replicate_2, Hj.
Qed.

Lemma basis_lookup_eq n i : (i < n)%nat -> basis n i !!! i = 1.
Proof.
  intros Hi. unfold basis. apply list_lookup_total_insert_eq.
  rewrite length_replicate. exact Hi.
Qed.

(** A loop over [range(n)] in which only the pass at [i0] changes the state. *)
Lemma fold_left_single {S : Type} (step : S -> nat -> S) (n i0 : nat) (c0 c1 : S) :
  (i0 < n)%nat ->
  (forall i, (i < i0)%nat -> step c0 i = c0) ->
  step c0 i0 = c1 ->
  (forall i, (i0 < i < n)%nat -> step c1 i = c1) ->
  fold_left step (seq 0 n) c0 = c1.
Proof.
  intros Hi H0 Hs H1. rewrite (seq_split_at n i0 Hi), fold_left_app. cbn [fold_left].
  rewrite (fold_left_noop step (seq 0 i0)).
  - rewrite Hs. apply fold_left_noop, Forall_forall. intros i Hin.
    apply elem_of_seq in Hin. apply H1. lia.
  - apply Forall_forall. intros i Hin. apply elem_of_seq in Hin. apply H0. lia.
Qed.

Lemma slow_mul_row_other i0 j0 i c :
  (i < 256)%nat -> i <> j0 -> reduced c ->
  fold_left (fun c j => slow_mul_step (basis 256 i0) (basis 256 j0) i j c) (seq 0 256) c = c.
Proof.
  intros Hi Hne Hc. apply fold_left_noop, Forall_forall. intros j _.
  apply slow_mul_step_noop; [|exact Hc].
  rewrite (basis_lookup_ne 256 j0 i) by (try lia; congruence). ring.
Qed.

(** Row j0 turns the zero vector into X^(i0 + j0). *)
Lemma slow_mul_row_j0 i0 j0 :
  (i0 < 256)%nat -> (j0 < 256)%nat ->
  fold_left (fun c j => slow_mul_step (basis 256 i0) (basis 256 j0) j0 j c) (seq 0 256)
            (replicate 511 0)
  = basis 511 (i0 + j0).
Proof.
  intros Hi0 Hj0. apply (fold_left_single _ 256 i0); [exact Hi0| | |].
  - intros j Hj. apply slow_mul_step_noop; [|apply reduced_replicate].
    rewrite (basis_lookup_ne 256 i0 j) by lia. ring.
  - unfold slow_mul_step. rewrite !basis_lookup_eq by assumption.
    rewrite lookup_total_replicate_2 by lia. unfold basis.
    replace (j0 + i0)%nat with (i0 + j0)%nat by lia. reflexivity.
  - intros j Hj. apply slow_mul_step_noop; [|apply reduced_basis].
    rewrite (basis_lookup_ne 256 i0 j) by lia. ring.
Qed.

Lemma slow_mul_rows i0 j0 :
  (i0 < 256)%nat -> (j0 < 256)%nat ->
  fold_left (fun c i => fold_left (fun c j =>
               slow_mul_step (basis 256 i0) (basis 256 j0) i j c) (seq 0 256) c)
            (seq 0 256) (replicate 511 0)
  = basis 511 (i0 + j0).
Proof.
  intros Hi0 Hj0. apply (fold_left_single _ 256 j0); [exact Hj0| | |].
  - intros i Hi. apply slow_mul_row_other; [lia|lia|apply reduced_replicate].
  - apply slow_mul_row_j0; assumption.
  - intros i Hi. apply slow_mul_row_other; [lia|lia|apply reduced_basis].
Qed.

Lemma slow_mul_reduce_step_noop i c :
  c !!! (i + 256)%nat = 0 -> reduced c -> slow_mul_reduce_step i c = c.
Proof.
  intros H0 Hc. unfold slow_mul_reduce_step. rewrite H0, Z.sub_0_r.
  destruct (Nat.lt_ge_cases i (length c)) as [Hi|Hi].
  - rewrite Z.mod_small by (apply reduced_lookup; assumption). apply insert_same.
  - apply list_insert_ge, Hi.
Qed.

Lemma take_basis_lt n : (n < 256)%nat -> take 256 (basis 511 n) = basis 256 n.
Proof.
  intros Hn. unfold basis. rewrite take_insert_lt by exact Hn.
  rewrite take_replicate. reflexivity.
Qed.

Lemma slow_mul_reduce_monomial n :
  (n < 511)%nat ->
  take 256 (fold_left (fun c i => slow_mul_reduce_step i c) (seq 0 255) (basis 511 n))
  = monomial n.
Proof.
  intros Hn. unfold monomial. destruct (Nat.ltb_spec n 256) as [Hlt|Hge].
  - rewrite fold_left_noop; [apply take_basis_lt, Hlt|].
    apply Forall_forall. intros i Hi. apply elem_of_seq in Hi.
    apply slow_mul_reduce_step_noop; [|apply reduced_basis].
    apply basis_lookup_ne; lia.
  - rewrite (fold_left_single _ 255 (n - 256) (basis 511 n)
               (<[(n - 256)%nat := Q - 1]> (basis 511 n))).
    + rewrite take_insert_lt by lia. unfold basis, neg_basis.
      rewrite take_insert. case_decide; [lia|]. rewrite take_replicate. reflexivity.
    + lia.
    + intros i Hi. apply slow_mul_reduce_step_noop; [|apply reduced_basis].
      apply basis_lookup_ne; lia.
    + unfold slow_mul_reduce_step. replace (n - 256 + 256)%nat with n by lia.
      rewrite basis_lookup_eq by exact Hn.
      rewrite basis_lookup_ne by lia. reflexivity.
    + intros i Hi. apply slow_mul_reduce_step_noop.
      * rewrite list_lookup_total_insert_ne by lia. apply basis_lookup_ne; lia.
      * apply Forall_insert; [apply reduced_basis|unfold Q; lia].
Qed.

Lemma slow_mul_loops_basis i j :
  (i < 256)%nat -> (j < 256)%nat ->
  slow_mul_loops (basis 256 i) (basis 256 j) = monomial (i + j).
Proof.
  intros Hi Hj. unfold slow_mul_loops. rewrite slow_mul_rows by assumption.
  apply slow_mul_reduce_monomial. lia.
Qed.

(** * Lengths and ranges of the results *)

Lemma lin3_self n x : length x = n -> lin3 n 1 0 x x x.
Proof. intros Hx. repeat split; auto. intros i _. apply eqQ_ring. ring. Qed.

Lemma length_ntt_fun x : length x = 256%nat -> length (ntt_fun x) = 256%nat.
Proof. intros Hx. unfold ntt_fun. apply (ntt_loops_lin3 1 0 x x x (lin3_self 256 x Hx)). Qed.

Lemma length_ntt_inv_loops x : length x = 256%nat -> length (ntt_inv_loops x) = 256%nat.
Proof. intros Hx. apply (ntt_inv_loops_lin3 1 0 x x x (lin3_self 256 x Hx)). Qed.

Lemma length_slow_mul_loops a b :
  length a = 256%nat -> length (slow_mul_loops a b) = 256%nat.
Proof. intros Ha. apply (slow_mul_loops_lin3_l 1 0 b a a a (lin3_self 256 a Ha)). Qed.

Lemma length_scale_fold l f : length (fold_left ntt_inv_scale_step l f) = length f.
Proof.
  apply (fold_left_inv (fun g => length g = length f) ntt_inv_scale_step (fun _ => True));
    [|apply Forall_forall; auto|reflexivity].
  intros a s _ Hs. unfold ntt_inv_scale_step. rewrite length_insert. exact Hs.
Qed.

Lemma scale_fold_lookup n : forall f i,
  (n <= length f)%nat -> (i < length f)%nat ->
  fold_left ntt_inv_scale_step (seq 0 n) f !!! i
  = if (i <? n)%nat then (f !!! i * 3303) mod Q else f !!! i.
Proof.
  induction n as [|n IH]; intros f i Hn Hi; [reflexivity|].
  rewrite seq_S, fold_left_app. cbn [fold_left Nat.add].
  unfold ntt_inv_scale_step at 1.
  rewrite list_lookup_total_insert, length_scale_fold.
  rewrite (IH f i) by lia. rewrite (IH f n) by lia.
  destruct (Nat.ltb_spec n n); [lia|].
  case_decide as Hd.
  - destruct Hd as [-> _]. destruct (Nat.ltb_spec i (S i)); [reflexivity|lia].
  - assert (Hne : i <> n) by (intros ->; apply Hd; split; [reflexivity|lia]).
    destruct (Nat.ltb_spec i n); destruct (Nat.ltb_spec i (S n)); try lia; reflexivity.
Qed.

Lemma reduced_scale_fold g :
  length g = 256%nat -> reduced (fold_left ntt_inv_scale_step (seq 0 256) g).
Proof.
  intros Hg. unfold reduced. apply Forall_lookup. intros i c Hc.
  pose proof (lookup_lt_Some _ _ _ Hc) as Hi. rewrite length_scale_fold, Hg in Hi.
  apply list_lookup_total_correct in Hc. subst c. rewrite scale_fold_lookup by lia.
  destruct (Nat.ltb_spec i 256); [|lia]. apply Z.mod_pos_bound. unfold Q. lia.
Qed.

Lemma ntt_inv_loops_eq x :
  ntt_inv_loops x =
  fold_left ntt_inv_scale_step (seq 0 256)
    (f_out (fold_left ntt_inv_layer (seq 1 7) {| f_out := x; k := 127; zeta_reads := [] |})).
Proof. reflexivity. Qed.

Lemma reduced_ntt_inv_loops x : length x = 256%nat -> reduced (ntt_inv_loops x).
Proof.
  intros Hx. pose proof (length_ntt_inv_loops x Hx) as Hl.
  rewrite ntt_inv_loops_eq in Hl |- *.
  rewrite length_scale_fold in Hl. apply reduced_scale_fold, Hl.
Qed.

Lemma reduced_slow_mul_loops a b : reduced (slow_mul_loops a b).
Proof.
  unfold slow_mul_loops, reduced. apply Forall_take. fold (reduced).
  apply (fold_left_inv reduced _ (fun _ => True)); [|apply Forall_forall; auto|].
  { intros i c _ Hc. unfold slow_mul_reduce_step.
    apply Forall_insert; [exact Hc|apply Z.mod_pos_bound; unfold Q; lia]. }
  apply (fold_left_inv reduced _ (fun _ => True)); [|apply Forall_forall; auto|].
  { intros i c _ Hc.
    apply (fold_left_inv reduced _ (fun _ => True)); [|apply Forall_forall; auto|exact Hc].
    intros j d _ Hd. unfold slow_mul_step.
    apply Forall_insert; [exact Hd|apply Z.mod_pos_bound; unfold Q; lia]. }
  apply reduced_replicate.
Qed.

(** * The round trip and the product *)

Lemma eqv_refl x : length x = 256%nat -> eqv 256 x x.
Proof. intros Hx. repeat split; auto. Qed.

Lemma monomial_lt i : (i < 256)%nat -> monomial i = basis 256 i.
Proof. intros Hi. unfold monomial. destruct (Nat.ltb_spec i 256); [reflexivity|lia]. Qed.

Lemma ntt_done f : length f = 256%nat -> ntt f = Done (ntt_fun f).
Proof.
  intros Hf. unfold ntt, ntt_fun. rewrite Hf. change (256 <? 256)%nat with false.
  reflexivity.
Qed.

Lemma ntt_inv_done f : length f = 256%nat -> ntt_inv f = Done (ntt_inv_loops f).
Proof.
  intros Hf. unfold ntt_inv, ntt_inv_loops. rewrite Hf. change (256 <? 256)%nat with false.
  reflexivity.
Qed.

Lemma ntt_mul_done a b :
  length a = 256%nat -> length b = 256%nat -> ntt_mul a b = Done (ntt_mul_loop a b).
Proof.
  intros Ha Hb. unfold ntt_mul, ntt_mul_loop. rewrite Ha, Hb.
  change (256 <? 256)%nat with false.
  reflexivity.
Qed.

Lemma poly256_slow_mul_done a b :
  length a = 256%nat -> length b = 256%nat ->
  poly256_slow_mul a b = Done (slow_mul_loops a b).
Proof.
  intros Ha Hb. unfold poly256_slow_mul, slow_mul_loops. rewrite Ha, Hb.
  change (256 <? 256)%nat with false. reflexivity.
Qed.

Lemma ntt_fun_lin3 al be x u v :
  lin3 256 al be x u v -> lin3 256 al be (ntt_fun x) (ntt_fun u) (ntt_fun v).
Proof. unfold ntt_fun. apply ntt_loops_lin3. Qed.

#[local] Opaque ntt_fun ntt_inv_loops ntt_mul_loop slow_mul_loops ntt_monomial monomial basis.

Lemma ntt_inv_ntt_loops f :
  length f = 256%nat -> reduced f -> ntt_inv_loops (ntt_fun f) = f.
Proof.
  intros Hf Rf. apply eqv_reduced_eq; [|apply reduced_ntt_inv_loops, length_ntt_fun, Hf|exact Rf].
  apply (lin_ext (fun x => ntt_inv_loops (ntt_fun x)) (fun x => x)); [| | |exact Hf].
  - intros al be x u v H. apply ntt_inv_loops_lin3, ntt_fun_lin3, H.
  - intros al be x u v H. exact H.
  - intros i Hi. rewrite (ntt_fun_basis i), (ntt_inv_loops_monomial i), (monomial_lt i) by lia.
    apply eqv_refl, length_basis.
Qed.

Lemma ntt_product_basis i j :
  (i < 256)%nat -> (j < 256)%nat ->
  ntt_product (basis 256 i) (basis 256 j) = slow_mul_loops (basis 256 i) (basis 256 j).
Proof.
  intros Hi Hj. unfold ntt_product.
  rewrite (ntt_fun_basis i), (ntt_fun_basis j) by assumption.
  rewrite (ntt_mul_loop_monomial i j), (ntt_inv_loops_monomial (i + j)) by lia.
  symmetry. apply slow_mul_loops_basis; assumption.
Qed.

Lemma ntt_product_eqv a b :
  length a = 256%nat -> length b = 256%nat ->
  eqv 256 (ntt_product a b) (slow_mul_loops a b).
Proof.
  intros Ha Hb.
  apply (lin_ext (ntt_product a) (slow_mul_loops a)); [| | |exact Hb].
  - intros al be x u v H. unfold ntt_product.
    apply ntt_inv_loops_lin3, ntt_mul_loop_lin3_r, ntt_fun_lin3, H.
  - intros al be x u v H. apply slow_mul_loops_lin3_r, H.
  - intros j Hj.
    apply (lin_ext (fun x => ntt_product x (basis 256 j))
                   (fun x => slow_mul_loops x (basis 256 j))); [| | |exact Ha].
    + intros al be x u v H. unfold ntt_product.
      apply ntt_inv_loops_lin3, ntt_mul_loop_lin3_l, ntt_fun_lin3, H.
    + intros al be x u v H. apply slow_mul_loops_lin3_l, H.
    + intros i Hi. rewrite ntt_product_basis by assumption.
      apply eqv_refl, length_slow_mul_loops, length_basis.
Qed.

Lemma ntt_product_slow_mul a b :
  length a = 256%nat -> length b = 256%nat -> ntt_product a b = slow_mul_loops a b.
Proof.
  intros Ha Hb. apply eqv_reduced_eq; [apply ntt_product_eqv; assumption| |].
  - apply reduced_ntt_inv_loops, length_ntt_mul_loop.
  - apply reduced_slow_mul_loops.
Qed.

(** C4.  For every polynomial f of 256 coefficients, each in [0, 3329),
    ntt(f) returns and ntt_inv(ntt(f)) returns f. *)
Theorem ntt_roundtrip (f : list Z) :
  length f = 256%nat -> Forall (fun c => 0 <= c < 3329) f ->
  exists g, ntt f = Done g /\ ntt_inv g = Done f.
Proof.
  intros Hf Rf. exists (ntt_fun f). split; [apply ntt_done, Hf|].
  rewrite ntt_inv_done by apply length_ntt_fun, Hf.
  f_equal. apply ntt_inv_ntt_loops; assumption.
Qed.

Lemma reduced_demo_a : Forall (fun c => 0 <= c < 3329) demo_a.
Proof.
  unfold demo_a. apply Forall_forall. intros x Hx.
  apply list_elem_of_fmap in Hx as (i & -> & Hi). apply elem_of_seq in Hi. lia.
Qed.

Lemma reduced_demo_b : Forall (fun c => 0 <= c < 3329) demo_b.
Proof.
  unfold demo_b. apply Forall_forall. intros x Hx.
  apply list_elem_of_fmap in Hx as (i & -> & Hi). apply elem_of_seq in Hi. lia.
Qed.

Lemma ntt_roundtrip_witness : exists g, ntt demo_a = Done g /\ ntt_inv g = Done demo_a.
Proof. apply (ntt_roundtrip demo_a); [reflexivity|apply reduced_demo_a]. Defined.

(** C5.  For all polynomials a, b of 256 coefficients, each in [0, 3329),
    the transforms, the pointwise product and the inverse transform return,
    and ntt_inv(ntt_mul(ntt(a), ntt(b))) is the list poly256_slow_mul(a, b)
    returns: the pointwise product in the transformed domain refines the
    textbook negacyclic product. *)
Theorem ntt_mul_refines_slow_mul (a b : list Z) :
  length a = 256%nat -> length b = 256%nat ->
  Forall (fun c => 0 <= c < 3329) a -> Forall (fun c => 0 <= c < 3329) b ->
  exists ah bh ch r,
    ntt a = Done ah /\ ntt b = Done bh /\ ntt_mul ah bh = Done ch
    /\ ntt_inv ch = Done r /\ poly256_slow_mul a b = Done r.
Proof.
  intros Ha Hb _ _.
  exists (ntt_fun a), (ntt_fun b), (ntt_mul_loop (ntt_fun a) (ntt_fun b)),
         (slow_mul_loops a b).
  split; [apply ntt_done, Ha|]. split; [apply ntt_done, Hb|].
  split; [apply ntt_mul_done; apply length_ntt_fun; assumption|].
  split; [|apply poly256_slow_mul_done; assumption].
  rewrite ntt_inv_done by apply length_ntt_mul_loop.
  exact (f_equal Done (ntt_product_slow_mul a b Ha Hb)).
Qed.

Lemma ntt_mul_refines_slow_mul_witness :
  exists ah bh ch r,
    ntt demo_a = Done ah /\ ntt demo_b = Done bh /\ ntt_mul ah bh = Done ch
    /\ ntt_inv ch = Done r /\ poly256_slow_mul demo_a demo_b = Done r.
Proof.
  apply (ntt_mul_refines_slow_mul demo_a demo_b);
    [reflexivity|reflexivity|apply reduced_demo_a|apply reduced_demo_b].
Defined.

#[local] Transparent ntt_fun ntt_inv_loops ntt_mul_loop slow_mul_loops ntt_monomial monomial basis.

(** * Outcomes of list comprehensions *)

Lemma mapO_inv {A B : Type} (f : A -> outcome B) l ys :
  mapO f l = Done ys -> Forall2 (fun x y => f x = Done y) l ys.
Proof.
  revert ys. induction l as [|x l IH]; intros ys H; simpl in H.
  - injection H as <-. constructor.
  - destruct (f x) as [y| |] eqn:Hx; try discriminate H. cbn [mbind outcome_bind] in H.
    destruct (mapO f l) as [ys'| |]; try discriminate H. cbn [mbind outcome_bind] in H.
    injection H as <-. constructor; auto.
Qed.

Lemma mapO_total {A B : Type} (f : A -> outcome B) (P : A -> B -> Prop) l :
  (forall x, x ∈ l -> exists y, f x = Done y /\ P x y) ->
  exists ys, mapO f l = Done ys /\ Forall2 P l ys.
Proof.
  induction l as [|x l IH]; intros H; simpl.
  - exists []. split; [reflexivity|constructor].
  - destruct (H x ltac:(left)) as (y & Hy & Py). rewrite Hy. cbn [mbind outcome_bind].
    destruct IH as (ys & Hys & Pys); [intros x' Hx'; apply H; right; exact Hx'|].
    rewrite Hys. cbn [mbind outcome_bind]. exists (y :: ys). split; [reflexivity|].
    constructor; assumption.
Qed.

Lemma Forall2_seq_lookup {B : Type} `{!Inhabited B} (P : nat -> B -> Prop) n ys :
  Forall2 P (seq 0 n) ys ->
  length ys = n /\ forall i, (i < n)%nat -> P i (ys !!! i).
Proof.
  intros H. pose proof (Forall2_length _ _ _ H) as Hl. rewrite length_seq in Hl.
  split; [lia|]. intros i Hi.
  destruct (lookup_lt_is_Some_2 ys i ltac:(lia)) as [y Hy].
  rewrite (list_lookup_total_correct _ _ _ Hy).
  eapply Forall2_lookup_lr; [exact H| |exact Hy].
  apply lookup_seq_lt. exact Hi.
Qed.

Lemma length_concat_const {B : Type} (n : nat) (l : list (list B)) :
  Forall (fun x => length x = n) l -> length (concat l) = (length l * n)%nat.
Proof.
  induction 1 as [|x l Hx _ IH]; simpl; [reflexivity|].
  rewrite length_app, Hx, IH. reflexivity.
Qed.

(** * The byte codec *)

Lemma length_bytes_to_bits data : length (bytes_to_bits data) = (length data * 8)%nat.
Proof.
  unfold bytes_to_bits. apply length_flat_map_const. intros w. reflexivity.
Qed.

Lemma byte_decode_total d data :
  (256 * d <= length data * 8)%nat ->
  exists f, byte_decode d data = Done f /\ length f = 256%nat.
Proof.
  intros H. unfold byte_decode. rewrite length_bytes_to_bits.
  destruct (Nat.ltb_spec (length data * 8) (256 * d)); [lia|].
  eexists. split; [reflexivity|]. rewrite length_map, length_seq. reflexivity.
Qed.

Lemma fold_left_add_shifted_bound (b : nat -> Z) n : forall s acc,
  (forall j, (s <= j < s + n)%nat -> 0 <= b j <= 1) ->
  acc <= fold_left Z.add (map (fun j => Z.shiftl (b j) (Z.of_nat j)) (seq s n)) acc
      <= acc + 2 ^ Z.of_nat (s + n) - 2 ^ Z.of_nat s.
Proof.
  induction n as [|n IH]; intros s acc Hb; simpl.
  - rewrite Nat.add_0_r. lia.
  - specialize (IH (S s) (acc + Z.shiftl (b s) (Z.of_nat s))).
    assert (Hs : 0 <= Z.shiftl (b s) (Z.of_nat s) <= 2 ^ Z.of_nat s).
    { rewrite Z.shiftl_mul_pow2 by lia. specialize (Hb s ltac:(lia)).
      assert (0 < 2 ^ Z.of_nat s) by (apply Z.pow_pos_nonneg; lia). nia. }
    destruct IH as [IH1 IH2]; [intros j Hj; apply Hb; lia|].
    replace (S s + n)%nat with (s + S n)%nat in IH2 by lia.
    replace (Z.of_nat (S s)) with (Z.of_nat s + 1) in IH2 by lia.
    rewrite Z.pow_add_r, Z.pow_1_r in IH2 by lia. lia.
Qed.

Lemma sum_shifted_bound v i d :
  (forall j, (j < d)%nat -> 0 <= v !!! (i + j)%nat <= 1) ->
  0 <= sum_shifted v i d < 2 ^ Z.of_nat d.
Proof.
  intros H. unfold sum_shifted.
  pose proof (fold_left_add_shifted_bound (fun j => v !!! (i + j)%nat) d 0 0) as Hb.
  cbn beta in Hb. destruct Hb as [H1 H2]; [intros j Hj; apply H; lia|].
  change (2 ^ Z.of_nat 0) with 1 in H2. rewrite Nat.add_0_l in H2. lia.
Qed.

Lemma length_range3_0 n step :
  (0 < step)%nat -> length (range3 0 (n * step) step) = n.
Proof.
  intros Hs. unfold range3. rewrite length_map, length_seq, Nat.sub_0_r.
  replace (n * step + step - 1)%nat with (step - 1 + n * step)%nat by lia.
  rewrite Nat.div_add by lia. rewrite Nat.div_small by lia. reflexivity.
Qed.

Lemma elem_of_range3_0 n step x :
  (0 < step)%nat -> x ∈ range3 0 (n * step) step -> (x + step <= n * step)%nat.
Proof.
  intros Hs Hx. unfold range3 in Hx. apply list_elem_of_fmap in Hx as (i & -> & Hi).
  apply elem_of_seq in Hi. rewrite Nat.sub_0_r in Hi.
  replace (n * step + step - 1)%nat with (step - 1 + n * step)%nat in Hi by lia.
  rewrite Nat.div_add in Hi by lia. rewrite Nat.div_small in Hi by lia. nia.
Qed.

Lemma bits_to_bytes_total bits n :
  length bits = (n * 8)%nat -> Forall (fun b => 0 <= b <= 1) bits ->
  exists bs, bits_to_bytes bits = Done bs /\ length bs = n.
Proof.
  intros Hl Hb. unfold bits_to_bytes. rewrite Hl, Nat.Div0.mod_mul.
  cbn [Nat.eqb assert mbind outcome_bind].
  set (vals := map _ _).
  assert (Hv : forallb (fun v => (0 <=? v) && (v <? 256)) vals = true).
  { apply forallb_forall. intros v Hv. apply in_map_iff in Hv as (i & <- & Hi).
    apply list_elem_of_In, (elem_of_range3_0 n 8 i ltac:(lia)) in Hi.
    destruct (sum_shifted_bound bits i 8) as [H0 H1].
    - intros j Hj. apply (Forall_lookup_1 _ _ (i + j)%nat _ Hb).
      apply list_lookup_lookup_total_lt. lia.
    - change (2 ^ Z.of_nat 8) with 256 in H1.
      apply andb_true_iff. split; [apply Z.leb_le|apply Z.ltb_lt]; assumption. }
  rewrite Hv. exists vals. split; [reflexivity|].
  unfold vals. rewrite length_map. apply length_range3_0. lia.
Qed.

Lemma land_1_range x : 0 <= Z.land x 1 <= 1.
Proof.
  assert (H : Z.land x 1 = x mod 2).
  { change 1 with (Z.ones 1). rewrite Z.land_ones by lia. reflexivity. }
  rewrite H. pose proof (Z.mod_pos_bound x 2 ltac:(lia)). lia.
Qed.

Lemma byte_encode_total d f :
  length f = 256%nat -> exists bs, byte_encode d f = Done bs /\ length bs = (32 * d)%nat.
Proof.
  intros Hf. unfold byte_encode. rewrite Hf. cbn [Nat.eqb assert mbind outcome_bind].
  apply bits_to_bytes_total.
  - rewrite (length_flat_map_const _ d); [rewrite Hf; lia|].
    intros a. rewrite length_map, length_seq. reflexivity.
  - apply Forall_flat_map, Forall_forall. intros a _. apply Forall_map, Forall_forall.
    intros i _. apply land_1_range.
Qed.

Lemma byte_encode_length d f bs : byte_encode d f = Done bs -> length bs = (32 * d)%nat.
Proof.
  intros H. destruct (Nat.eq_dec (length f) 256%nat) as [Hf|Hf].
  - destruct (byte_encode_total d f Hf) as (bs' & H' & Hl). congruence.
  - unfold byte_encode in H. apply Nat.eqb_neq in Hf. rewrite Hf in H. discriminate H.
Qed.

Lemma sample_poly_cbd_total eta data :
  length data = (64 * eta)%nat ->
  exists f, sample_poly_cbd eta data = Done f /\ length f = 256%nat.
Proof.
  intros H. unfold sample_poly_cbd. rewrite H, Nat.eqb_refl.
  cbn [assert mbind outcome_bind]. eexists. split; [reflexivity|].
  rewrite length_map, length_seq. reflexivity.
Qed.

Lemma length_compress d x : length (compress d x) = length x.
Proof. apply length_map. Qed.

Lemma length_decompress d x : length (decompress d x) = length x.
Proof. apply length_map. Qed.

Lemma length_poly256_add a b :
  length a = 256%nat -> length b = 256%nat -> length (poly256_add a b) = 256%nat.
Proof. intros Ha Hb. unfold poly256_add. rewrite length_zip_with. lia. Qed.

Lemma length_poly256_sub a b :
  length a = 256%nat -> length b = 256%nat -> length (poly256_sub a b) = 256%nat.
Proof. intros Ha Hb. unfold poly256_sub. rewrite length_zip_with. lia. Qed.

Lemma ntt_total f : length f = 256%nat -> exists g, ntt f = Done g /\ length g = 256%nat.
Proof.
  intros Hf. exists (ntt_fun f). split; [apply ntt_done, Hf|apply length_ntt_fun, Hf].
Qed.

Lemma ntt_inv_total f :
  length f = 256%nat -> exists g, ntt_inv f = Done g /\ length g = 256%nat.
Proof.
  intros Hf. exists (ntt_inv_loops f).
  split; [apply ntt_inv_done, Hf|apply length_ntt_inv_loops, Hf].
Qed.

Lemma ntt_mul_total a b :
  length a = 256%nat -> length b = 256%nat ->
  exists c, ntt_mul a b = Done c /\ length c = 256%nat.
Proof.
  intros Ha Hb. exists (ntt_mul_loop a b).
  split; [apply ntt_mul_done; assumption|apply length_ntt_mul_loop].
Qed.

Lemma sample_ntt_length fuel xof res : sample_ntt fuel xof = Done res -> length res = 256%nat.
Proof. unfold sample_ntt. apply sample_ntt_loop_length. simpl. lia. Qed.

(** * Fuel: more is as good *)

Lemma grow_mono fuel : forall fuel' n s s',
  (fuel <= fuel')%nat -> grow fuel n s = Done s' -> grow fuel' n s = Done s'.
Proof.
  induction fuel as [|fuel IH]; intros fuel' n s s' Hle H.
  - simpl in H. destruct (length (buf s) <? offset s + n)%nat eqn:E; [discriminate H|].
    destruct fuel'; simpl; rewrite E; exact H.
  - destruct fuel' as [|fuel']; [lia|]. simpl in H |- *.
    destruct (length (buf s) <? offset s + n)%nat; [|exact H].
    apply IH; [lia|exact H].
Qed.

Lemma read_mono fuel fuel' n s r :
  (fuel <= fuel')%nat -> read fuel n s = Done r -> read fuel' n s = Done r.
Proof.
  intros Hle H. unfold read in *.
  destruct (grow fuel n s) as [s'| |] eqn:E; try discriminate H.
  rewrite (grow_mono fuel fuel' n s s' Hle E). exact H.
Qed.

Lemma sample_ntt_loop_mono fuel : forall rfuel rfuel' fuel' xof res out,
  (rfuel <= rfuel')%nat -> (fuel <= fuel')%nat ->
  sample_ntt_loop rfuel fuel xof res = Done out ->
  sample_ntt_loop rfuel' fuel' xof res = Done out.
Proof.
  induction fuel as [|fuel IH]; intros rfuel rfuel' fuel' xof res out Hr Hf H;
    rewrite sample_ntt_loop_eq in H |- *;
    destruct (length res <? 256)%nat; try exact H; try discriminate H.
  destruct fuel' as [|fuel']; [lia|].
  destruct (read rfuel 3 xof) as [[chunk xof']| |] eqn:E; try discriminate H.
  rewrite (read_mono rfuel rfuel' 3 xof _ Hr E). cbn [mbind outcome_bind] in H |- *.
  destruct chunk as [|a [|b [|c [|]]]]; try discriminate H.
  apply (IH rfuel); [exact Hr|lia|exact H].
Qed.

Lemma sample_ntt_mono fuel fuel' xof out :
  (fuel <= fuel')%nat -> sample_ntt fuel xof = Done out -> sample_ntt fuel' xof = Done out.
Proof. intros Hle. unfold sample_ntt. apply sample_ntt_loop_mono; exact Hle. Qed.

Lemma mapO_mono {A B : Type} (f g : A -> outcome B) l ys :
  (forall x y, f x = Done y -> g x = Done y) -> mapO f l = Done ys -> mapO g l = Done ys.
Proof.
  intros Hfg. revert ys. induction l as [|x l IH]; intros ys H; simpl in *; [exact H|].
  destruct (f x) as [y| |] eqn:Hx; try discriminate H. rewrite (Hfg x y Hx).
  cbn [mbind outcome_bind] in *.
  destruct (mapO f l) as [ys'| |]; try discriminate H. rewrite (IH ys' eq_refl). exact H.
Qed.

Lemma sample_ahat_mono fuel fuel' rho A :
  (fuel <= fuel')%nat -> sample_ahat fuel rho = Done A -> sample_ahat fuel' rho = Done A.
Proof.
  intros Hle. unfold sample_ahat. apply mapO_mono. intros i row.
  apply mapO_mono. intros j y. apply sample_ntt_mono, Hle.
Qed.

(** * Lengths of the hashes *)

Lemma length_mlkem_hash_G x : length (mlkem_hash_G x) = 64%nat.
Proof. apply length_sha3_512. Qed.

Lemma length_mlkem_hash_H x : length (mlkem_hash_H x) = 32%nat.
Proof. apply length_sha3_256. Qed.

Lemma length_mlkem_hash_J x : length (mlkem_hash_J x) = 32%nat.
Proof. apply length_shake_256. Qed.

Lemma length_mlkem_prf eta data b : length (mlkem_prf eta data b) = (64 * eta)%nat.
Proof. apply length_shake_256. Qed.

#[local] Opaque ntt ntt_inv ntt_mul byte_encode byte_decode sample_poly_cbd compress
  decompress poly256_add poly256_sub sample_ntt mlkem_prf mlkem_xof mlkem_hash_G
  mlkem_hash_H mlkem_hash_J.

(** * The matrix *)

Lemma sample_ahat_entries fuel rho A :
  sample_ahat fuel rho = Done A ->
  length A = 3%nat
  /\ forall i j, (i < 3)%nat -> (j < 3)%nat ->
       sample_ntt fuel (mlkem_xof rho i j) = Done ((A !!! i) !!! j)
       /\ length ((A !!! i) !!! j) = 256%nat.
Proof.
  intros H. unfold sample_ahat in H. apply mapO_inv, Forall2_seq_lookup in H as [Hl H].
  split; [exact Hl|]. intros i j Hi Hj.
  specialize (H i Hi). cbn beta in H.
  apply mapO_inv, Forall2_seq_lookup in H as [_ H]. specialize (H j Hj). cbn beta in H.
  split; [exact H|]. eapply sample_ntt_length, H.
Qed.

(** Three products summed with [reduce(ntt_add, ...)]. *)
Lemma prods_reduce_total (g : nat -> outcome (list Z)) :
  (forall i, (i < 3)%nat -> exists y, g i = Done y /\ length y = 256%nat) ->
  exists prods, mapO g (seq 0 K) = Done prods
    /\ Forall (fun y => length y = 256%nat) prods
    /\ exists acc, reduce ntt_add prods = Done acc /\ length acc = 256%nat.
Proof.
  intros Hg.
  destruct (mapO_total g (fun _ y => length y = 256%nat) (seq 0 K)) as (prods & Hp & HP).
  { intros i Hi. apply elem_of_seq in Hi. apply Hg. unfold K in Hi. lia. }
  exists prods. split; [exact Hp|].
  pose proof (Forall2_length _ _ _ HP) as Hl. rewrite length_seq in Hl. unfold K in Hl.
  assert (HF : Forall (fun y => length y = 256%nat) prods).
  { apply Forall2_Forall_r with (P := fun _ y => length y = 256%nat) (l := seq 0 K);
      [exact HP|]. apply Forall_forall. intros; assumption. }
  split; [exact HF|].
  destruct prods as [|p0 [|p1 [|p2 [|]]]]; try discriminate Hl.
  inversion HF as [|? ? H0 HF1]; subst. inversion HF1 as [|? ? H1 HF2]; subst.
  inversion HF2 as [|? ? H2 _]; subst.
  eexists. split; [reflexivity|]. cbn [fold_left]. unfold ntt_add.
  apply length_poly256_add; [apply length_poly256_add; assumption|assumption].
Qed.

(** * K-PKE returns on inputs of the declared sizes *)

Ltac step_bind H :=
  rewrite H; cbn [mbind outcome_bind].

Lemma length_slice_exact {B : Type} (a b : nat) (x : list B) :
  (a <= b)%nat -> (b <= length x)%nat -> length (slice a b x) = (b - a)%nat.
Proof. intros Hab Hb. unfold slice. rewrite length_take, length_drop. lia. Qed.

Lemma cbd_ntt_total eta data :
  length data = (64 * eta)%nat ->
  exists g, (f ← sample_poly_cbd eta data; ntt f) = Done g /\ length g = 256%nat.
Proof.
  intros Hd. destruct (sample_poly_cbd_total eta data Hd) as (f & Hf & Hl).
  step_bind Hf. apply ntt_total, Hl.
Qed.

Lemma kpke_encrypt_total fuel ek m r A :
  length ek = 1184%nat -> sample_ahat fuel (last_n 32 ek) = Done A -> (32 <= length m)%nat ->
  exists c, kpke_encrypt fuel ek m r = Done c /\ length c = 1088%nat.
Proof.
  intros Hek HA Hm. unfold kpke_encrypt.
  destruct (sample_ahat_entries _ _ _ HA) as [_ HAe].
  (* that *)
  destruct (mapO_total
              (fun i => byte_decode 12 (slice (i * 128 * K) ((i + 1) * 128 * K) ek))
              (fun _ y => length y = 256%nat) (seq 0 K)) as (that & Hthat & Pthat).
  { intros i Hi. apply elem_of_seq in Hi. unfold K in *. apply byte_decode_total.
    rewrite length_slice_exact by lia. lia. }
  step_bind Hthat. apply Forall2_seq_lookup in Pthat as [_ Pthat].
  step_bind HA.
  (* rhat *)
  destruct (mapO_total
              (fun i => f ← sample_poly_cbd ETA1 (mlkem_prf ETA1 r i); ntt f)
              (fun _ y => length y = 256%nat) (seq 0 K)) as (rhat & Hrhat & Prhat).
  { intros i _. apply cbd_ntt_total, length_mlkem_prf. }
  step_bind Hrhat. apply Forall2_seq_lookup in Prhat as [_ Prhat].
  (* e1, e2 *)
  destruct (mapO_total
              (fun i => sample_poly_cbd ETA2 (mlkem_prf ETA2 r (i + K)))
              (fun _ y => length y = 256%nat) (seq 0 K)) as (e1 & He1 & Pe1).
  { intros i _. apply sample_poly_cbd_total, length_mlkem_prf. }
  step_bind He1. apply Forall2_seq_lookup in Pe1 as [_ Pe1].
  destruct (sample_poly_cbd_total ETA2 (mlkem_prf ETA2 r (2 * K)) (length_mlkem_prf _ _ _))
    as (e2 & He2 & Le2).
  step_bind He2.
  (* u *)
  destruct (mapO_total
              (fun i =>
                 prods ← mapO (fun j => ntt_mul ((A !!! i) !!! j) (rhat !!! j)) (seq 0 K);
                 acc ← reduce ntt_add prods;
                 w ← ntt_inv acc;
                 Done (poly256_add w (e1 !!! i)))
              (fun _ y => length y = 256%nat) (seq 0 K)) as (u & Hu & Pu).
  { intros i Hi. apply elem_of_seq in Hi. unfold K in Hi.
    destruct (prods_reduce_total (fun j => ntt_mul ((A !!! i) !!! j) (rhat !!! j)))
      as (prods & Hp & _ & acc & Hacc & Lacc).
    { intros j Hj. apply ntt_mul_total; [apply HAe; lia|apply Prhat; unfold K; lia]. }
    step_bind Hp. step_bind Hacc.
    destruct (ntt_inv_total acc Lacc) as (w & Hw & Lw). step_bind Hw.
    eexists. split; [reflexivity|].
    apply length_poly256_add; [exact Lw|apply Pe1; unfold K; lia]. }
  step_bind Hu. apply Forall2_seq_lookup in Pu as [_ Pu].
  (* mu, v *)
  destruct (byte_decode_total 1 m ltac:(lia)) as (mbits & Hmb & Lmb). step_bind Hmb.
  destruct (prods_reduce_total (fun i => ntt_mul (that !!! i) (rhat !!! i)))
    as (prods & Hp & _ & acc & Hacc & Lacc).
  { intros j Hj. apply ntt_mul_total; [apply Pthat|apply Prhat]; unfold K; lia. }
  step_bind Hp. step_bind Hacc.
  destruct (ntt_inv_total acc Lacc) as (w & Hw & Lw). step_bind Hw.
  (* c1, c2 *)
  destruct (mapO_total
              (fun i => byte_encode DU (compress DU (u !!! i)))
              (fun _ y => length y = (32 * DU)%nat) (seq 0 K)) as (c1 & Hc1 & Pc1).
  { intros i Hi. apply elem_of_seq in Hi. apply byte_encode_total.
    rewrite length_compress. apply Pu. lia. }
  step_bind Hc1.
  destruct (byte_encode_total DV
              (compress DV (poly256_add w (poly256_add e2 (decompress 1 mbits)))))
    as (c2 & Hc2 & Lc2).
  { rewrite length_compress. apply length_poly256_add; [exact Lw|].
    apply length_poly256_add; [exact Le2|]. rewrite length_decompress. exact Lmb. }
  step_bind Hc2. eexists. split; [reflexivity|].
  rewrite length_app, Lc2.
  rewrite (length_concat_const (32 * DU)).
  - pose proof (Forall2_length _ _ _ Pc1) as Hl. rewrite length_seq in Hl.
    rewrite <- Hl. unfold K, DU, DV. lia.
  - apply Forall2_Forall_r with (P := fun _ y => length y = (32 * DU)%nat) (l := seq 0 K);
      [exact Pc1|]. apply Forall_forall. intros; assumption.
Qed.

Lemma kpke_decrypt_total dk_pke c :
  (1152 <= length dk_pke)%nat -> length c = 1088%nat ->
  exists m, kpke_decrypt dk_pke c = Done m /\ length m = 32%nat.
Proof.
  intros Hdk Hc. unfold kpke_decrypt.
  destruct (mapO_total
              (fun i => x ← byte_decode DU
                              (slice (i * 32 * DU) ((i + 1) * 32 * DU)
                                     (take (32 * DU * K) c));
                        Done (decompress DU x))
              (fun _ y => length y = 256%nat) (seq 0 K)) as (u & Hu & Pu).
  { intros i Hi. apply elem_of_seq in Hi. unfold K, DU in *.
    destruct (byte_decode_total 10 (slice (i * 32 * 10) ((i + 1) * 32 * 10)
                                          (take (32 * 10 * 3) c))) as (x & Hx & Lx).
    { rewrite length_slice_exact; [lia|lia|rewrite length_take; lia]. }
    step_bind Hx. eexists. split; [reflexivity|]. rewrite length_decompress. exact Lx. }
  step_bind Hu. apply Forall2_seq_lookup in Pu as [_ Pu].
  destruct (byte_decode_total DV (drop (32 * DU * K) c)) as (vbits & Hv & Lv).
  { rewrite length_drop. unfold K, DU, DV. lia. }
  step_bind Hv.
  destruct (mapO_total
              (fun i => byte_decode 12 (slice (i * 384) ((i + 1) * 384) dk_pke))
              (fun _ y => length y = 256%nat) (seq 0 K)) as (shat & Hs & Ps).
  { intros i Hi. apply elem_of_seq in Hi. unfold K in *. apply byte_decode_total.
    rewrite length_slice_exact by lia. lia. }
  step_bind Hs. apply Forall2_seq_lookup in Ps as [_ Ps].
  destruct (prods_reduce_total (fun i => uh ← ntt (u !!! i); ntt_mul (shat !!! i) uh))
    as (prods & Hp & _ & acc & Hacc & Lacc).
  { intros i Hi. destruct (ntt_total (u !!! i)) as (uh & Huh & Luh);
      [apply Pu; unfold K; lia|].
    step_bind Huh. apply ntt_mul_total; [apply Ps; unfold K; lia|exact Luh]. }
  step_bind Hp. step_bind Hacc.
  destruct (ntt_inv_total acc Lacc) as (p & Hpp & Lp). step_bind Hpp.
  apply (byte_encode_total 1). rewrite length_compress.
  apply length_poly256_sub; [rewrite length_decompress; exact Lv|exact Lp].
Qed.

(** * Honest keys *)

Lemma mapO_byte_encode_lengths d polys encs :
  mapO (byte_encode d) polys = Done encs ->
  length encs = length polys /\ Forall (fun y => length y = (32 * d)%nat) encs.
Proof.
  intros H. apply mapO_inv in H. split; [symmetry; eapply Forall2_length, H|].
  eapply Forall2_Forall_r; [exact H|]. apply Forall_forall.
  intros x _ y Hy. eapply byte_encode_length, Hy.
Qed.

Lemma mapO_seq_length {B : Type} (f : nat -> outcome B) n ys :
  mapO f (seq 0 n) = Done ys -> length ys = n.
Proof.
  intros H. apply mapO_inv, Forall2_length in H. rewrite length_seq in H. lia.
Qed.

Lemma last_n_app {B : Type} (x y : list B) n : length y = n -> last_n n (x ++ y) = y.
Proof.
  intros Hy. unfold last_n. rewrite length_app, Hy.
  replace (length x + n - n)%nat with (length x) by lia. apply drop_app_length.
Qed.

Lemma bind_Done_inv {A B : Type} (m : outcome A) (k : A -> outcome B) r :
  (x ← m; k x) = Done r -> exists a, m = Done a /\ k a = Done r.
Proof.
  destruct m as [a| |]; try discriminate. intros H. exists a. split; [reflexivity|exact H].
Qed.

Lemma kpke_keygen_from_inv fuel d ek dk :
  kpke_keygen_from fuel d = Done (ek, dk) ->
  length ek = 1184%nat /\ length dk = 1152%nat
  /\ exists A, sample_ahat fuel (last_n 32 ek) = Done A.
Proof.
  unfold kpke_keygen_from. intros H.
  apply bind_Done_inv in H as (A & HA & H).
  apply bind_Done_inv in H as (shat & Hs & H).
  apply bind_Done_inv in H as (ehat & He & H).
  apply bind_Done_inv in H as (that & Ht & H).
  apply bind_Done_inv in H as (t_enc & Hte & H).
  apply bind_Done_inv in H as (s_enc & Hse & H).
  injection H as <- <-.
  apply mapO_seq_length in Hs, Ht.
  apply mapO_byte_encode_lengths in Hte as [Lt Ft], Hse as [Ls Fs].
  assert (Hrho : length (take 32 (mlkem_hash_G d)) = 32%nat).
  { rewrite length_take, length_mlkem_hash_G. reflexivity. }
  split; [|split].
  - rewrite length_app, (length_concat_const _ _ Ft), Hrho, Lt, Ht. reflexivity.
  - rewrite (length_concat_const _ _ Fs), Ls, Hs. reflexivity.
  - exists A. rewrite last_n_app by exact Hrho. exact HA.
Qed.

Lemma mlkem_keygen_inv fuel z d w w' ek dk :
  mlkem_keygen fuel (Some z) (Some d) w = (Done (ek, dk), w') ->
  exists dk_pke, kpke_keygen_from fuel d = Done (ek, dk_pke)
    /\ dk = dk_pke ++ ek ++ mlkem_hash_H ek ++ z.
Proof.
  unfold mlkem_keygen, kpke_keygen, seed_or_urandom. intros H.
  destruct (kpke_keygen_from fuel d) as [[ek' dk_pke]| |]; try discriminate H.
  cbn [mbind outcome_bind] in H. injection H as <- <- _. exists dk_pke. split; reflexivity.
Qed.

(** The four fields of an honest decapsulation key. *)
Lemma dk_fields (dk_pke ek h z : list Z) :
  length dk_pke = 1152%nat -> length ek = 1184%nat -> length h = 32%nat ->
  length z = 32%nat ->
  let dk := dk_pke ++ ek ++ h ++ z in
  take (384 * K) dk = dk_pke
  /\ slice (384 * K) (768 * K + 32) dk = ek
  /\ slice (768 * K + 32) (768 * K + 64) dk = h
  /\ slice (768 * K + 64) (768 * K + 96) dk = z
  /\ last_n 32 dk = z.
Proof.
  intros Hd He Hh Hz dk. unfold slice, K.
  change (384 * 3)%nat with 1152%nat. change (768 * 3 + 32 - 1152)%nat with 1184%nat.
  change (768 * 3 + 32)%nat with (1152 + 1184)%nat.
  change (768 * 3 + 64 - (1152 + 1184))%nat with 32%nat.
  change (768 * 3 + 64)%nat with (1152 + 1184 + 32)%nat.
  change (768 * 3 + 96 - (1152 + 1184 + 32))%nat with 32%nat.
  unfold dk. repeat split.
  - apply take_app_length'. symmetry. exact Hd.
  - rewrite (drop_app_length' dk_pke) by (symmetry; exact Hd).
    apply take_app_length'. symmetry. exact He.
  - rewrite <- drop_drop, (drop_app_length' dk_pke) by (symmetry; exact Hd).
    rewrite (drop_app_length' ek) by (symmetry; exact He).
    apply take_app_length'. symmetry. exact Hh.
  - rewrite <- !drop_drop, (drop_app_length' dk_pke) by (symmetry; exact Hd).
    rewrite (drop_app_length' ek) by (symmetry; exact He).
    rewrite (drop_app_length' h) by (symmetry; exact Hh).
    apply take_ge. lia.
  - rewrite !app_assoc. apply last_n_app, Hz.
Qed.

#[local] Opaque kpke_encrypt kpke_decrypt.

Lemma mlkem_decaps_honest fuel dk_pke ek z c mdash cdash :
  length dk_pke = 1152%nat -> length ek = 1184%nat -> length z = 32%nat ->
  kpke_decrypt dk_pke c = Done mdash ->
  kpke_encrypt fuel ek mdash (drop 32 (mlkem_hash_G (mdash ++ mlkem_hash_H ek))) = Done cdash ->
  mlkem_decaps fuel c (dk_pke ++ ek ++ mlkem_hash_H ek ++ z)
  = Done (if bool_decide (cdash = c)
          then take 32 (mlkem_hash_G (mdash ++ mlkem_hash_H ek))
          else mlkem_hash_J (z ++ c)).
Proof.
  intros Hd He Hz Hm Hc. unfold mlkem_decaps.
  destruct (dk_fields dk_pke ek (mlkem_hash_H ek) z Hd He (length_mlkem_hash_H ek) Hz)
    as (-> & -> & -> & -> & _).
  rewrite Hm. cbn [mbind outcome_bind]. rewrite Hc. cbn [mbind outcome_bind].
  destruct (bool_decide (cdash = c)); reflexivity.
Qed.

Lemma mlkem_encaps_seeded fuel ek m w :
  mlkem_encaps fuel ek (Some m) w
  = (c ← kpke_encrypt fuel ek m (drop 32 (mlkem_hash_G (m ++ mlkem_hash_H ek)));
     Done (take 32 (mlkem_hash_G (m ++ mlkem_hash_H ek)), c), w).
Proof. reflexivity. Qed.

(** Everything [mlkem_decaps] does on an honest key and a ciphertext of
    1088 bytes. *)
Lemma mlkem_decaps_cases fuel z d w w' ek dk c :
  length z = 32%nat ->
  mlkem_keygen fuel (Some z) (Some d) w = (Done (ek, dk), w') ->
  length c = 1088%nat ->
  last_n 32 dk = z
  /\ exists mdash kdash cdash,
       kpke_decrypt (take 1152 dk) c = Done mdash
       /\ (forall w1, mlkem_encaps fuel ek (Some mdash) w1 = (Done (kdash, cdash), w1))
       /\ length kdash = 32%nat
       /\ mlkem_decaps fuel c dk
          = Done (if bool_decide (cdash = c) then kdash else mlkem_hash_J (z ++ c)).
Proof.
  intros Hz Hk Hc. apply mlkem_keygen_inv in Hk as (dk_pke & Hk & ->).
  apply kpke_keygen_from_inv in Hk as (Hek & Hdk & A & HA).
  destruct (dk_fields dk_pke ek (mlkem_hash_H ek) z Hdk Hek (length_mlkem_hash_H ek) Hz)
    as (Ht & _ & _ & _ & Hl).
  split; [exact Hl|]. change (384 * K)%nat with 1152%nat in Ht. rewrite Ht.
  destruct (kpke_decrypt_total dk_pke c ltac:(lia) Hc) as (mdash & Hm & Lm).
  destruct (kpke_encrypt_total fuel ek mdash
              (drop 32 (mlkem_hash_G (mdash ++ mlkem_hash_H ek))) A Hek HA ltac:(lia))
    as (cdash & Hcd & _).
  exists mdash, (take 32 (mlkem_hash_G (mdash ++ mlkem_hash_H ek))), cdash.
  split; [exact Hm|]. split; [|split].
  - intros w1. rewrite mlkem_encaps_seeded, Hcd. reflexivity.
  - rewrite length_take, length_mlkem_hash_G. reflexivity.
  - apply mlkem_decaps_honest; assumption.
Qed.

(** * The byte codec: round trips *)

#[local] Transparent byte_encode byte_decode sample_poly_cbd compress decompress
  poly256_add poly256_sub.

Lemma fold_left_add_acc (l : list Z) (a : Z) :
  fold_left Z.add l a = a + fold_left Z.add l 0.
Proof.
  revert a. induction l as [|x l IH]; intros a; cbn [fold_left]; [lia|].
  rewrite (IH (a + x)), (IH (0 + x)). lia.
Qed.

Lemma fold_left_add_double (g : nat -> Z) (l : list nat) :
  fold_left Z.add (map (fun j => 2 * g j) l) 0 = 2 * fold_left Z.add (map g l) 0.
Proof.
  induction l as [|x l IH]; cbn [map fold_left]; [reflexivity|].
  rewrite (fold_left_add_acc _ (0 + 2 * g x)), (fold_left_add_acc _ (0 + g x)), IH. lia.
Qed.

Lemma bits_of_S d w : bits_of (S d) w = (w mod 2) :: bits_of d (w / 2).
Proof.
  unfold bits_of. rewrite <- cons_seq. cbn [map]. f_equal.
  - rewrite Z.shiftr_0_r. change 1 with (Z.ones 1). rewrite Z.land_ones by lia. reflexivity.
  - rewrite <- seq_shift, map_map. apply map_ext. intros j.
    replace (Z.of_nat (S j)) with (1 + Z.of_nat j) by lia.
    rewrite <- Z.shiftr_shiftr by lia. rewrite (Z.shiftr_div_pow2 w 1) by lia. reflexivity.
Qed.

Lemma length_bits_of d w : length (bits_of d w) = d.
Proof. unfold bits_of. rewrite length_map, length_seq. reflexivity. Qed.

Lemma bits_of_are_bits d w : Forall (fun b => 0 <= b <= 1) (bits_of d w).
Proof. apply Forall_map, Forall_forall. intros i _. apply land_1_range. Qed.

(** The value of the low [d] bits of [w] is [w mod 2^d]. *)
Lemma bits_val_bits_of d : forall w, bits_val (bits_of d w) = w mod 2 ^ Z.of_nat d.
Proof.
  induction d as [|d IH]; intros w.
  - simpl. rewrite Z.mod_1_r. reflexivity.
  - rewrite bits_of_S. cbn [bits_val]. rewrite IH.
    replace (Z.of_nat (S d)) with (1 + Z.of_nat d) by lia.
    rewrite Z.pow_add_r by lia. change (2 ^ 1) with 2.
    rewrite (Z.rem_mul_r w 2 (2 ^ Z.of_nat d)) by lia. reflexivity.
Qed.

(** A list of bits is the list of the bits of its value. *)
Lemma bits_of_bits_val l :
  Forall (fun b => 0 <= b <= 1) l -> bits_of (length l) (bits_val l) = l.
Proof.
  induction 1 as [|b l Hb _ IH]; [reflexivity|].
  cbn [length bits_val]. rewrite bits_of_S. f_equal.
  - replace (b + 2 * bits_val l) with (b + bits_val l * 2) by lia.
    rewrite Z.mod_add by lia. apply Z.mod_small. lia.
  - replace (b + 2 * bits_val l) with (b + bits_val l * 2) by lia.
    rewrite Z.div_add by lia. rewrite (Z.div_small b 2) by lia. exact IH.
Qed.

Lemma bits_val_range l :
  Forall (fun b => 0 <= b <= 1) l -> 0 <= bits_val l < 2 ^ Z.of_nat (length l).
Proof.
  induction 1 as [|b l Hb _ IH]; [simpl; lia|].
  cbn [length bits_val]. replace (Z.of_nat (S (length l))) with (1 + Z.of_nat (length l)) by lia.
  rewrite Z.pow_add_r by lia. lia.
Qed.

(** [sum_shifted] reads the value of [d] consecutive entries. *)
Lemma sum_shifted_bits_val v d : forall i,
  (i + d <= length v)%nat -> sum_shifted v i d = bits_val (take d (drop i v)).
Proof.
  unfold sum_shifted. induction d as [|d IH]; intros i Hi; [reflexivity|].
  rewrite <- cons_seq. cbn [map fold_left]. rewrite fold_left_add_acc.
  rewrite Z.shiftl_0_r, Nat.add_0_r.
  destruct (lookup_lt_is_Some_2 v i ltac:(lia)) as [x Hx].
  rewrite (drop_S v x i Hx). cbn [take bits_val].
  rewrite (list_lookup_total_correct _ _ _ Hx), Z.add_0_l. f_equal.
  rewrite <- IH by lia. rewrite <- seq_shift, map_map.
  rewrite <- fold_left_add_double. f_equal. apply map_ext. intros j.
  replace (i + S j)%nat with (S i + j)%nat by lia.
  replace (Z.of_nat (S j)) with (Z.of_nat j + 1) by lia.
  rewrite <- Z.shiftl_shiftl by lia. rewrite (Z.shiftl_mul_pow2 _ 1) by lia. lia.
Qed.

Lemma flat_map_seq_S {B : Type} (f : nat -> list B) n : forall s,
  flat_map f (seq (S s) n) = flat_map (fun i => f (S i)) (seq s n).
Proof. induction n as [|n IH]; intros s; [reflexivity|]. cbn [seq flat_map]. rewrite IH. reflexivity. Qed.

(** Cutting a list into [n] consecutive runs of [d] and joining them. *)
Lemma flat_map_runs {B : Type} (d n : nat) : forall v : list B,
  length v = (n * d)%nat ->
  flat_map (fun i => take d (drop (i * d) v)) (seq 0 n) = v.
Proof.
  induction n as [|n IH]; intros v Hv.
  - destruct v; [reflexivity|discriminate Hv].
  - cbn [seq flat_map]. rewrite flat_map_seq_S, Nat.mul_0_l, drop_0.
    rewrite (flat_map_seq_ext _ (fun i => take d (drop (i * d) (drop d v)))).
    + rewrite IH by (rewrite length_drop; lia). apply take_drop.
    + intros i _. rewrite drop_drop. reflexivity.
Qed.

(** The [q]-th run of a [flat_map] whose pieces all have length [d]. *)
Lemma flat_map_run {A B : Type} `{!Inhabited A} (g : A -> list B) (d : nat) :
  (forall x, length (g x) = d) ->
  forall (l : list A) q, (q < length l)%nat ->
    take d (drop (q * d) (flat_map g l)) = g (l !!! q).
Proof.
  intros Hg. induction l as [|x l IH]; intros q Hq; [simpl in Hq; lia|].
  cbn [flat_map]. destruct q as [|q].
  - rewrite Nat.mul_0_l, drop_0. apply take_app_length'. symmetry. apply Hg.
  - replace (S q * d)%nat with (length (g x) + q * d)%nat by (rewrite Hg; lia).
    rewrite drop_app_add. apply IH. simpl in Hq. lia.
Qed.

Lemma length_flat_map_runs {A B : Type} (g : A -> list B) (d : nat) (l : list A) :
  (forall x, length (g x) = d) -> length (flat_map g l) = (length l * d)%nat.
Proof.
  intros Hg. induction l as [|x l IH]; [reflexivity|].
  cbn [flat_map length]. rewrite length_app, Hg, IH. lia.
Qed.

Lemma range3_0_mul n step :
  (0 < step)%nat -> range3 0 (n * step) step = map (fun i => (i * step)%nat) (seq 0 n).
Proof.
  intros Hs. unfold range3. rewrite Nat.sub_0_r.
  replace (n * step + step - 1)%nat with (step - 1 + n * step)%nat by lia.
  rewrite Nat.div_add by lia. rewrite Nat.div_small by lia. reflexivity.
Qed.

Lemma bytes_to_bits_bits_of data : bytes_to_bits data = flat_map (bits_of 8) data.
Proof. reflexivity. Qed.

Lemma map_seq_lookup {B : Type} `{!Inhabited B} (h : B -> B) (l : list B) :
  map (fun i => h (l !!! i)) (seq 0 (length l)) = map h l.
Proof.
  induction l as [|x l IH]; [reflexivity|].
  cbn [length]. rewrite <- cons_seq. cbn [map]. f_equal.
  rewrite <- seq_shift, map_map. exact IH.
Qed.

(** What [bits_to_bytes] returns on a list of bits. *)
Lemma bits_to_bytes_bits bits n :
  length bits = (n * 8)%nat -> Forall (fun b => 0 <= b <= 1) bits ->
  bits_to_bytes bits
  = Done (map (fun q => bits_val (take 8 (drop (q * 8) bits))) (seq 0 n)).
Proof.
  intros Hl Hb. destruct (bits_to_bytes_total bits n Hl Hb) as (bs & Hbs & _).
  rewrite Hbs. f_equal. unfold bits_to_bytes in Hbs.
  rewrite Hl, Nat.Div0.mod_mul in Hbs. cbn [Nat.eqb assert mbind outcome_bind] in Hbs.
  destruct (forallb _ _); [|discriminate Hbs]. injection Hbs as <-.
  rewrite range3_0_mul by lia. rewrite map_map. apply map_ext_in.
  intros q Hq. apply in_seq in Hq. apply sum_shifted_bits_val. lia.
Qed.

(** Bytes to bits and back. *)
Lemma bits_to_bytes_to_bits data :
  Forall (fun b => 0 <= b < 256) data -> bits_to_bytes (bytes_to_bits data) = Done data.
Proof.
  intros Hd. rewrite (bits_to_bytes_bits _ (length data)).
  - f_equal. rewrite <- (map_id data) at 2. rewrite <- (map_seq_lookup (fun x => x) data).
    apply map_ext_in. intros q Hq. apply in_seq in Hq.
    rewrite bytes_to_bits_bits_of, (flat_map_run (bits_of 8) 8) by (apply length_bits_of || lia).
    rewrite bits_val_bits_of. apply Z.mod_small.
    change (2 ^ Z.of_nat 8) with 256.
    apply (Forall_lookup_1 _ _ q _ Hd), list_lookup_lookup_total_lt. lia.
  - apply length_bytes_to_bits.
  - apply Forall_flat_map, Forall_forall. intros w _. apply bits_of_are_bits.
Qed.

(** Bits to bytes and back. *)
Lemma bytes_to_bits_to_bytes bits bs :
  Forall (fun b => 0 <= b <= 1) bits ->
  bits_to_bytes bits = Done bs -> bytes_to_bits bs = bits.
Proof.
  intros Hb H.
  assert (Hl : exists n, length bits = (n * 8)%nat).
  { unfold bits_to_bytes in H. destruct (Nat.eqb_spec (length bits mod 8) 0) as [E|E].
    - exists (length bits / 8)%nat. pose proof (Nat.div_mod_eq (length bits) 8). lia.
    - discriminate H. }
  destruct Hl as [n Hl]. rewrite (bits_to_bytes_bits bits n Hl Hb) in H.
  injection H as <-. rewrite bytes_to_bits_bits_of, flat_map_concat_map, map_map.
  rewrite <- flat_map_concat_map.
  etransitivity; [|exact (flat_map_runs 8 n bits Hl)]. apply flat_map_seq_ext.
  intros q Hq. set (run := take 8 (drop (q * 8) bits)).
  assert (Hrun : length run = 8%nat).
  { unfold run. rewrite length_take, length_drop. lia. }
  rewrite <- Hrun at 1. apply bits_of_bits_val. unfold run. apply Forall_take, Forall_drop, Hb.
Qed.

Lemma chunks_seq {B : Type} (size : nat) : forall n (l : list B),
  chunks size n l = map (fun q => take size (drop (q * size) l)) (seq 0 n).
Proof.
  induction n as [|n IH]; intros l; [reflexivity|].
  cbn [chunks]. rewrite <- cons_seq. cbn [map]. rewrite Nat.mul_0_l, drop_0. f_equal.
  rewrite IH, <- seq_shift, map_map. apply map_ext. intros q.
  rewrite drop_drop. reflexivity.
Qed.

Lemma length_chunks {B : Type} (size n : nat) (l : list B) : length (chunks size n l) = n.
Proof. rewrite chunks_seq, length_map, length_seq. reflexivity. Qed.

Lemma length_encode_bytes d f : length (encode_bytes d f) = (32 * d)%nat.
Proof. unfold encode_bytes. rewrite length_map. apply length_chunks. Qed.

Lemma length_decode_poly d data : length (decode_poly d data) = 256%nat.
Proof. unfold decode_poly. rewrite length_map. apply length_chunks. Qed.

Lemma length_cbd_poly eta data : length (cbd_poly eta data) = 256%nat.
Proof. unfold cbd_poly. rewrite length_map, length_seq. reflexivity. Qed.

Lemma bits_of_f_bits d (f : list Z) :
  Forall (fun b => 0 <= b <= 1) (flat_map (bits_of d) f).
Proof. apply Forall_flat_map, Forall_forall. intros w _. apply bits_of_are_bits. Qed.

(** [byte_encode] returns [encode_bytes]. *)
Lemma byte_encode_bytes d f :
  length f = 256%nat -> byte_encode d f = Done (encode_bytes d f).
Proof.
  intros Hf. unfold byte_encode. rewrite Hf. cbn [Nat.eqb assert mbind outcome_bind].
  change (flat_map _ f) with (flat_map (bits_of d) f).
  rewrite (bits_to_bytes_bits _ (32 * d)).
  - unfold encode_bytes. rewrite chunks_seq, map_map. reflexivity.
  - rewrite (length_flat_map_runs _ d) by apply length_bits_of. rewrite Hf. lia.
  - apply bits_of_f_bits.
Qed.

(** [byte_decode] returns [decode_poly]. *)
Lemma byte_decode_poly d data :
  (32 * d <= length data)%nat -> byte_decode d data = Done (decode_poly d data).
Proof.
  intros Hd. unfold byte_decode. rewrite length_bytes_to_bits.
  destruct (Nat.ltb_spec (length data * 8) (256 * d)); [lia|].
  f_equal. unfold decode_poly. rewrite chunks_seq, map_map. apply map_ext_in.
  intros i Hi. apply in_seq in Hi. apply sum_shifted_bits_val.
  rewrite length_bytes_to_bits. nia.
Qed.

Lemma sample_poly_cbd_poly eta data :
  length data = (64 * eta)%nat -> sample_poly_cbd eta data = Done (cbd_poly eta data).
Proof.
  intros H. unfold sample_poly_cbd. rewrite H, Nat.eqb_refl. reflexivity.
Qed.

Lemma decode_poly_range d data :
  Forall (fun c => 0 <= c < 2 ^ Z.of_nat d) (decode_poly d data)
  \/ (length data * 8 < 256 * d)%nat.
Proof.
  destruct (Nat.ltb_spec (length data * 8) (256 * d)) as [H|H]; [right; exact H|left].
  unfold decode_poly. rewrite chunks_seq, map_map. apply Forall_map, Forall_forall.
  intros q Hq. apply elem_of_seq in Hq.
  set (run := take d (drop (q * d) (bytes_to_bits data))).
  assert (Hrun : length run = d).
  { unfold run. rewrite length_take, length_drop, length_bytes_to_bits. nia. }
  rewrite <- Hrun at 1. apply bits_val_range.
  unfold run. apply Forall_take, Forall_drop. rewrite bytes_to_bits_bits_of.
  apply bits_of_f_bits.
Qed.

(** ** Round trips of the codec *)

(** X5.  Encoding 256 integers with [d] bits each and decoding the bytes
    gives the integers back modulo 2^d. *)
Lemma byte_decode_encode d f :
  length f = 256%nat ->
  exists bs, byte_encode d f = Done bs
    /\ length bs = (32 * d)%nat
    /\ byte_decode d bs = Done (map (fun a => a mod 2 ^ Z.of_nat d) f).
Proof.
  intros Hf. exists (encode_bytes d f).
  pose proof (byte_encode_bytes d f Hf) as He.
  split; [exact He|]. split; [apply length_encode_bytes|].
  rewrite byte_decode_poly by (rewrite length_encode_bytes; lia).
  f_equal. unfold decode_poly.
  assert (Hb : bytes_to_bits (encode_bytes d f) = flat_map (bits_of d) f).
  { apply bytes_to_bits_to_bytes; [apply bits_of_f_bits|].
    unfold byte_encode in He. rewrite Hf in He. exact He. }
  rewrite Hb, chunks_seq, map_map, <- Hf, <- (map_seq_lookup (fun a => a mod 2 ^ Z.of_nat d) f).
  apply map_ext_in. intros q Hq. apply in_seq in Hq.
  rewrite (flat_map_run (bits_of d) d) by (apply length_bits_of || lia).
  apply bits_val_bits_of.
Qed.

Lemma take_drop_take {B : Type} (l : list B) (a d b : nat) :
  (a + d <= b)%nat -> take d (drop a (take b l)) = take d (drop a l).
Proof.
  intros H. rewrite !take_drop_commute, take_take. do 2 f_equal. lia.
Qed.

Lemma take_flat_map_runs {A B : Type} (g : A -> list B) (d : nat) :
  (forall x, length (g x) = d) ->
  forall (l : list A) n, take (n * d) (flat_map g l) = flat_map g (take n l).
Proof.
  intros Hg. induction l as [|x l IH]; intros n.
  - rewrite take_nil. cbn [flat_map]. apply take_nil.
  - destruct n as [|n]; [reflexivity|]. cbn [flat_map take].
    replace (S n * d)%nat with (length (g x) + n * d)%nat by (rewrite Hg; lia).
    rewrite take_app_add, IH. reflexivity.
Qed.

(** X6.  Decoding a byte string gives 256 coefficients below 2^d, and
    encoding them gives its first [32 d] bytes back. *)
Lemma byte_encode_decode d data :
  (32 * d <= length data)%nat -> Forall (fun b => 0 <= b < 256) data ->
  exists f, byte_decode d data = Done f
    /\ length f = 256%nat
    /\ Forall (fun c => 0 <= c < 2 ^ Z.of_nat d) f
    /\ byte_encode d f = Done (take (32 * d) data).
Proof.
  intros Hd Hbytes. exists (decode_poly d data).
  split; [apply byte_decode_poly, Hd|]. split; [apply length_decode_poly|].
  split; [destruct (decode_poly_range d data) as [H|H]; [exact H|lia]|].
  unfold byte_encode. rewrite length_decode_poly. cbn [Nat.eqb assert mbind outcome_bind].
  change (flat_map _ (decode_poly d data)) with (flat_map (bits_of d) (decode_poly d data)).
  set (bits := bytes_to_bits data).
  assert (Hbits : Forall (fun b => 0 <= b <= 1) bits)
    by (unfold bits; rewrite bytes_to_bits_bits_of; apply bits_of_f_bits).
  assert (Hlen : length bits = (length data * 8)%nat) by apply length_bytes_to_bits.
  assert (Hruns : flat_map (bits_of d) (decode_poly d data) = take (256 * d) bits).
  { unfold decode_poly. fold bits. rewrite chunks_seq, map_map, flat_map_concat_map, map_map.
    rewrite <- flat_map_concat_map.
    rewrite <- (flat_map_runs d 256 (take (256 * d) bits)) by (rewrite length_take; lia).
    apply flat_map_seq_ext. intros q Hq.
    set (run := take d (drop (q * d) bits)).
    assert (Hrun : length run = d) by (unfold run; rewrite length_take, length_drop; nia).
    rewrite <- Hrun at 1.
    rewrite bits_of_bits_val by (unfold run; apply Forall_take, Forall_drop, Hbits).
    unfold run. symmetry. apply take_drop_take. nia. }
  rewrite Hruns. unfold bits. rewrite bytes_to_bits_bits_of.
  replace (256 * d)%nat with (32 * d * 8)%nat by lia.
  rewrite (take_flat_map_runs (bits_of 8) 8) by apply length_bits_of.
  rewrite <- bytes_to_bits_bits_of. apply bits_to_bytes_to_bits, Forall_take, Hbytes.
Qed.

(** * The values K-PKE returns *)

#[local] Opaque byte_encode byte_decode sample_poly_cbd compress decompress
  poly256_add poly256_sub.
#[local] Transparent kpke_encrypt kpke_decrypt sample_ntt mlkem_xof.

Lemma mapO_map {A B : Type} (f : A -> outcome B) (g : A -> B) (l : list A) :
  (forall x, x ∈ l -> f x = Done (g x)) -> mapO f l = Done (map g l).
Proof.
  induction l as [|x l IH]; intros H; [reflexivity|].
  cbn [mapO map]. rewrite (H x) by left. cbn [mbind outcome_bind].
  rewrite IH by (intros y Hy; apply H; right; exact Hy). reflexivity.
Qed.

Lemma map_seq_lookup_total {B : Type} `{!Inhabited B} (g : nat -> B) (n i : nat) :
  (i < n)%nat -> map g (seq 0 n) !!! i = g i.
Proof.
  intros Hi. apply list_lookup_total_correct. rewrite list_lookup_fmap.
  rewrite lookup_seq_lt by exact Hi. reflexivity.
Qed.

Lemma length_ntt_blocks f : length f = 256%nat -> length (ntt_blocks f) = 256%nat.
Proof. intros Hf. rewrite <- ntt_fun_blocks by exact Hf. apply length_ntt_fun, Hf. Qed.

Lemma length_ntt_inv_blocks f : length f = 256%nat -> length (ntt_inv_blocks f) = 256%nat.
Proof.
  intros Hf. rewrite <- ntt_inv_loops_blocks by exact Hf. apply length_ntt_inv_loops, Hf.
Qed.

Lemma ntt_blocks_done f : length f = 256%nat -> ntt f = Done (ntt_blocks f).
Proof. intros Hf. rewrite ntt_done, ntt_fun_blocks by exact Hf. reflexivity. Qed.

Lemma ntt_inv_blocks_done f : length f = 256%nat -> ntt_inv f = Done (ntt_inv_blocks f).
Proof. intros Hf. rewrite ntt_inv_done, ntt_inv_loops_blocks by exact Hf. reflexivity. Qed.

Lemma cbd_ntt_blocks eta data :
  length data = (64 * eta)%nat ->
  (f ← sample_poly_cbd eta data; ntt f) = Done (ntt_blocks (cbd_poly eta data)).
Proof.
  intros Hd. rewrite sample_poly_cbd_poly by exact Hd. cbn [mbind outcome_bind].
  apply ntt_blocks_done, length_cbd_poly.
Qed.

(** [reduce(ntt_add, ...)] on polynomials of 256 coefficients. *)
Lemma reduce_add_done (l : list (list Z)) :
  l <> [] -> reduce ntt_add l = Done (reduce_add l).
Proof. destruct l; [congruence|reflexivity]. Qed.

Lemma length_fold_ntt_add (l : list (list Z)) : forall x,
  length x = 256%nat -> Forall (fun y => length y = 256%nat) l ->
  length (fold_left ntt_add l x) = 256%nat.
Proof.
  induction l as [|y l IH]; intros x Hx Hl; [exact Hx|].
  inversion Hl as [|? ? Hy Hl']; subst. cbn [fold_left]. apply IH; [|exact Hl'].
  unfold ntt_add. apply length_poly256_add; assumption.
Qed.

Lemma length_reduce_add (l : list (list Z)) :
  l <> [] -> Forall (fun y => length y = 256%nat) l -> length (reduce_add l) = 256%nat.
Proof.
  destruct l as [|x l]; [congruence|]. intros _ H. inversion H; subst.
  cbn [reduce_add]. apply length_fold_ntt_add; assumption.
Qed.

(** The sum of the three products of a row, as the code computes it. *)
Lemma prods_reduce_value (a b : nat -> list Z) (extra : list (list Z)) :
  (forall j, (j < 3)%nat -> length (a j) = 256%nat /\ length (b j) = 256%nat) ->
  Forall (fun y => length y = 256%nat) extra ->
  (prods ← mapO (fun j => ntt_mul (a j) (b j)) (seq 0 K); reduce ntt_add (prods ++ extra))
  = Done (reduce_add (map (fun j => ntt_mul_loop (a j) (b j)) (seq 0 K) ++ extra))
  /\ length (reduce_add (map (fun j => ntt_mul_loop (a j) (b j)) (seq 0 K) ++ extra))
     = 256%nat.
Proof.
  intros Hab Hex.
  rewrite (mapO_map _ (fun j => ntt_mul_loop (a j) (b j))).
  - cbn [mbind outcome_bind]. split; [apply reduce_add_done; discriminate|].
    apply length_reduce_add; [discriminate|]. apply Forall_app. split; [|exact Hex].
    apply Forall_map, Forall_forall. intros j _. apply length_ntt_mul_loop.
  - intros j Hj. apply elem_of_seq in Hj. unfold K in Hj.
    apply ntt_mul_done; apply Hab; lia.
Qed.

Lemma prods_reduce_value0 (a b : nat -> list Z) :
  (forall j, (j < 3)%nat -> length (a j) = 256%nat /\ length (b j) = 256%nat) ->
  (prods ← mapO (fun j => ntt_mul (a j) (b j)) (seq 0 K); reduce ntt_add prods)
  = Done (reduce_add (map (fun j => ntt_mul_loop (a j) (b j)) (seq 0 K)))
  /\ length (reduce_add (map (fun j => ntt_mul_loop (a j) (b j)) (seq 0 K))) = 256%nat.
Proof.
  intros Hab.
  rewrite (mapO_map _ (fun j => ntt_mul_loop (a j) (b j))).
  - cbn [mbind outcome_bind]. split; [apply reduce_add_done; discriminate|].
    apply length_reduce_add; [discriminate|].
    apply Forall_map, Forall_forall. intros j _. apply length_ntt_mul_loop.
  - intros j Hj. apply elem_of_seq in Hj. unfold K in Hj.
    apply ntt_mul_done; apply Hab; lia.
Qed.

Lemma mapO_Forall2 {A B : Type} (f : A -> outcome B) (l : list A) (k : list B) :
  Forall2 (fun x y => f x = Done y) l k -> mapO f l = Done k.
Proof.
  induction 1 as [|x y l k Hxy _ IH]; [reflexivity|].
  cbn [mapO]. rewrite Hxy. cbn [mbind outcome_bind]. rewrite IH. reflexivity.
Qed.

(** [sample_ntt] on the stream of rho ‖ i ‖ j, from the first [3 m] bytes
    of the stream. *)
Lemma sample_ntt_of_bytes fuel rho i j m res :
  sample_of_bytes (hashlib.shake_128 (rho ++ [byte_of_nat i; byte_of_nat j]) (3 * m))
  = Some res ->
  (3 * m <= fuel)%nat ->
  sample_ntt fuel (mlkem_xof rho i j) = Done res.
Proof.
  intros H Hf.
  pose proof (mlkem_xof_stream rho i j) as Hx.
  assert (Hup : hashlib.shake_128 (rho ++ [byte_of_nat i; byte_of_nat j]) (3 * m)
                = upcoming (mlkem_xof rho i j) (3 * m)).
  { unfold upcoming, mlkem_xof, init. cbn [digest offset]. symmetry. apply drop_0. }
  rewrite Hup in H. unfold sample_of_bytes in H.
  destruct (Nat.leb_spec 256 (length (accepted (upcoming (mlkem_xof rho i j) (3 * m)))))
    as [Hfull|]; [|discriminate H].
  apply (inj Some) in H. rewrite <- H, <- feed_accepted. unfold sample_ntt.
  apply sample_ntt_loop_feed; [exact Hx| | |simpl; lia|rewrite feed_accepted, length_take; lia].
  - unfold mlkem_xof, init. cbn [offset]. lia.
  - lia.
Qed.

Lemma ahat_of_bytes_done fuel m rho A :
  ahat_of_bytes (3 * m) rho = Some A -> (3 * m <= fuel)%nat -> sample_ahat fuel rho = Done A.
Proof.
  unfold ahat_of_bytes, sample_ahat. intros H Hf.
  apply mapM_Some in H. apply mapO_Forall2.
  eapply Forall2_impl; [exact H|]. cbn beta. intros i row Hrow.
  apply mapM_Some in Hrow. apply mapO_Forall2.
  eapply Forall2_impl; [exact Hrow|]. cbn beta. intros j res Hres.
  eapply sample_ntt_of_bytes; [exact Hres|exact Hf].
Qed.

#[local] Opaque sample_ntt mlkem_xof.

Ltac map_lookup :=
  rewrite ?map_seq_lookup_total by (unfold K; lia).

Lemma bind_done {A B : Type} (m : outcome A) (a : A) (k : A -> outcome B) (r : outcome B) :
  m = Done a -> k a = r -> (x ← m; k x) = r.
Proof. intros -> <-. reflexivity. Qed.

(** [kpke_keygen] returns [kpke_keygen_value]. *)
Lemma kpke_keygen_from_value fuel d A :
  sample_ahat fuel (take 32 (mlkem_hash_G d)) = Done A ->
  kpke_keygen_from fuel d = Done (kpke_keygen_value A d).
Proof.
  intros HA. destruct (sample_ahat_entries _ _ _ HA) as [_ HAe].
  unfold kpke_keygen_from, kpke_keygen_value. cbv zeta.
  set (sigma := drop 32 (mlkem_hash_G d)).
  set (shat := map (fun i => ntt_blocks (cbd_poly ETA1 (mlkem_prf ETA1 sigma i))) (seq 0 K)).
  set (ehat := map (fun i => ntt_blocks (cbd_poly ETA1 (mlkem_prf ETA1 sigma (i + K))))
                   (seq 0 K)).
  assert (Hshat : forall j, (j < 3)%nat -> length (shat !!! j) = 256%nat).
  { intros j Hj. unfold shat. map_lookup. apply length_ntt_blocks, length_cbd_poly. }
  assert (Hehat : forall j, (j < 3)%nat -> length (ehat !!! j) = 256%nat).
  { intros j Hj. unfold ehat. map_lookup. apply length_ntt_blocks, length_cbd_poly. }
  assert (Hrow : forall i, (i < 3)%nat ->
            (prods ← mapO (fun j => ntt_mul ((A !!! j) !!! i) (shat !!! j)) (seq 0 K);
             reduce ntt_add (prods ++ [ehat !!! i]))
            = Done (reduce_add (map (fun j => ntt_mul_loop ((A !!! j) !!! i) (shat !!! j))
                                    (seq 0 K) ++ [ehat !!! i]))
            /\ length (reduce_add (map (fun j => ntt_mul_loop ((A !!! j) !!! i) (shat !!! j))
                                       (seq 0 K) ++ [ehat !!! i])) = 256%nat).
  { intros i Hi.
    apply (prods_reduce_value (fun j => (A !!! j) !!! i) (fun j => shat !!! j) [ehat !!! i]).
    - intros j Hj. split; [apply HAe; lia|apply Hshat, Hj].
    - constructor; [apply Hehat, Hi|constructor]. }
  eapply bind_done; [exact HA|]. cbn beta.
  eapply bind_done.
  { apply (mapO_map _ (fun i => ntt_blocks (cbd_poly ETA1 (mlkem_prf ETA1 sigma i)))).
    intros; apply cbd_ntt_blocks, length_mlkem_prf. }
  cbn beta. fold shat.
  eapply bind_done.
  { apply (mapO_map _ (fun i => ntt_blocks (cbd_poly ETA1 (mlkem_prf ETA1 sigma (i + K))))).
    intros; apply cbd_ntt_blocks, length_mlkem_prf. }
  cbn beta. fold ehat.
  eapply bind_done.
  { apply (mapO_map _ (fun i => reduce_add
             (map (fun j => ntt_mul_loop ((A !!! j) !!! i) (shat !!! j)) (seq 0 K)
              ++ [ehat !!! i]))).
    intros i Hi; apply elem_of_seq in Hi; unfold K in Hi; apply Hrow; lia. }
  cbn beta.
  eapply bind_done.
  { apply (mapO_map _ (encode_bytes 12)).
    intros x Hx. apply byte_encode_bytes. apply list_elem_of_fmap in Hx as (i & -> & Hi).
    apply elem_of_seq in Hi. unfold K in Hi. apply Hrow. lia. }
  cbn beta.
  eapply bind_done.
  { apply (mapO_map _ (encode_bytes 12)).
    intros x Hx. apply byte_encode_bytes. unfold shat in Hx.
    apply list_elem_of_fmap in Hx as (i & -> & Hi).
    apply length_ntt_blocks, length_cbd_poly. }
  cbn beta. reflexivity.
Qed.

(** [kpke_encrypt] returns [kpke_encrypt_value]. *)
Lemma kpke_encrypt_value_done fuel ek m r A :
  (1152 <= length ek)%nat -> sample_ahat fuel (last_n 32 ek) = Done A ->
  (32 <= length m)%nat ->
  kpke_encrypt fuel ek m r = Done (kpke_encrypt_value A ek m r).
Proof.
  intros Hek HA Hm. destruct (sample_ahat_entries _ _ _ HA) as [_ HAe].
  unfold kpke_encrypt, kpke_encrypt_value. cbv zeta.
  set (that := map (fun i => decode_poly 12 (slice (i * 128 * K) ((i + 1) * 128 * K) ek))
                   (seq 0 K)).
  set (rhat := map (fun i => ntt_blocks (cbd_poly ETA1 (mlkem_prf ETA1 r i))) (seq 0 K)).
  set (e1 := map (fun i => cbd_poly ETA2 (mlkem_prf ETA2 r (i + K))) (seq 0 K)).
  set (e2 := cbd_poly ETA2 (mlkem_prf ETA2 r (2 * K))).
  set (mbits := decode_poly 1 m).
  set (u := map (fun i => poly256_add
                   (ntt_inv_blocks
                      (reduce_add (map (fun j => ntt_mul_loop ((A !!! i) !!! j) (rhat !!! j))
                                       (seq 0 K))))
                   (e1 !!! i)) (seq 0 K)).
  set (acc := reduce_add (map (fun i => ntt_mul_loop (that !!! i) (rhat !!! i)) (seq 0 K))).
  assert (Sthat : mapO (fun i => byte_decode 12 (slice (i * 128 * K) ((i + 1) * 128 * K) ek))
                       (seq 0 K) = Done that).
  { apply mapO_map. intros i Hi. apply elem_of_seq in Hi. unfold K in *.
    apply byte_decode_poly. rewrite length_slice_exact by lia. lia. }
  assert (Srhat : mapO (fun i => f ← sample_poly_cbd ETA1 (mlkem_prf ETA1 r i); ntt f)
                       (seq 0 K) = Done rhat).
  { apply (mapO_map _ (fun i => ntt_blocks (cbd_poly ETA1 (mlkem_prf ETA1 r i)))).
    intros; apply cbd_ntt_blocks, length_mlkem_prf. }
  assert (Se1 : mapO (fun i => sample_poly_cbd ETA2 (mlkem_prf ETA2 r (i + K))) (seq 0 K)
                = Done e1).
  { apply (mapO_map _ (fun i => cbd_poly ETA2 (mlkem_prf ETA2 r (i + K)))).
    intros; apply sample_poly_cbd_poly, length_mlkem_prf. }
  assert (Se2 : sample_poly_cbd ETA2 (mlkem_prf ETA2 r (2 * K)) = Done e2)
    by apply sample_poly_cbd_poly, length_mlkem_prf.
  assert (Smbits : byte_decode 1 m = Done mbits) by (apply byte_decode_poly; lia).
  assert (Hthat : forall j, (j < 3)%nat -> length (that !!! j) = 256%nat).
  { intros j Hj. unfold that. map_lookup. apply length_decode_poly. }
  assert (Hrhat : forall j, (j < 3)%nat -> length (rhat !!! j) = 256%nat).
  { intros j Hj. unfold rhat. map_lookup. apply length_ntt_blocks, length_cbd_poly. }
  assert (He1 : forall j, (j < 3)%nat -> length (e1 !!! j) = 256%nat).
  { intros j Hj. unfold e1. map_lookup. apply length_cbd_poly. }
  assert (He2 : length e2 = 256%nat) by apply length_cbd_poly.
  assert (Hmbits : length mbits = 256%nat) by apply length_decode_poly.
  clearbody that rhat e1 e2 mbits.
  assert (Su : mapO (fun i =>
                 prods ← mapO (fun j => ntt_mul ((A !!! i) !!! j) (rhat !!! j)) (seq 0 K);
                 acc ← reduce ntt_add prods;
                 w ← ntt_inv acc;
                 Done (poly256_add w (e1 !!! i))) (seq 0 K) = Done u
               /\ forall i, (i < 3)%nat -> length (u !!! i) = 256%nat).
  { assert (Hrow : forall i, (i < 3)%nat ->
              (prods ← mapO (fun j => ntt_mul ((A !!! i) !!! j) (rhat !!! j)) (seq 0 K);
               reduce ntt_add prods)
              = Done (reduce_add (map (fun j => ntt_mul_loop ((A !!! i) !!! j) (rhat !!! j))
                                      (seq 0 K)))
              /\ length (reduce_add (map (fun j => ntt_mul_loop ((A !!! i) !!! j) (rhat !!! j))
                                         (seq 0 K))) = 256%nat).
    { intros i Hi.
      apply (prods_reduce_value0 (fun j => (A !!! i) !!! j) (fun j => rhat !!! j)).
      intros j Hj. split; [apply HAe; lia|apply Hrhat, Hj]. }
    split.
    - apply mapO_map. intros i Hi. apply elem_of_seq in Hi. unfold K in Hi.
      destruct (Hrow i ltac:(lia)) as [H1 H2].
      apply bind_Done_inv in H1 as (prods & Hp & Hr).
      eapply bind_done; [exact Hp|]. cbn beta.
      eapply bind_done; [exact Hr|]. cbn beta.
      eapply bind_done; [apply ntt_inv_blocks_done, H2|]. reflexivity.
    - intros i Hi. unfold u. map_lookup.
      apply length_poly256_add; [apply length_ntt_inv_blocks, Hrow, Hi|apply He1, Hi]. }
  destruct Su as [Su Hu].
  assert (Sacc : (prods ← mapO (fun i => ntt_mul (that !!! i) (rhat !!! i)) (seq 0 K);
                  reduce ntt_add prods) = Done acc
                 /\ length acc = 256%nat).
  { apply (prods_reduce_value0 (fun i => that !!! i) (fun i => rhat !!! i)).
    intros j Hj. split; [apply Hthat, Hj|apply Hrhat, Hj]. }
  destruct Sacc as [Sacc Lacc].
  clearbody u acc.
  apply bind_Done_inv in Sacc as (prods & Hp & Hr).
  eapply bind_done; [exact Sthat|]. cbn beta.
  eapply bind_done; [exact HA|]. cbn beta.
  eapply bind_done; [exact Srhat|]. cbn beta.
  eapply bind_done; [exact Se1|]. cbn beta.
  eapply bind_done; [exact Se2|]. cbn beta.
  eapply bind_done; [exact Su|]. cbn beta.
  eapply bind_done; [exact Smbits|]. cbn beta.
  eapply bind_done; [exact Hp|]. cbn beta.
  eapply bind_done; [exact Hr|]. cbn beta.
  eapply bind_done; [apply ntt_inv_blocks_done, Lacc|]. cbn beta.
  eapply bind_done.
  { apply (mapO_map _ (fun i => encode_bytes DU (compress DU (u !!! i)))).
    intros i Hi. apply elem_of_seq in Hi. unfold K in Hi. apply byte_encode_bytes.
    rewrite length_compress. apply Hu. lia. }
  cbn beta.
  eapply bind_done.
  { apply byte_encode_bytes.
    rewrite length_compress. apply length_poly256_add; [apply length_ntt_inv_blocks, Lacc|].
    apply length_poly256_add; [exact He2|]. rewrite length_decompress. exact Hmbits. }
  cbn beta. reflexivity.
Qed.

(** [kpke_decrypt] returns [kpke_decrypt_value]. *)
Lemma kpke_decrypt_value_done dk_pke c :
  (1152 <= length dk_pke)%nat -> (1088 <= length c)%nat ->
  kpke_decrypt dk_pke c = Done (kpke_decrypt_value dk_pke c).
Proof.
  intros Hdk Hc. unfold kpke_decrypt, kpke_decrypt_value. cbv zeta.
  set (c1 := take (32 * DU * K) c). set (c2 := drop (32 * DU * K) c).
  set (u := map (fun i => decompress DU
                   (decode_poly DU (slice (i * 32 * DU) ((i + 1) * 32 * DU) c1))) (seq 0 K)).
  set (vbits := decode_poly DV c2).
  set (shat := map (fun i => decode_poly 12 (slice (i * 384) ((i + 1) * 384) dk_pke))
                   (seq 0 K)).
  set (acc := reduce_add (map (fun i => ntt_mul_loop (shat !!! i) (ntt_blocks (u !!! i)))
                              (seq 0 K))).
  assert (Hc1 : length c1 = 960%nat) by (unfold c1, DU, K; rewrite length_take; lia).
  assert (Hc2 : (128 <= length c2)%nat) by (unfold c2, DU, K; rewrite length_drop; lia).
  assert (Su : mapO (fun i => x ← byte_decode DU (slice (i * 32 * DU) ((i + 1) * 32 * DU) c1);
                              Done (decompress DU x)) (seq 0 K) = Done u).
  { apply (mapO_map _ (fun i => decompress DU
             (decode_poly DU (slice (i * 32 * DU) ((i + 1) * 32 * DU) c1)))).
    intros i Hi. apply elem_of_seq in Hi. unfold K, DU in *.
    eapply bind_done; [|reflexivity].
    apply byte_decode_poly. rewrite length_slice_exact by lia. lia. }
  assert (Sv : byte_decode DV c2 = Done vbits) by (apply byte_decode_poly; unfold DV; lia).
  assert (Sshat : mapO (fun i => byte_decode 12 (slice (i * 384) ((i + 1) * 384) dk_pke))
                       (seq 0 K) = Done shat).
  { apply mapO_map. intros i Hi. apply elem_of_seq in Hi. unfold K in *.
    apply byte_decode_poly. rewrite length_slice_exact by lia. lia. }
  assert (Hu : forall j, (j < 3)%nat -> length (u !!! j) = 256%nat).
  { intros j Hj. unfold u. map_lookup. rewrite length_decompress. apply length_decode_poly. }
  assert (Hshat : forall j, (j < 3)%nat -> length (shat !!! j) = 256%nat).
  { intros j Hj. unfold shat. map_lookup. apply length_decode_poly. }
  assert (Hv : length vbits = 256%nat) by apply length_decode_poly.
  clearbody u vbits shat.
  assert (Sprods : mapO (fun i => uh ← ntt (u !!! i); ntt_mul (shat !!! i) uh) (seq 0 K)
                   = Done (map (fun i => ntt_mul_loop (shat !!! i) (ntt_blocks (u !!! i)))
                               (seq 0 K))).
  { apply mapO_map. intros i Hi. apply elem_of_seq in Hi. unfold K in Hi.
    eapply bind_done; [apply ntt_blocks_done, Hu; lia|]. cbn beta.
    apply ntt_mul_done; [apply Hshat; lia|apply length_ntt_blocks, Hu; lia]. }
  assert (Hacc : length acc = 256%nat).
  { apply length_reduce_add; [discriminate|].
    apply Forall_map, Forall_forall. intros j _. apply length_ntt_mul_loop. }
  assert (Sacc : reduce ntt_add (map (fun i => ntt_mul_loop (shat !!! i) (ntt_blocks (u !!! i)))
                                     (seq 0 K)) = Done acc)
    by (apply reduce_add_done; discriminate).
  clearbody acc.
  eapply bind_done; [exact Su|]. cbn beta.
  eapply bind_done; [exact Sv|]. cbn beta.
  eapply bind_done; [exact Sshat|]. cbn beta.
  eapply bind_done; [exact Sprods|]. cbn beta.
  eapply bind_done; [exact Sacc|]. cbn beta.
  eapply bind_done; [apply ntt_inv_blocks_done, Hacc|]. cbn beta.
  apply byte_encode_bytes. rewrite length_compress.
  apply length_poly256_sub; [|apply length_ntt_inv_blocks, Hacc].
  rewrite length_decompress. exact Hv.
Qed.

#[local] Opaque kpke_encrypt kpke_decrypt.

(** * Decapsulation and fuel *)

#[local] Transparent kpke_encrypt.

Lemma bind_mono {A B : Type} (m m' : outcome A) (k k' : A -> outcome B) r :
  (forall a, m = Done a -> m' = Done a) ->
  (forall a, k a = Done r -> k' a = Done r) ->
  (x ← m; k x) = Done r -> (x ← m'; k' x) = Done r.
Proof.
  intros Hm Hk H. apply bind_Done_inv in H as (a & Ha & H).
  rewrite (Hm a Ha). exact (Hk a H).
Qed.

Lemma kpke_encrypt_mono fuel fuel' ek m r c :
  (fuel <= fuel')%nat ->
  kpke_encrypt fuel ek m r = Done c -> kpke_encrypt fuel' ek m r = Done c.
Proof.
  intros Hf. unfold kpke_encrypt.
  apply bind_mono; [intros a Ha; exact Ha|intros that].
  apply bind_mono; [intros A; apply sample_ahat_mono, Hf|intros A H; exact H].
Qed.

Lemma kpke_encrypt_length fuel ek m r c :
  kpke_encrypt fuel ek m r = Done c -> length c = 1088%nat.
Proof.
  unfold kpke_encrypt. intros H.
  apply bind_Done_inv in H as (that & _ & H).
  apply bind_Done_inv in H as (A & _ & H).
  apply bind_Done_inv in H as (rhat & _ & H).
  apply bind_Done_inv in H as (e1 & _ & H).
  apply bind_Done_inv in H as (e2 & _ & H).
  apply bind_Done_inv in H as (u & _ & H).
  apply bind_Done_inv in H as (mbits & _ & H).
  apply bind_Done_inv in H as (prods & _ & H).
  apply bind_Done_inv in H as (acc & _ & H).
  apply bind_Done_inv in H as (w & _ & H).
  apply bind_Done_inv in H as (c1 & Hc1 & H).
  apply bind_Done_inv in H as (c2 & Hc2 & H).
  injection H as <-.
  apply byte_encode_length in Hc2.
  pose proof (mapO_seq_length _ _ _ Hc1) as Lc1.
  apply mapO_inv in Hc1.
  assert (F : Forall (fun y => length y = (32 * DU)%nat) c1).
  { eapply Forall2_Forall_r; [exact Hc1|]. apply Forall_forall.
    intros i _ y Hy. eapply byte_encode_length, Hy. }
  rewrite length_app, (length_concat_const _ _ F), Lc1, Hc2. reflexivity.
Qed.

#[local] Opaque kpke_encrypt.

Lemma mlkem_decaps_mono fuel fuel' c dk k :
  (fuel <= fuel')%nat ->
  mlkem_decaps fuel c dk = Done k -> mlkem_decaps fuel' c dk = Done k.
Proof.
  intros Hf. unfold mlkem_decaps. intros H.
  apply bind_Done_inv in H as (mdash & Hm & H). rewrite Hm. cbn [mbind outcome_bind].
  apply bind_Done_inv in H as (cdash & Hc & H).
  rewrite (kpke_encrypt_mono fuel fuel' _ _ _ _ Hf Hc). cbn [mbind outcome_bind]. exact H.
Qed.

Lemma mlkem_decaps_length fuel c dk k : mlkem_decaps fuel c dk = Done k -> length k = 32%nat.
Proof.
  unfold mlkem_decaps. intros H.
  apply bind_Done_inv in H as (mdash & _ & H).
  apply bind_Done_inv in H as (cdash & _ & H).
  destruct (bool_decide (cdash = c)); injection H as <-.
  - rewrite length_take, length_mlkem_hash_G. reflexivity.
  - apply length_mlkem_hash_J.
Qed.

(** Key generation and encapsulation draw their seeds from the entropy
    tape when none is passed; [mlkem_decaps] has no tape to draw from. *)
Lemma mlkem_keygen_reads_tape fuel w i :
  snd (mlkem_keygen fuel None None w) i = w (64 + i)%nat.
Proof. unfold mlkem_keygen, kpke_keygen, seed_or_urandom, os_urandom. reflexivity. Qed.

Lemma mlkem_encaps_reads_tape fuel ek w i :
  snd (mlkem_encaps fuel ek None w) i = w (32 + i)%nat.
Proof. reflexivity. Qed.

(** * The worked key pair *)

Lemma Done_inj {A : Type} (a b : A) : Done a = Done b -> a = b.
Proof. intros H. injection H as H. exact H. Qed.

Lemma list_eqb_false a b : list_eqb a b = false -> a <> b.
Proof. apply bool_decide_eq_false_1. Qed.

Lemma leb_le_done (a b : nat) : (a <=? b)%nat = true -> (a <= b)%nat.
Proof. apply Nat.leb_le. Qed.

Ltac by_leb := apply leb_le_done; vm_cast_no_check (eq_refl true).

Lemma demo_rho_of_seed :
  demo_rho = take 32 (mlkem_hash_G demo_seed) /\ last_n 32 demo_ek = demo_rho.
Proof. split; vm_cast_no_check (eq_refl demo_rho). Qed.

Lemma demo_ahat_of_bytes : ahat_of_bytes (3 * 280) demo_rho = Some demo_ahat.
Proof. vm_cast_no_check (eq_refl (Some demo_ahat)). Qed.

Lemma demo_sample_ahat : sample_ahat demo_fuel demo_rho = Done demo_ahat.
Proof. apply (ahat_of_bytes_done demo_fuel 280 demo_rho demo_ahat demo_ahat_of_bytes). by_leb. Qed.

Lemma demo_sample_ahat_seed :
  sample_ahat demo_fuel (take 32 (mlkem_hash_G demo_seed)) = Done demo_ahat.
Proof. rewrite <- (proj1 demo_rho_of_seed). exact demo_sample_ahat. Qed.

Lemma demo_sample_ahat_ek : sample_ahat demo_fuel (last_n 32 demo_ek) = Done demo_ahat.
Proof. rewrite (proj2 demo_rho_of_seed). exact demo_sample_ahat. Qed.

Lemma demo_keygen_value :
  kpke_keygen_value demo_ahat demo_seed = (demo_ek, take 1152 demo_dk).
Proof. vm_cast_no_check (eq_refl (demo_ek, take 1152 demo_dk)). Qed.

Lemma demo_dk_fields :
  take 1152 demo_dk ++ demo_ek ++ mlkem_hash_H demo_ek ++ demo_rand = demo_dk.
Proof. vm_cast_no_check (eq_refl demo_dk). Qed.

Lemma demo_keygen :
  mlkem_keygen demo_fuel (Some demo_rand) (Some demo_seed) demo_tape
  = (Done (demo_ek, demo_dk), demo_tape).
Proof.
  unfold mlkem_keygen, kpke_keygen, seed_or_urandom.
  rewrite (kpke_keygen_from_value demo_fuel demo_seed demo_ahat demo_sample_ahat_seed).
  rewrite demo_keygen_value. cbn [mbind outcome_bind]. rewrite demo_dk_fields. reflexivity.
Qed.

Lemma demo_ek_length : (1152 <= length demo_ek)%nat.
Proof. by_leb. Qed.

(** The secret and the ciphertext of [mlkem_encaps(ek, seed=m)], given the
    grid [ahat] of [ek]. *)
Lemma mlkem_encaps_value fuel ek m w A :
  (1152 <= length ek)%nat -> sample_ahat fuel (last_n 32 ek) = Done A ->
  (32 <= length m)%nat ->
  mlkem_encaps fuel ek (Some m) w
  = (Done (let ghash := mlkem_hash_G (m ++ mlkem_hash_H ek) in
           (take 32 ghash, kpke_encrypt_value A ek m (drop 32 ghash))), w).
Proof.
  intros Hek HA Hm. rewrite mlkem_encaps_seeded.
  rewrite (kpke_encrypt_value_done fuel ek m _ A Hek HA Hm). reflexivity.
Qed.

Lemma demo_encaps_msg_value :
  (let ghash := mlkem_hash_G (demo_msg ++ mlkem_hash_H demo_ek) in
   (take 32 ghash, kpke_encrypt_value demo_ahat demo_ek demo_msg (drop 32 ghash)))
  = (demo_k1, demo_c1).
Proof. vm_cast_no_check (eq_refl (demo_k1, demo_c1)). Qed.

Lemma demo_encaps_seed_value :
  (let ghash := mlkem_hash_G (demo_seed ++ mlkem_hash_H demo_ek) in
   (take 32 ghash, kpke_encrypt_value demo_ahat demo_ek demo_seed (drop 32 ghash)))
  = (demo_k2, demo_c2).
Proof. vm_cast_no_check (eq_refl (demo_k2, demo_c2)). Qed.

Lemma demo_encaps_msg :
  mlkem_encaps demo_fuel demo_ek (Some demo_msg) demo_tape
  = (Done (demo_k1, demo_c1), demo_tape).
Proof.
  rewrite (mlkem_encaps_value demo_fuel demo_ek demo_msg demo_tape demo_ahat
             demo_ek_length demo_sample_ahat_ek ltac:(by_leb)).
  rewrite demo_encaps_msg_value. reflexivity.
Qed.

Lemma demo_encaps_seed :
  mlkem_encaps demo_fuel demo_ek (Some demo_seed) demo_tape
  = (Done (demo_k2, demo_c2), demo_tape).
Proof.
  rewrite (mlkem_encaps_value demo_fuel demo_ek demo_seed demo_tape demo_ahat
             demo_ek_length demo_sample_ahat_ek ltac:(by_leb)).
  rewrite demo_encaps_seed_value. reflexivity.
Qed.

Lemma demo_decrypt_value_c1 : kpke_decrypt_value (take 1152 demo_dk) demo_c1 = demo_msg.
Proof. vm_cast_no_check (eq_refl demo_msg). Qed.

Lemma demo_decrypt_value_c2 : kpke_decrypt_value (take 1152 demo_dk) demo_c2 = demo_seed.
Proof. vm_cast_no_check (eq_refl demo_seed). Qed.

Lemma demo_decrypt_c1 : kpke_decrypt (take 1152 demo_dk) demo_c1 = Done demo_msg.
Proof.
  rewrite (kpke_decrypt_value_done (take 1152 demo_dk) demo_c1 ltac:(by_leb) ltac:(by_leb)).
  rewrite demo_decrypt_value_c1. reflexivity.
Qed.

Lemma demo_decrypt_c2 : kpke_decrypt (take 1152 demo_dk) demo_c2 = Done demo_seed.
Proof.
  rewrite (kpke_decrypt_value_done (take 1152 demo_dk) demo_c2 ltac:(by_leb) ltac:(by_leb)).
  rewrite demo_decrypt_value_c2. reflexivity.
Qed.

Lemma demo_c2_not_c1 : demo_c2 <> demo_c1.
Proof. apply list_eqb_false. vm_cast_no_check (eq_refl false). Qed.

Lemma demo_k2_not_kbar : demo_k2 <> mlkem_hash_J (demo_rand ++ demo_c2).
Proof. apply list_eqb_false. vm_cast_no_check (eq_refl false). Qed.

(** A ciphertext is accepted when K-PKE decryption gives back the seed it
    was encapsulated from. *)
Lemma mlkem_decaps_accepts fuel z d w w' ek dk c m k w1 w1' :
  length z = 32%nat ->
  mlkem_keygen fuel (Some z) (Some d) w = (Done (ek, dk), w') ->
  length c = 1088%nat ->
  kpke_decrypt (take 1152 dk) c = Done m ->
  mlkem_encaps fuel ek (Some m) w1 = (Done (k, c), w1') ->
  mlkem_decaps fuel c dk = Done k.
Proof.
  intros Hz Hk Hc Hm He.
  destruct (mlkem_decaps_cases fuel z d w w' ek dk c Hz Hk Hc)
    as (_ & mdash & kdash & cdash & Hm' & He' & _ & ->).
  rewrite Hm in Hm'. injection Hm' as <-.
  rewrite (He' w1) in He. injection He as -> -> _.
  rewrite bool_decide_eq_true_2 by reflexivity. reflexivity.
Qed.

Lemma demo_decaps_c1 : mlkem_decaps demo_fuel demo_c1 demo_dk = Done demo_k1.
Proof.
  exact (mlkem_decaps_accepts demo_fuel demo_rand demo_seed demo_tape demo_tape
           demo_ek demo_dk demo_c1 demo_msg demo_k1 demo_tape demo_tape
           eq_refl demo_keygen eq_refl demo_decrypt_c1 demo_encaps_msg).
Qed.

Lemma demo_decaps_c2 : mlkem_decaps demo_fuel demo_c2 demo_dk = Done demo_k2.
Proof.
  exact (mlkem_decaps_accepts demo_fuel demo_rand demo_seed demo_tape demo_tape
           demo_ek demo_dk demo_c2 demo_seed demo_k2 demo_tape demo_tape
           eq_refl demo_keygen eq_refl demo_decrypt_c2 demo_encaps_seed).
Qed.

(** * Claims about the KEM *)

(** X1.  KEM correctness, as far as the code decides it: on an honest key pair
    [mlkem_decaps] returns the encapsulated secret whenever [kpke_decrypt]
    gives back the seed [m] the ciphertext was made from. *)
Theorem mlkem_decaps_correct_if_decrypts fuel z d w w' ek dk m k c w1 w1' :
  length z = 32%nat ->
  mlkem_keygen fuel (Some z) (Some d) w = (Done (ek, dk), w') ->
  mlkem_encaps fuel ek (Some m) w1 = (Done (k, c), w1') ->
  kpke_decrypt (take 1152 dk) c = Done m ->
  mlkem_decaps fuel c dk = Done k.
Proof.
  intros Hz Hk He Hm.
  apply (mlkem_decaps_accepts fuel z d w w' ek dk c m k w1 w1' Hz Hk); [|exact Hm|exact He].
  rewrite mlkem_encaps_seeded in He.
  destruct (kpke_encrypt fuel ek m (drop 32 (mlkem_hash_G (m ++ mlkem_hash_H ek))))
    as [c0| |] eqn:E; try discriminate He.
  cbn [mbind outcome_bind] in He. injection He as _ <- _.
  eapply kpke_encrypt_length, E.
Qed.

Lemma mlkem_decaps_correct_if_decrypts_witness :
  mlkem_decaps demo_fuel demo_c1 demo_dk = Done demo_k1.
Proof.
  exact (mlkem_decaps_correct_if_decrypts demo_fuel demo_rand demo_seed demo_tape
           demo_tape demo_ek demo_dk demo_msg demo_k1 demo_c1 demo_tape demo_tape
           eq_refl demo_keygen demo_encaps_msg demo_decrypt_c1).
Defined.

(** C2, amended.  On an honest key pair, with [z] the last 32 bytes of
    [dk], and a ciphertext [c] of 1088 bytes, [mlkem_decaps] decrypts [c]
    to a seed [mdash], encapsulates [mdash] again to [(kdash, cdash)], and
    returns the rejection key J(z ‖ c) exactly when [cdash] differs from
    [c]; when they are equal it returns [kdash].  The ciphertext [c] is
    compared with the encapsulation of the seed it decrypts to, not with
    the encapsulation of a seed chosen beforehand. *)
Theorem implicit_rejection fuel z d w w' ek dk c :
  length z = 32%nat ->
  mlkem_keygen fuel (Some z) (Some d) w = (Done (ek, dk), w') ->
  length c = 1088%nat ->
  last_n 32 dk = z
  /\ exists mdash kdash cdash,
       kpke_decrypt (take 1152 dk) c = Done mdash
       /\ (forall w1, mlkem_encaps fuel ek (Some mdash) w1 = (Done (kdash, cdash), w1))
       /\ (cdash <> c -> mlkem_decaps fuel c dk = Done (mlkem_hash_J (z ++ c)))
       /\ (cdash = c -> mlkem_decaps fuel c dk = Done kdash).
Proof.
  intros Hz Hk Hc.
  destruct (mlkem_decaps_cases fuel z d w w' ek dk c Hz Hk Hc)
    as (Hl & mdash & kdash & cdash & Hm & He & _ & Hd).
  split; [exact Hl|]. exists mdash, kdash, cdash.
  split; [exact Hm|]. split; [exact He|]. rewrite Hd. split; intros H.
  - rewrite bool_decide_eq_false_2 by exact H. reflexivity.
  - rewrite bool_decide_eq_true_2 by exact H. reflexivity.
Qed.

Lemma implicit_rejection_witness :
  length demo_rand = 32%nat /\ length zero_ct = 1088%nat
  /\ last_n 32 demo_dk = demo_rand
  /\ exists mdash kdash cdash,
       kpke_decrypt (take 1152 demo_dk) zero_ct = Done mdash
       /\ (forall w1, mlkem_encaps demo_fuel demo_ek (Some mdash) w1
                      = (Done (kdash, cdash), w1))
       /\ (cdash <> zero_ct
           -> mlkem_decaps demo_fuel zero_ct demo_dk
              = Done (mlkem_hash_J (demo_rand ++ zero_ct)))
       /\ (cdash = zero_ct -> mlkem_decaps demo_fuel zero_ct demo_dk = Done kdash).
Proof.
  split; [reflexivity|]. split; [reflexivity|].
  exact (implicit_rejection demo_fuel demo_rand demo_seed demo_tape demo_tape
           demo_ek demo_dk zero_ct eq_refl demo_keygen eq_refl).
Defined.

(** The claim as worded fails on the worked key pair: with the seed
    [m = demo_msg], the ciphertext [demo_c2] has 1088 bytes and is not the
    ciphertext of [mlkem_encaps(ek, m)], yet [mlkem_decaps] returns the
    secret [demo_k2] of another encapsulation, not J(z ‖ c). *)
Lemma implicit_rejection_other_encapsulation :
  mlkem_keygen demo_fuel (Some demo_rand) (Some demo_seed) demo_tape
  = (Done (demo_ek, demo_dk), demo_tape)
  /\ last_n 32 demo_dk = demo_rand
  /\ mlkem_encaps demo_fuel demo_ek (Some demo_msg) demo_tape
     = (Done (demo_k1, demo_c1), demo_tape)
  /\ length demo_msg = 32%nat
  /\ length demo_c2 = 1088%nat
  /\ demo_c2 <> demo_c1
  /\ mlkem_decaps demo_fuel demo_c2 demo_dk = Done demo_k2
  /\ demo_k2 <> mlkem_hash_J (demo_rand ++ demo_c2).
Proof.
  split; [exact demo_keygen|]. split; [vm_cast_no_check (eq_refl demo_rand)|].
  split; [exact demo_encaps_msg|]. split; [reflexivity|]. split; [reflexivity|].
  split; [exact demo_c2_not_c1|]. split; [exact demo_decaps_c2|exact demo_k2_not_kbar].
Qed.

(** C10.  [mlkem_decaps] is a function of the ciphertext and the
    decapsulation key alone: it takes no entropy tape, and any two runs
    that return, whatever fuel their loops were given, return the same
    secret, of 32 bytes. *)
Theorem mlkem_decaps_deterministic fuel1 fuel2 c dk k1 k2 :
  mlkem_decaps fuel1 c dk = Done k1 ->
  mlkem_decaps fuel2 c dk = Done k2 ->
  k1 = k2 /\ length k1 = 32%nat.
Proof.
  intros H1 H2. split; [|eapply mlkem_decaps_length, H1].
  apply (mlkem_decaps_mono _ (Nat.max fuel1 fuel2)) in H1; [|lia].
  apply (mlkem_decaps_mono _ (Nat.max fuel1 fuel2)) in H2; [|lia].
  congruence.
Qed.

Lemma mlkem_decaps_deterministic_witness : demo_k1 = demo_k1 /\ length demo_k1 = 32%nat.
Proof.
  exact (mlkem_decaps_deterministic demo_fuel (S demo_fuel) demo_c1 demo_dk demo_k1 demo_k1
           demo_decaps_c1
           (mlkem_decaps_mono demo_fuel (S demo_fuel) demo_c1 demo_dk demo_k1
              (Nat.le_succ_diag_r demo_fuel) demo_decaps_c1)).
Defined.

(** * The matrix *)

Lemma kpke_keygen_from_rho fuel d ek dk :
  kpke_keygen_from fuel d = Done (ek, dk) -> last_n 32 ek = take 32 (mlkem_hash_G d).
Proof.
  unfold kpke_keygen_from. intros H.
  apply bind_Done_inv in H as (A & _ & H).
  apply bind_Done_inv in H as (shat & _ & H).
  apply bind_Done_inv in H as (ehat & _ & H).
  apply bind_Done_inv in H as (that & _ & H).
  apply bind_Done_inv in H as (t_enc & _ & H).
  apply bind_Done_inv in H as (s_enc & _ & H).
  injection H as <- <-. apply last_n_app.
  rewrite length_take, length_mlkem_hash_G. reflexivity.
Qed.

Lemma demo_kpke_keygen :
  kpke_keygen_from demo_fuel demo_seed = Done (demo_ek, take 1152 demo_dk).
Proof.
  rewrite (kpke_keygen_from_value demo_fuel demo_seed demo_ahat demo_sample_ahat_seed).
  rewrite demo_keygen_value. reflexivity.
Qed.

Lemma demo_kpke_encrypt :
  kpke_encrypt demo_fuel demo_ek demo_msg
    (drop 32 (mlkem_hash_G (demo_msg ++ mlkem_hash_H demo_ek))) = Done demo_c1.
Proof.
  rewrite (kpke_encrypt_value_done demo_fuel demo_ek demo_msg _ demo_ahat
             demo_ek_length demo_sample_ahat_ek ltac:(by_leb)).
  exact (f_equal (fun kc => Done (snd kc)) demo_encaps_msg_value).
Qed.

(** The grid is not symmetric: the order of the two bytes appended to rho
    matters. *)
Lemma demo_ahat_not_symmetric :
  (demo_ahat !!! 0%nat) !!! 1%nat <> (demo_ahat !!! 1%nat) !!! 0%nat.
Proof. apply list_eqb_false. vm_cast_no_check (eq_refl false). Qed.

#[local] Transparent kpke_encrypt.

(** C3.  In K-PKE keygen and encrypt, for all i, j in [0, 3), the matrix
    entry at row i, column j is what [sample_ntt] returns on the XOF stream
    seeded with rho ‖ byte(j) ‖ byte(i): the column index is the first byte
    appended after rho and the row index the second.  With [A i j] that
    entry, [kpke_keygen] encodes into [ek] the polynomials
    t_i = sum_j A[i][j] * s_j + e_i, followed by rho, and [kpke_encrypt],
    which reads rho back from the last 32 bytes of [ek], encodes into the
    ciphertext u_i = ntt_inv(sum_j A[j][i] * r_j) + e1_i, the product with
    the transpose.  (The list [ahat] of the code holds the entry of row i,
    column j at [ahat[j][i]].) *)
Theorem ahat_matrix_entry fuel d ek dk m r c :
  kpke_keygen_from fuel d = Done (ek, dk) ->
  kpke_encrypt fuel ek m r = Done c ->
  exists A : nat -> nat -> list Z,
    (forall i j, (i < K)%nat -> (j < K)%nat ->
       mlkem_xof (take 32 (mlkem_hash_G d)) j i
       = init (hashlib.shake_128 (take 32 (mlkem_hash_G d) ++ [Z.of_nat j; Z.of_nat i]))
       /\ sample_ntt fuel (mlkem_xof (take 32 (mlkem_hash_G d)) j i) = Done (A i j))
    /\ last_n 32 ek = take 32 (mlkem_hash_G d)
    /\ (exists shat ehat that t_enc,
          mapO (fun i => f ← sample_poly_cbd ETA1
                               (mlkem_prf ETA1 (drop 32 (mlkem_hash_G d)) i); ntt f)
               (seq 0 K) = Done shat
          /\ mapO (fun i => f ← sample_poly_cbd ETA1
                                  (mlkem_prf ETA1 (drop 32 (mlkem_hash_G d)) (i + K)); ntt f)
                  (seq 0 K) = Done ehat
          /\ length that = K
          /\ (forall i, (i < K)%nat ->
                (prods ← mapO (fun j => ntt_mul (A i j) (shat !!! j)) (seq 0 K);
                 reduce ntt_add (prods ++ [ehat !!! i])) = Done (that !!! i))
          /\ mapO (byte_encode 12) that = Done t_enc
          /\ ek = concat t_enc ++ take 32 (mlkem_hash_G d))
    /\ (exists rhat e1 u c1 c2,
          mapO (fun i => f ← sample_poly_cbd ETA1 (mlkem_prf ETA1 r i); ntt f) (seq 0 K)
          = Done rhat
          /\ mapO (fun i => sample_poly_cbd ETA2 (mlkem_prf ETA2 r (i + K))) (seq 0 K)
             = Done e1
          /\ length u = K
          /\ (forall i, (i < K)%nat ->
                (prods ← mapO (fun j => ntt_mul (A j i) (rhat !!! j)) (seq 0 K);
                 acc ← reduce ntt_add prods;
                 w ← ntt_inv acc;
                 Done (poly256_add w (e1 !!! i))) = Done (u !!! i))
          /\ mapO (fun i => byte_encode DU (compress DU (u !!! i))) (seq 0 K) = Done c1
          /\ c = concat c1 ++ c2).
Proof.
  intros Hk He. pose proof (kpke_keygen_from_rho _ _ _ _ Hk) as Hrho.
  unfold kpke_keygen_from in Hk.
  apply bind_Done_inv in Hk as (ahat & HA & Hk).
  apply bind_Done_inv in Hk as (shat & Hs & Hk).
  apply bind_Done_inv in Hk as (ehat & Hee & Hk).
  apply bind_Done_inv in Hk as (that & Ht & Hk).
  apply bind_Done_inv in Hk as (t_enc & Hte & Hk).
  apply bind_Done_inv in Hk as (s_enc & Hse & Hk).
  injection Hk as Eek Edk.
  unfold kpke_encrypt in He. cbv zeta in He. rewrite Hrho in He.
  apply bind_Done_inv in He as (that' & _ & He).
  apply bind_Done_inv in He as (ahat' & HA' & He).
  rewrite HA in HA'. apply Done_inj in HA'. subst ahat'.
  apply bind_Done_inv in He as (rhat & Hr & He).
  apply bind_Done_inv in He as (e1 & He1 & He).
  apply bind_Done_inv in He as (e2 & _ & He).
  apply bind_Done_inv in He as (u & Hu & He).
  apply bind_Done_inv in He as (mbits & _ & He).
  apply bind_Done_inv in He as (prods & _ & He).
  apply bind_Done_inv in He as (acc & _ & He).
  apply bind_Done_inv in He as (w & _ & He).
  apply bind_Done_inv in He as (c1 & Hc1 & He).
  apply bind_Done_inv in He as (c2 & _ & He).
  apply Done_inj in He.
  exists (fun i j => (ahat !!! j) !!! i).
  split.
  { intros i j Hi Hj. split; [reflexivity|].
    apply (sample_ahat_entries fuel _ ahat HA); assumption. }
  split; [exact Hrho|]. split.
  - exists shat, ehat, that, t_enc.
    split; [exact Hs|]. split; [exact Hee|].
    apply mapO_inv, Forall2_seq_lookup in Ht as [Lt Ht].
    split; [exact Lt|]. split; [exact Ht|]. split; [exact Hte|].
    symmetry. exact Eek.
  - exists rhat, e1, u, c1, c2.
    split; [exact Hr|]. split; [exact He1|].
    apply mapO_inv, Forall2_seq_lookup in Hu as [Lu Hu].
    split; [exact Lu|]. split; [exact Hu|]. split; [exact Hc1|].
    symmetry. exact He.
Qed.

#[local] Opaque kpke_encrypt.

Lemma ahat_matrix_entry_witness :
  exists A : nat -> nat -> list Z,
    (forall i j, (i < K)%nat -> (j < K)%nat ->
       mlkem_xof (take 32 (mlkem_hash_G demo_seed)) j i
       = init (hashlib.shake_128
                 (take 32 (mlkem_hash_G demo_seed) ++ [Z.of_nat j; Z.of_nat i]))
       /\ sample_ntt demo_fuel (mlkem_xof (take 32 (mlkem_hash_G demo_seed)) j i)
          = Done (A i j))
    /\ last_n 32 demo_ek = take 32 (mlkem_hash_G demo_seed)
    /\ (exists shat ehat that t_enc,
          mapO (fun i => f ← sample_poly_cbd ETA1
                               (mlkem_prf ETA1 (drop 32 (mlkem_hash_G demo_seed)) i);
                         ntt f)
               (seq 0 K) = Done shat
          /\ mapO (fun i => f ← sample_poly_cbd ETA1
                                  (mlkem_prf ETA1 (drop 32 (mlkem_hash_G demo_seed)) (i + K));
                            ntt f)
                  (seq 0 K) = Done ehat
          /\ length that = K
          /\ (forall i, (i < K)%nat ->
                (prods ← mapO (fun j => ntt_mul (A i j) (shat !!! j)) (seq 0 K);
                 reduce ntt_add (prods ++ [ehat !!! i])) = Done (that !!! i))
          /\ mapO (byte_encode 12) that = Done t_enc
          /\ demo_ek = concat t_enc ++ take 32 (mlkem_hash_G demo_seed))
    /\ (exists rhat e1 u c1 c2,
          mapO (fun i => f ← sample_poly_cbd ETA1
                               (mlkem_prf ETA1
                                  (drop 32 (mlkem_hash_G (demo_msg ++ mlkem_hash_H demo_ek)))
                                  i);
                         ntt f) (seq 0 K)
          = Done rhat
          /\ mapO (fun i => sample_poly_cbd ETA2
                              (mlkem_prf ETA2
                                 (drop 32 (mlkem_hash_G (demo_msg ++ mlkem_hash_H demo_ek)))
                                 (i + K))) (seq 0 K)
             = Done e1
          /\ length u = K
          /\ (forall i, (i < K)%nat ->
                (prods ← mapO (fun j => ntt_mul (A j i) (rhat !!! j)) (seq 0 K);
                 acc ← reduce ntt_add prods;
                 w ← ntt_inv acc;
                 Done (poly256_add w (e1 !!! i))) = Done (u !!! i))
          /\ mapO (fun i => byte_encode DU (compress DU (u !!! i))) (seq 0 K) = Done c1
          /\ demo_c1 = concat c1 ++ c2).
Proof.
  exact (ahat_matrix_entry demo_fuel demo_seed demo_ek (take 1152 demo_dk) demo_msg
           (drop 32 (mlkem_hash_G (demo_msg ++ mlkem_hash_H demo_ek))) demo_c1
           demo_kpke_keygen demo_kpke_encrypt).
Defined.

(** * Successive reads of a stream *)

#[local] Transparent byte_encode byte_decode sample_poly_cbd compress decompress
  poly256_add poly256_sub.

Lemma shake_128_stream msg : xof_stream (init (hashlib.shake_128 msg)).
Proof.
  unfold init. split; cbn [digest buf offset].
  - intros n. apply length_shake_128.
  - intros n m H. apply shake_128_prefix, H.
  - intros n. apply keccak_bytes.
  - rewrite length_shake_128. reflexivity.
  - rewrite length_shake_128. lia.
Qed.

Lemma reads_upcoming fuel ns : forall s,
  xof_stream s -> (offset s + list_sum ns <= fuel)%nat ->
  exists s', reads fuel ns s = Done (upcoming s (list_sum ns), s').
Proof.
  induction ns as [|n ns IH]; intros s Hx Hf.
  - exists s. cbn [reads list_sum fold_right]. rewrite upcoming_0 by exact Hx. reflexivity.
  - cbn [list_sum fold_right] in Hf |- *. fold (list_sum ns) in Hf |- *.
    pose proof (read_xof_spec fuel n s Hx) as Hr. cbn [reads].
    destruct (read fuel n s) as [[bs s1]| |]; [|destruct Hr|lia].
    destruct Hr as (-> & Hx1 & Hd & Ho).
    destruct (IH s1 Hx1) as [s2 H2]; [lia|].
    exists s2. cbn [mbind outcome_bind]. rewrite H2. cbn [mbind outcome_bind].
    rewrite (upcoming_app s s1 n (list_sum ns) Hx Hd Ho). reflexivity.
Qed.

(** X2.  Successive reads of a fresh stream return, concatenated, one
    digest of the total length: however the reads are sized,
    [a.read(n1) + a.read(n2) + ...] is [digest(n1 + n2 + ...)], as the
    self-test of src/shakestream.py asserts for one list of sizes. *)
Theorem shakestream_reads_concat (dg : nat -> list Z) (ns : list nat) (fuel : nat) :
  xof_stream (init dg) -> (list_sum ns <= fuel)%nat ->
  exists s', reads fuel ns (init dg) = Done (dg (list_sum ns), s').
Proof.
  intros Hx Hf. exact (reads_upcoming fuel ns (init dg) Hx Hf).
Qed.

Lemma shakestream_reads_concat_witness :
  exists s', reads 2000 [17; 5; 57; 1432; 48]%nat (init (hashlib.shake_128 hello))
             = Done (hashlib.shake_128 hello (17 + 5 + 57 + 1432 + 48), s').
Proof.
  apply (shakestream_reads_concat (hashlib.shake_128 hello) [17; 5; 57; 1432; 48]%nat 2000).
  - apply shake_128_stream.
  - vm_compute. lia.
Defined.

(** * Bits and bytes *)

(** X3.  [bits_to_bytes] undoes [bytes_to_bits]: a byte string becomes
    eight bits per byte, each 0 or 1, and packing them gives the byte string
    back. *)
Theorem bits_to_bytes_of_bytes (data : list Z) :
  Forall (fun b => 0 <= b < 256) data ->
  length (bytes_to_bits data) = (length data * 8)%nat
  /\ Forall (fun b => 0 <= b <= 1) (bytes_to_bits data)
  /\ bits_to_bytes (bytes_to_bits data) = Done data.
Proof.
  intros Hd. split; [apply length_bytes_to_bits|]. split; [|apply bits_to_bytes_to_bits, Hd].
  rewrite bytes_to_bits_bits_of. apply Forall_flat_map, Forall_forall.
  intros w _. apply bits_of_are_bits.
Qed.

Lemma bits_to_bytes_of_bytes_witness :
  length (bytes_to_bits hello) = (length hello * 8)%nat
  /\ Forall (fun b => 0 <= b <= 1) (bytes_to_bits hello)
  /\ bits_to_bytes (bytes_to_bits hello) = Done hello.
Proof.
  apply (bits_to_bytes_of_bytes hello). unfold hello. repeat constructor; lia.
Defined.

(** X4.  [bits_to_bytes] on a list of bits: when the number of bits is a
    multiple of 8 it returns one byte per 8 bits and [bytes_to_bits] gives
    the bits back; otherwise its assertion fails. *)
Theorem bytes_to_bits_of_bits (bits : list Z) :
  Forall (fun b => 0 <= b <= 1) bits ->
  ((length bits mod 8 = 0)%nat ->
     exists bs, bits_to_bytes bits = Done bs
                /\ length bs = (length bits / 8)%nat /\ bytes_to_bits bs = bits)
  /\ ((length bits mod 8 <> 0)%nat -> bits_to_bytes bits = Raised).
Proof.
  intros Hb. split; intros Hl.
  - assert (Hn : length bits = (length bits / 8 * 8)%nat).
    { pose proof (Nat.div_mod_eq (length bits) 8). lia. }
    destruct (bits_to_bytes_total bits (length bits / 8) Hn Hb) as (bs & Hbs & Lbs).
    exists bs. split; [exact Hbs|]. split; [exact Lbs|].
    apply (bytes_to_bits_to_bytes bits bs Hb Hbs).
  - unfold bits_to_bytes. destruct (Nat.eqb_spec (length bits mod 8) 0) as [E|E]; [lia|].
    reflexivity.
Qed.

Lemma bytes_to_bits_of_bits_witness :
  ((length (bits_of 16 12345) mod 8 = 0)%nat ->
     exists bs, bits_to_bytes (bits_of 16 12345) = Done bs
                /\ length bs = (length (bits_of 16 12345) / 8)%nat
                /\ bytes_to_bits bs = bits_of 16 12345)
  /\ ((length (bits_of 16 12345) mod 8 <> 0)%nat -> bits_to_bytes (bits_of 16 12345) = Raised).
Proof. apply (bytes_to_bits_of_bits (bits_of 16 12345)). apply bits_of_are_bits. Defined.

(** * The byte codec *)

Lemma byte_decode_encode_witness :
  exists bs, byte_encode 12 demo_a = Done bs
    /\ length bs = (32 * 12)%nat
    /\ byte_decode 12 bs = Done (map (fun a => a mod 2 ^ Z.of_nat 12) demo_a).
Proof. apply (byte_decode_encode 12 demo_a). reflexivity. Defined.

Lemma byte_encode_decode_witness :
  exists f, byte_decode 1 demo_msg = Done f
    /\ length f = 256%nat
    /\ Forall (fun c => 0 <= c < 2 ^ Z.of_nat 1) f
    /\ byte_encode 1 f = Done (take (32 * 1) demo_msg).
Proof.
  apply (byte_encode_decode 1 demo_msg).
  - vm_compute. lia.
  - unfold demo_msg. repeat constructor; lia.
Defined.

(** * Sampling from the centred binomial distribution *)

Lemma fold_left_add_bits (g : nat -> Z) (l : list nat) :
  (forall j, 0 <= g j <= 1) -> 0 <= fold_left Z.add (map g l) 0 <= Z.of_nat (length l).
Proof.
  intros Hg. induction l as [|x l IH]; cbn [map fold_left length]; [lia|].
  rewrite fold_left_add_acc. specialize (Hg x). lia.
Qed.

Lemma lookup_total_bit (bits : list Z) (i : nat) :
  Forall (fun b => 0 <= b <= 1) bits -> 0 <= bits !!! i <= 1.
Proof.
  intros Hb. rewrite list_lookup_total_alt. destruct (bits !! i) as [b|] eqn:E.
  - exact (proj1 (Forall_lookup _ _) Hb i b E).
  - cbn. lia.
Qed.

Lemma bytes_to_bits_are_bits data : Forall (fun b => 0 <= b <= 1) (bytes_to_bits data).
Proof.
  rewrite bytes_to_bits_bits_of. apply Forall_flat_map, Forall_forall.
  intros w _. apply bits_of_are_bits.
Qed.

Lemma sum_bits_range bits i eta :
  Forall (fun b => 0 <= b <= 1) bits -> 0 <= sum_bits bits i eta <= Z.of_nat eta.
Proof.
  intros Hb. unfold sum_bits.
  pose proof (fold_left_add_bits (fun j => bits !!! (i + j)%nat) (seq 0 eta)
                (fun j => lookup_total_bit bits (i + j) Hb)) as H.
  rewrite length_seq in H. exact H.
Qed.

Lemma small_mod_q_diff eta x y :
  0 <= x <= Z.of_nat eta -> 0 <= y <= Z.of_nat eta -> small_mod_q eta ((x - y) mod Q).
Proof.
  intros Hx Hy. unfold small_mod_q.
  pose proof (Z.mod_pos_bound (x - y) Q ltac:(unfold Q; lia)) as Hm.
  destruct (Z.le_gt_cases Q (Z.of_nat eta)) as [Hq|Hq]; [right; lia|].
  destruct (Z.le_gt_cases y x) as [Hyx|Hyx].
  - left. rewrite Z.mod_small by lia. lia.
  - right. rewrite <- (Z.mod_add (x - y) 1 Q) by (unfold Q; lia).
    rewrite Z.mod_small by lia. lia.
Qed.

(** X7.  [sample_poly_cbd(eta, data)] on 64 eta bytes returns 256
    coefficients, each the residue modulo q of an integer between -eta and
    eta; on a byte string of any other length its assertion fails. *)
Theorem sample_poly_cbd_range (eta : nat) (data : list Z) :
  (length data = (64 * eta)%nat ->
     exists f, sample_poly_cbd eta data = Done f /\ length f = 256%nat
               /\ Forall (small_mod_q eta) f)
  /\ (length data <> (64 * eta)%nat -> sample_poly_cbd eta data = Raised).
Proof.
  split; intros Hl.
  - exists (cbd_poly eta data). split; [apply sample_poly_cbd_poly, Hl|].
    split; [apply length_cbd_poly|].
    unfold cbd_poly. apply Forall_map, Forall_forall. intros i _.
    apply small_mod_q_diff; apply sum_bits_range, bytes_to_bits_are_bits.
  - unfold sample_poly_cbd. destruct (Nat.eqb_spec (length data) (64 * eta)) as [E|E]; [lia|].
    reflexivity.
Qed.

(** * Compression *)

Lemma all_from_spec n P : forall z y,
  all_from n z P = true -> z <= y < z + Z.of_nat n -> P y = true.
Proof.
  induction n as [|n IH]; intros z y H Hy; [lia|].
  cbn [all_from] in H. apply andb_true_iff in H as [H0 H].
  destruct (Z.eq_dec y z) as [->|Hne]; [exact H0|].
  apply (IH (z + 1)); [exact H|lia].
Qed.

Lemma all_below_spec n P y : all_below n P = true -> 0 <= y < Z.of_nat n -> P y = true.
Proof. intros H Hy. apply (all_from_spec n P 0 y H). lia. Qed.

Lemma compress_decompress_check :
  forallb (fun d => all_below (2 ^ d)
                      (fun y => list_eqb (compress d (decompress d [y])) [y]))
          (seq 1 11) = true.
Proof. vm_cast_no_check (eq_refl true). Qed.

Lemma compress_decompress_one d y :
  (1 <= d <= 11)%nat -> 0 <= y < 2 ^ Z.of_nat d -> compress d (decompress d [y]) = [y].
Proof.
  intros Hd Hy. apply list_eqb_true.
  pose proof compress_decompress_check as H. rewrite forallb_forall in H.
  apply (all_below_spec (2 ^ d) (fun y => list_eqb (compress d (decompress d [y])) [y])).
  - apply H, in_seq. lia.
  - rewrite Nat2Z.inj_pow. exact Hy.
Qed.

(** X8.  For d from 1 to 11, compressing a decompressed value gives the
    value back: [compress(d, decompress(d, x)) == x] for every list x of
    d-bit values. *)
Theorem compress_decompress_id (d : nat) (x : list Z) :
  (1 <= d <= 11)%nat -> Forall (fun y => 0 <= y < 2 ^ Z.of_nat d) x ->
  compress d (decompress d x) = x.
Proof.
  intros Hd Hx. induction Hx as [|y x Hy _ IH]; [reflexivity|].
  pose proof (compress_decompress_one d y Hd Hy) as H1.
  unfold compress, decompress in *. cbn [map] in *.
  injection H1 as H1. rewrite H1, IH. reflexivity.
Qed.

Lemma compress_decompress_id_witness :
  compress 10 (decompress 10 [0; 1; 512; 1023]) = [0; 1; 512; 1023].
Proof.
  apply (compress_decompress_id 10 [0; 1; 512; 1023]); [lia|].
  repeat constructor; cbn; lia.
Defined.

Lemma decompress_compress_check :
  forallb (fun d =>
             let p := 2 ^ Z.of_nat d in
             let h := 2 ^ (Z.of_nat d - 1) in
             let b := (Q + p) / 2 ^ (Z.of_nat d + 1) in
             let q2 := Q / 2 in
             all_below 3329
               (fun x => dist_q (((((x * p + q2) / Q) mod p * Q + h) / p) mod Q) x <=? b))
          (seq 1 12) = true.
Proof. vm_cast_no_check (eq_refl true). Qed.

(** X9.  For d from 1 to 12, decompressing a compressed coefficient gives
    a coefficient close to it: the distance modulo q between x and
    [decompress(d, compress(d, x))] is at most q / 2^(d+1) rounded to the
    nearest integer, for every coefficient of a list x in [0, q). *)
Theorem decompress_compress_close (d : nat) (x : list Z) :
  (1 <= d <= 12)%nat -> Forall (fun c => 0 <= c < Q) x ->
  Forall2 (fun c c' => dist_q c' c <= (Q + 2 ^ Z.of_nat d) / 2 ^ (Z.of_nat d + 1))
          x (decompress d (compress d x)).
Proof.
  intros Hd Hx. induction Hx as [|c x Hc _ IH]; [constructor|].
  pose proof decompress_compress_check as H. rewrite forallb_forall in H.
  specialize (H d ltac:(apply in_seq; lia)).
  cbv zeta in H.
  pose proof (all_below_spec 3329 _ c H ltac:(unfold Q in Hc; lia)) as H1. cbn beta in H1.
  unfold compress, decompress in *. cbn [map] in *.
  constructor; [|exact IH]. apply Z.leb_le. exact H1.
Qed.

Lemma decompress_compress_close_witness :
  Forall2 (fun c c' => dist_q c' c <= (Q + 2 ^ Z.of_nat 4) / 2 ^ (Z.of_nat 4 + 1))
          [0; 104; 1664; 3328] (decompress 4 (compress 4 [0; 104; 1664; 3328])).
Proof.
  apply (decompress_compress_close 4 [0; 104; 1664; 3328]); [lia|].
  repeat constructor; unfold Q; lia.
Defined.

(** X10.  For every d >= 1 and every integer y, what [decompress] computes
    for y is the round-half-up of the exact fraction q * y / 2^d, taken
    modulo q, as [decompress_proper] of src/test_compress.py computes it. *)
Theorem decompress_agrees_with_proper (d : nat) (y : Z) :
  (1 <= d)%nat -> decompress d [y] = [test_compress.decompress_proper d y].
Proof.
  intros Hd. unfold decompress, test_compress.decompress_proper. cbn [map].
  rewrite round_half_up_frac.
  rewrite Z2Pos.id by (apply Z.pow_pos_nonneg; lia).
  assert (Hp : 2 ^ Z.of_nat d = 2 ^ (Z.of_nat d - 1) * 2).
  { rewrite Z.mul_comm, <- Z.pow_succ_r by lia. f_equal. lia. }
  assert (Hpos : 0 < 2 ^ (Z.of_nat d - 1)) by (apply Z.pow_pos_nonneg; lia).
  rewrite Hp. change Q with 3329.
  replace (3329 * y * 2 + 2 ^ (Z.of_nat d - 1) * 2)
    with ((y * 3329 + 2 ^ (Z.of_nat d - 1)) * 2) by lia.
  rewrite Z.div_mul_cancel_r by lia. reflexivity.
Qed.

Lemma decompress_agrees_with_proper_witness :
  decompress 10 [1023] = [test_compress.decompress_proper 10 1023].
Proof. apply (decompress_agrees_with_proper 10 1023). lia. Defined.

Lemma compress_proper_formula (d : nat) (x : Z) :
  test_compress.compress_proper d x
  = ((x * 2 ^ Z.of_nat d + 1664) / 3329) mod 2 ^ Z.of_nat d.
Proof.
  unfold test_compress.compress_proper. rewrite round_half_up_frac.
  change (Z.pos 3329 * 2) with 6658. change (Z.pos 3329) with 3329.
  rewrite (Z.mul_comm (2 ^ Z.of_nat d) x), <- compress_formula_eq. reflexivity.
Qed.

Lemma compress_kyber_ref_check :
  all_below 3329
    (fun n =>
       (((n * 2 ^ Z.of_nat 1 + 1664) / 3329) mod 2 ^ Z.of_nat 1
        =? test_compress.compress_kyber_ref_poly_tomsg n)
       && (((n * 2 ^ Z.of_nat 4 + 1664) / 3329) mod 2 ^ Z.of_nat 4
           =? test_compress.compress_kyber_ref_poly_128 n)
       && (((n * 2 ^ Z.of_nat 5 + 1664) / 3329) mod 2 ^ Z.of_nat 5
           =? test_compress.compress_kyber_ref_poly_160 n)
       && (((n * 2 ^ Z.of_nat 11 + 1664) / 3329) mod 2 ^ Z.of_nat 11
           =? test_compress.compress_kyber_ref_polyvec_128 n)
       && (((n * 2 ^ Z.of_nat 10 + 1664) / 3329) mod 2 ^ Z.of_nat 10
           =? test_compress.compress_kyber_ref_polyvec_160 n)) = true.
Proof. vm_cast_no_check (eq_refl true). Qed.

(** X11.  On every coefficient n in [0, q) the five compression routines
    of the Kyber reference code, with their multiply-and-shift in place of
    the division, return what [compress_proper] returns for d = 1, 4, 5, 11
    and 10. *)
Theorem compress_kyber_ref_agree (n : Z) :
  0 <= n < 3329 ->
  test_compress.compress_proper 1 n = test_compress.compress_kyber_ref_poly_tomsg n
  /\ test_compress.compress_proper 4 n = test_compress.compress_kyber_ref_poly_128 n
  /\ test_compress.compress_proper 5 n = test_compress.compress_kyber_ref_poly_160 n
  /\ test_compress.compress_proper 11 n = test_compress.compress_kyber_ref_polyvec_128 n
  /\ test_compress.compress_proper 10 n = test_compress.compress_kyber_ref_polyvec_160 n.
Proof.
  intros Hn. rewrite !compress_proper_formula.
  pose proof (all_below_spec 3329 _ n compress_kyber_ref_check Hn) as H. cbn beta in H.
  rewrite !andb_true_iff, !Z.eqb_eq in H. tauto.
Qed.

Lemma compress_kyber_ref_agree_witness :
  test_compress.compress_proper 1 1665 = test_compress.compress_kyber_ref_poly_tomsg 1665
  /\ test_compress.compress_proper 4 1665 = test_compress.compress_kyber_ref_poly_128 1665
  /\ test_compress.compress_proper 5 1665 = test_compress.compress_kyber_ref_poly_160 1665
  /\ test_compress.compress_proper 11 1665
     = test_compress.compress_kyber_ref_polyvec_128 1665
  /\ test_compress.compress_proper 10 1665
     = test_compress.compress_kyber_ref_polyvec_160 1665.
Proof. apply (compress_kyber_ref_agree 1665). lia. Defined.

(** * The transforms and the sum, the products and their order *)

#[local] Transparent poly256_add poly256_sub.

Lemma poly256_add_lookup a b i :
  (i < length a)%nat -> (i < length b)%nat ->
  poly256_add a b !!! i = (a !!! i + b !!! i) mod Q.
Proof.
  intros Ha Hb. unfold poly256_add. apply list_lookup_total_correct.
  rewrite lookup_zip_with.
  rewrite (list_lookup_lookup_total_lt a i Ha), (list_lookup_lookup_total_lt b i Hb).
  reflexivity.
Qed.

Lemma reduced_poly256_add a b : reduced (poly256_add a b).
Proof.
  unfold reduced, poly256_add. revert b.
  induction a as [|x a IH]; intros [|y b]; cbn [zip_with]; try constructor.
  - apply Z.mod_pos_bound. unfold Q. lia.
  - apply IH.
Qed.

Lemma poly256_add_lin3 a b :
  length a = 256%nat -> length b = 256%nat -> lin3 256 1 1 (poly256_add a b) a b.
Proof.
  intros Ha Hb. split; [apply length_poly256_add; assumption|]. split; [exact Ha|].
  split; [exact Hb|]. intros i Hi. rewrite poly256_add_lookup by lia.
  unfold eqQ. rewrite Z.mod_mod by (unfold Q; lia). f_equal. lia.
Qed.

Lemma ntt_add_transforms a b :
  length a = 256%nat -> length b = 256%nat ->
  ntt_inv_loops (ntt_add (ntt_fun a) (ntt_fun b)) = poly256_add a b.
Proof.
  intros Ha Hb.
  pose proof (length_poly256_add a b Ha Hb) as Hs.
  pose proof (length_ntt_fun a Ha) as Hah. pose proof (length_ntt_fun b Hb) as Hbh.
  rewrite <- (ntt_inv_ntt_loops (poly256_add a b) Hs (reduced_poly256_add a b)).
  apply eqv_reduced_eq.
  - destruct (ntt_fun_lin3 1 1 _ _ _ (poly256_add_lin3 a b Ha Hb)) as (L1 & _ & _ & E).
    assert (H : lin3 256 1 0 (ntt_add (ntt_fun a) (ntt_fun b))
                     (ntt_fun (poly256_add a b)) (ntt_fun (poly256_add a b))).
    { split; [apply length_poly256_add; assumption|]. split; [exact L1|].
      split; [exact L1|]. intros i Hi. unfold ntt_add. rewrite poly256_add_lookup by lia.
      specialize (E i Hi). unfold eqQ in *. rewrite Z.mod_mod by (unfold Q; lia).
      generalize dependent (ntt_fun (poly256_add a b) !!! i).
      generalize (ntt_fun a !!! i) (ntt_fun b !!! i). clear. intros x y z E.
      replace (1 * z + 0 * z) with z by lia.
      rewrite E. apply (f_equal (fun t => t mod Q)). lia. }
    destruct (ntt_inv_loops_lin3 1 0 _ _ _ H) as (M1 & M2 & _ & M).
    split; [exact M1|]. split; [exact M2|]. intros i Hi. specialize (M i Hi).
    unfold eqQ in *. rewrite M.
    generalize (ntt_inv_loops (ntt_fun (poly256_add a b)) !!! i). clear. intros z.
    apply (f_equal (fun t => t mod Q)). lia.
  - apply reduced_ntt_inv_loops, length_poly256_add; assumption.
  - apply reduced_ntt_inv_loops, length_ntt_fun, Hs.
Qed.

(** X12.  The transform is additive: for all lists a, b of 256 integers,
    [ntt_inv(ntt_add(ntt(a), ntt(b)))] returns [poly256_add(a, b)], as the
    self-test at the end of src/mlkem.py asserts for one pair. *)
Theorem ntt_add_is_poly256_add (a b : list Z) :
  length a = 256%nat -> length b = 256%nat ->
  exists ah bh,
    ntt a = Done ah /\ ntt b = Done bh
    /\ ntt_inv (ntt_add ah bh) = Done (poly256_add a b).
Proof.
  intros Ha Hb. exists (ntt_fun a), (ntt_fun b).
  split; [apply ntt_done, Ha|]. split; [apply ntt_done, Hb|].
  rewrite ntt_inv_done by (apply length_poly256_add; apply length_ntt_fun; assumption).
  exact (f_equal Done (ntt_add_transforms a b Ha Hb)).
Qed.

Lemma ntt_add_is_poly256_add_witness :
  exists ah bh,
    ntt demo_a = Done ah /\ ntt demo_b = Done bh
    /\ ntt_inv (ntt_add ah bh) = Done (poly256_add demo_a demo_b).
Proof. apply (ntt_add_is_poly256_add demo_a demo_b); reflexivity. Defined.

Lemma ntt_mul_loop_comm a b : ntt_mul_loop a b = ntt_mul_loop b a.
Proof.
  rewrite !ntt_mul_loop_pairs. apply flat_map_ext. intros i.
  unfold ntt_mul_even, ntt_mul_odd. f_equal; [|f_equal]; f_equal; lia.
Qed.

(** X13.  Both products are commutative on lists of 256 integers:
    [ntt_mul(a, b)] returns what [ntt_mul(b, a)] returns, and
    [poly256_slow_mul(a, b)] what [poly256_slow_mul(b, a)] returns. *)
Theorem products_commute (a b : list Z) :
  length a = 256%nat -> length b = 256%nat ->
  (exists c, ntt_mul a b = Done c /\ ntt_mul b a = Done c)
  /\ (exists c, poly256_slow_mul a b = Done c /\ poly256_slow_mul b a = Done c).
Proof.
  intros Ha Hb. split.
  - exists (ntt_mul_loop a b). split; [apply ntt_mul_done; assumption|].
    rewrite ntt_mul_loop_comm. apply ntt_mul_done; assumption.
  - exists (slow_mul_loops a b). split; [apply poly256_slow_mul_done; assumption|].
    rewrite (poly256_slow_mul_done b a Hb Ha).
    rewrite <- (ntt_product_slow_mul a b Ha Hb), <- (ntt_product_slow_mul b a Hb Ha).
    unfold ntt_product. rewrite ntt_mul_loop_comm. reflexivity.
Qed.

Lemma products_commute_witness :
  (exists c, ntt_mul demo_a demo_b = Done c /\ ntt_mul demo_b demo_a = Done c)
  /\ (exists c, poly256_slow_mul demo_a demo_b = Done c
                /\ poly256_slow_mul demo_b demo_a = Done c).
Proof. apply (products_commute demo_a demo_b); reflexivity. Defined.

(** The tables hold the powers of 17 that the source computes. *)
Lemma ZETA_table : ZETA = map (fun k => 17 ^ bitrev7 k mod Q) (seq 0 128).
Proof. vm_cast_no_check (eq_refl ZETA). Qed.

Lemma GAMMA_table : GAMMA = map (fun k => 17 ^ (2 * bitrev7 k + 1) mod Q) (seq 0 128).
Proof. vm_cast_no_check (eq_refl GAMMA). Qed.

Lemma bitrev7_check :
  forallb (fun n => (0 <=? bitrev7 n) && (bitrev7 n <? 128)
                    && (bitrev7 (Z.to_nat (bitrev7 n)) =? Z.of_nat n)) (seq 0 128) = true.
Proof. vm_cast_no_check (eq_refl true). Qed.

(** X19.  On the indices of the tables, 0 to 127, [bitrev7] stays in that
    range and is its own inverse: reversing the seven binary digits twice
    gives the number back. *)
Theorem bitrev7_involution (n : nat) :
  (n < 128)%nat ->
  0 <= bitrev7 n < 128 /\ bitrev7 (Z.to_nat (bitrev7 n)) = Z.of_nat n.
Proof.
  intros Hn. pose proof bitrev7_check as H. rewrite forallb_forall in H.
  specialize (H n ltac:(apply in_seq; lia)).
  rewrite !andb_true_iff, Z.leb_le, Z.ltb_lt, Z.eqb_eq in H. lia.
Qed.

Lemma bitrev7_involution_witness :
  0 <= bitrev7 5 < 128 /\ bitrev7 (Z.to_nat (bitrev7 5)) = Z.of_nat 5.
Proof. apply (bitrev7_involution 5). lia. Defined.

Lemma poly256_sub_lookup a b i :
  (i < length a)%nat -> (i < length b)%nat ->
  poly256_sub a b !!! i = (a !!! i - b !!! i) mod Q.
Proof.
  intros Ha Hb. unfold poly256_sub. apply list_lookup_total_correct.
  rewrite lookup_zip_with.
  rewrite (list_lookup_lookup_total_lt a i Ha), (list_lookup_lookup_total_lt b i Hb).
  reflexivity.
Qed.

(** X20.  Subtraction undoes addition: for lists a, b of the same length,
    a with coefficients in [0, q) and b of any integers,
    [poly256_sub(poly256_add(a, b), b)] is a. *)
Theorem poly256_sub_add (a b : list Z) :
  length a = length b -> Forall (fun c => 0 <= c < Q) a ->
  poly256_sub (poly256_add a b) b = a.
Proof.
  intros Hl Ha. revert b Hl. induction Ha as [|x a Hx _ IH]; intros [|y b] Hl;
    try discriminate Hl; [reflexivity|].
  unfold poly256_sub, poly256_add in *. cbn [zip_with]. f_equal.
  - rewrite Zminus_mod_idemp_l. replace (x + y - y) with x by lia.
    apply Z.mod_small, Hx.
  - apply IH. cbn [length] in Hl. lia.
Qed.

Lemma poly256_sub_add_witness :
  poly256_sub (poly256_add [1; 3328] [3328; 5000]) [3328; 5000] = [1; 3328].
Proof.
  apply (poly256_sub_add [1; 3328] [3328; 5000]); [reflexivity|].
  repeat constructor; unfold Q; lia.
Defined.

(** * The KEM on honest keys *)

(** X14.  The keys [mlkem_keygen] returns: the encapsulation key has 1184
    bytes and ends with the seed rho, the first half of G(d); the
    decapsulation key has 2400 bytes, and after its first 1152 bytes holds
    the encapsulation key, then H(ek), then z.  With both seeds given no
    random byte is drawn. *)
Theorem mlkem_keygen_layout fuel z d w w' ek dk :
  length z = 32%nat ->
  mlkem_keygen fuel (Some z) (Some d) w = (Done (ek, dk), w') ->
  length ek = 1184%nat /\ length dk = 2400%nat
  /\ last_n 32 ek = take 32 (mlkem_hash_G d)
  /\ slice 1152 2336 dk = ek
  /\ slice 2336 2368 dk = mlkem_hash_H ek
  /\ slice 2368 2400 dk = z
  /\ w' = w.
Proof.
  intros Hz H. unfold mlkem_keygen, kpke_keygen, seed_or_urandom in H.
  destruct (kpke_keygen_from fuel d) as [[ek' dk_pke]| |] eqn:E; try discriminate H.
  cbn [mbind outcome_bind] in H. injection H as <- <- <-.
  pose proof (kpke_keygen_from_rho _ _ _ _ E) as Hrho.
  apply kpke_keygen_from_inv in E as (Hek & Hdk & _).
  destruct (dk_fields dk_pke ek' (mlkem_hash_H ek') z Hdk Hek (length_mlkem_hash_H ek') Hz)
    as (_ & F1 & F2 & F3 & _).
  split; [exact Hek|]. split.
  { rewrite !length_app, Hdk, Hek, length_mlkem_hash_H, Hz. reflexivity. }
  split; [exact Hrho|]. split; [exact F1|]. split; [exact F2|]. split; [exact F3|].
  reflexivity.
Qed.

Lemma mlkem_keygen_layout_witness :
  length demo_ek = 1184%nat /\ length demo_dk = 2400%nat
  /\ last_n 32 demo_ek = take 32 (mlkem_hash_G demo_seed)
  /\ slice 1152 2336 demo_dk = demo_ek
  /\ slice 2336 2368 demo_dk = mlkem_hash_H demo_ek
  /\ slice 2368 2400 demo_dk = demo_rand
  /\ demo_tape = demo_tape.
Proof.
  exact (mlkem_keygen_layout demo_fuel demo_rand demo_seed demo_tape demo_tape
           demo_ek demo_dk eq_refl demo_keygen).
Defined.

(** X15.  On an honestly generated encapsulation key, [mlkem_encaps] with
    a seed of at least 32 bytes returns: a shared secret of 32 bytes and a
    ciphertext of 1088 bytes, and it draws no random byte. *)
Theorem mlkem_encaps_honest_returns fuel z d w w' ek dk m w1 :
  mlkem_keygen fuel (Some z) (Some d) w = (Done (ek, dk), w') ->
  (32 <= length m)%nat ->
  exists k c, mlkem_encaps fuel ek (Some m) w1 = (Done (k, c), w1)
              /\ length k = 32%nat /\ length c = 1088%nat.
Proof.
  intros Hk Hm. apply mlkem_keygen_inv in Hk as (dk_pke & Hk & _).
  apply kpke_keygen_from_inv in Hk as (Hek & _ & A & HA).
  destruct (kpke_encrypt_total fuel ek m
              (drop 32 (mlkem_hash_G (m ++ mlkem_hash_H ek))) A Hek HA Hm)
    as (c & Hc & Lc).
  exists (take 32 (mlkem_hash_G (m ++ mlkem_hash_H ek))), c.
  rewrite mlkem_encaps_seeded, Hc. split; [reflexivity|]. split; [|exact Lc].
  rewrite length_take, length_mlkem_hash_G. reflexivity.
Qed.

Lemma mlkem_encaps_honest_returns_witness :
  exists k c, mlkem_encaps demo_fuel demo_ek (Some demo_msg) demo_tape
              = (Done (k, c), demo_tape)
              /\ length k = 32%nat /\ length c = 1088%nat.
Proof.
  apply (mlkem_encaps_honest_returns demo_fuel demo_rand demo_seed demo_tape demo_tape
           demo_ek demo_dk demo_msg demo_tape demo_keygen).
  vm_compute. lia.
Defined.

(** X16.  [mlkem_decaps] does not check the length of the ciphertext: on
    an honest decapsulation key a ciphertext of more than 1088 bytes is
    decrypted from its first 1088 bytes, never equals the re-encryption, and
    the call returns the rejection key J(z ‖ c). *)
Theorem mlkem_decaps_long_ciphertext fuel z d w w' ek dk c :
  length z = 32%nat ->
  mlkem_keygen fuel (Some z) (Some d) w = (Done (ek, dk), w') ->
  (1088 < length c)%nat ->
  mlkem_decaps fuel c dk = Done (mlkem_hash_J (z ++ c)).
Proof.
  intros Hz Hk Hc. apply mlkem_keygen_inv in Hk as (dk_pke & Hk & ->).
  apply kpke_keygen_from_inv in Hk as (Hek & Hdk & A & HA).
  pose proof (kpke_decrypt_value_done dk_pke c ltac:(lia) ltac:(lia)) as Hm.
  assert (Lm : length (kpke_decrypt_value dk_pke c) = 32%nat).
  { unfold kpke_decrypt_value. cbv zeta. apply (length_encode_bytes 1). }
  destruct (kpke_encrypt_total fuel ek (kpke_decrypt_value dk_pke c)
              (drop 32 (mlkem_hash_G (kpke_decrypt_value dk_pke c ++ mlkem_hash_H ek)))
              A Hek HA ltac:(lia)) as (cdash & Hcd & Lcd).
  rewrite (mlkem_decaps_honest fuel dk_pke ek z c _ cdash Hdk Hek Hz Hm Hcd).
  rewrite bool_decide_eq_false_2; [reflexivity|]. intros ->. lia.
Qed.

Lemma mlkem_decaps_long_ciphertext_witness :
  mlkem_decaps demo_fuel (demo_c1 ++ [0]) demo_dk
  = Done (mlkem_hash_J (demo_rand ++ demo_c1 ++ [0])).
Proof.
  apply (mlkem_decaps_long_ciphertext demo_fuel demo_rand demo_seed demo_tape demo_tape
           demo_ek demo_dk (demo_c1 ++ [0]) eq_refl demo_keygen).
  vm_compute. lia.
Defined.

(** * Inputs that are too short *)

#[local] Transparent byte_decode kpke_encrypt kpke_decrypt.

Lemma byte_decode_short d data :
  (length data * 8 < 256 * d)%nat -> byte_decode d data = Raised.
Proof.
  intros H. unfold byte_decode. rewrite length_bytes_to_bits.
  destruct (Nat.ltb_spec (length data * 8) (256 * d)); [reflexivity|lia].
Qed.

Lemma byte_decode_not_out_of_fuel d data : byte_decode d data <> OutOfFuel.
Proof. unfold byte_decode. destruct (_ <? _)%nat; discriminate. Qed.

Lemma mapO_raised {A B : Type} (f : A -> outcome B) (l : list A) (x : A) :
  x ∈ l -> f x = Raised -> (forall y, y ∈ l -> f y <> OutOfFuel) -> mapO f l = Raised.
Proof.
  induction l as [|a l IH]; intros Hx Hr Hn; [apply elem_of_nil in Hx; destruct Hx|].
  cbn [mapO]. destruct (f a) as [y| |] eqn:E.
  - cbn [mbind outcome_bind]. rewrite IH; [reflexivity| |exact Hr|].
    + apply elem_of_cons in Hx as [->|Hx]; [congruence|exact Hx].
    + intros t Ht. apply Hn. right. exact Ht.
  - reflexivity.
  - exfalso. apply (Hn a); [left|exact E].
Qed.

Lemma bind_raised {A B : Type} (m : outcome A) (k : A -> outcome B) :
  m = Raised -> (x ← m; k x) = Raised.
Proof. intros ->. reflexivity. Qed.

Lemma length_slice {B : Type} (a b : nat) (x : list B) :
  length (slice a b x) = Nat.min (b - a) (length x - a).
Proof. unfold slice. rewrite length_take, length_drop. reflexivity. Qed.

Lemma kpke_decrypt_short dk_pke c : (length c < 1088)%nat -> kpke_decrypt dk_pke c = Raised.
Proof.
  intros Hc. unfold kpke_decrypt. cbv zeta.
  destruct (Nat.lt_ge_cases (length c) 960) as [Hs|Hs].
  - apply bind_raised. apply (mapO_raised _ _ 2%nat).
    + apply elem_of_seq. unfold K. lia.
    + rewrite byte_decode_short; [reflexivity|].
      rewrite length_slice, length_take. unfold DU, K. lia.
    + intros i _. destruct (byte_decode DU _) eqn:E; cbn [mbind outcome_bind];
        try discriminate. exfalso. exact (byte_decode_not_out_of_fuel _ _ E).
  - eapply bind_done.
    { apply (mapO_map _ (fun i => decompress DU
               (decode_poly DU (slice (i * 32 * DU) ((i + 1) * 32 * DU)
                                      (take (32 * DU * K) c))))).
      intros i Hi. apply elem_of_seq in Hi. unfold K, DU in *.
      eapply bind_done; [|reflexivity].
      apply byte_decode_poly. rewrite length_slice, length_take. lia. }
    cbn beta. apply bind_raised. apply byte_decode_short.
    rewrite length_drop. unfold DU, DV, K. lia.
Qed.

(** X17.  A ciphertext shorter than 1088 bytes makes [mlkem_decaps] raise,
    whatever the decapsulation key: [byte_decode] indexes past the end of
    the bits it was given. *)
Theorem mlkem_decaps_short_ciphertext fuel c dk :
  (length c < 1088)%nat -> mlkem_decaps fuel c dk = Raised.
Proof.
  intros Hc. unfold mlkem_decaps. cbv zeta.
  apply bind_raised. apply kpke_decrypt_short, Hc.
Qed.

Lemma mlkem_decaps_short_ciphertext_witness :
  mlkem_decaps demo_fuel (take 1087 demo_c1) demo_dk = Raised.
Proof.
  apply (mlkem_decaps_short_ciphertext demo_fuel (take 1087 demo_c1) demo_dk).
  vm_compute. lia.
Defined.

Lemma kpke_encrypt_short fuel ek m r : (length ek < 1152)%nat -> kpke_encrypt fuel ek m r = Raised.
Proof.
  intros He. unfold kpke_encrypt.
  apply bind_raised. apply (mapO_raised _ _ 2%nat).
  - apply elem_of_seq. unfold K. lia.
  - apply byte_decode_short. rewrite length_slice. unfold K. lia.
  - intros i _. apply byte_decode_not_out_of_fuel.
Qed.

(** X18.  An encapsulation key shorter than 1152 bytes makes
    [mlkem_encaps] raise, with or without a seed: the key is not validated,
    and decoding its third polynomial indexes past the end. *)
Theorem mlkem_encaps_short_key fuel ek seed w :
  (length ek < 1152)%nat -> fst (mlkem_encaps fuel ek seed w) = Raised.
Proof.
  intros He. unfold mlkem_encaps. destruct (seed_or_urandom seed w) as [m w1].
  cbv zeta. cbn [fst]. apply bind_raised. apply kpke_encrypt_short, He.
Qed.

Lemma mlkem_encaps_short_key_witness :
  fst (mlkem_encaps demo_fuel (take 1151 demo_ek) (Some demo_msg) demo_tape) = Raised.
Proof.
  apply (mlkem_encaps_short_key demo_fuel (take 1151 demo_ek) (Some demo_msg) demo_tape).
  vm_compute. lia.
Defined.

#[local] Opaque byte_decode kpke_encrypt kpke_decrypt.
